(** * CryptoNight (variants 0, 1 and 2): a shallow embedding of [Cache.Sum]

    The development follows the Go source of package [cryptonight]:
    the macros [TO_ADDR] and [VARIANT2_SHUFFLE], the method [Cache.Sum]
    and the one-shot function [Sum].

    Conventions.
    - A [uint64] (and a [uint16], a byte) is a [Z]; every operation of the
      source that can leave the range is followed by its wrap-around.
    - The source views the scratchpad, an array of 64-bit words, as arrays of
      16-bit and 8-bit lanes through pointer casts.  The embedding fixes the
      little-endian layout of the supported hosts: lane [k] of a word holds
      its bits [16k .. 16k+15].
    - A run-time panic of the source (index out of range, slice bounds out of
      range, integer division by zero) is the result [None]. *)

From Stdlib Require Import ZArith Lia Bool Floats.
From coqutil Require Import Z.bitblast.
From stdpp Require Import base tactics option list numbers.

Local Open Scope Z_scope.

(** ** Machine integers *)

Module U64.

Definition modulus : Z := 2 ^ 64.

(** Wrap-around of a 64-bit unsigned result. *)
Definition wrap (x : Z) : Z := x mod modulus.

Definition in_range (x : Z) : Prop := 0 <= x < modulus.

(** [x + y] on [uint64]. *)
Definition add (x y : Z) : Z := wrap (x + y).

(** [x << n] on [uint64]. *)
Definition shl (x n : Z) : Z := wrap (Z.shiftl x n).

(** [^x] on [uint64]: the complement of the 64 bits. *)
Definition not (x : Z) : Z := wrap (Z.lnot x).

(** [x / y] and [x % y] on [uint64]; Go panics on a zero divisor. *)
Definition div (x y : Z) : option Z :=
  if decide (y = 0) then None else Some (x / y).

Definition rem (x y : Z) : option Z :=
  if decide (y = 0) then None else Some (x mod y).

End U64.

(** ** The scratchpad as an array of 64-bit words *)

(** [cache.scratchpad[i]] read; out of range panics. *)
Definition load (sp : list Z) (i : Z) : option Z := sp !! Z.to_nat i.

(** [cache.scratchpad[i] = v]; out of range panics. *)
Definition store (sp : list Z) (i v : Z) : option (list Z) :=
  if decide (Z.to_nat i < length sp)%nat then Some (<[Z.to_nat i := v]> sp)
  else None.

(** [#define TO_ADDR(a) (( (a[0]) & 0x1ffff0) >> 3)]: a word index. *)
Definition TO_ADDR (a : Z * Z) : Z := Z.shiftr (Z.land a.1 0x1ffff0) 3.

(** [U64_U16_LEN8(a, begin)[k]]: lane [k] (of eight) of the 128-bit cell that
    starts at word [begin]. *)
Definition load16 (sp : list Z) (begin k : Z) : option Z :=
  w ← load sp (begin + k / 4);
  Some (Z.land (Z.shiftr w (16 * (k mod 4))) 0xffff).

(** [U64_U16_LEN8(a, begin)[k] = v]: only the sixteen bits of the lane change. *)
Definition store16 (sp : list Z) (begin k v : Z) : option (list Z) :=
  w ← load sp (begin + k / 4);
  store sp (begin + k / 4)
        (Z.lor (Z.ldiff w (Z.shiftl 0xffff (16 * (k mod 4))))
               (Z.shiftl v (16 * (k mod 4)))).

(** ** [VARIANT2_SHUFFLE] *)

Inductive chunk := chunk0 | chunk1 | chunk2.

(** [chunk0 = U64_U16_LEN8(cache.scratchpad, addr^0x02)] and so on. *)
Definition chunk_base (addr : Z) (ch : chunk) : Z :=
  match ch with
  | chunk0 => Z.lxor addr 0x02
  | chunk1 => Z.lxor addr 0x04
  | chunk2 => Z.lxor addr 0x06
  end.

(** The left-hand side of the tuple assignment, in the order of the source. *)
Definition shuffle_dst : list (chunk * Z) :=
  [ (chunk0, 0); (chunk0, 1); (chunk0, 2); (chunk0, 3);
    (chunk0, 4); (chunk0, 5); (chunk0, 6); (chunk0, 7);
    (chunk1, 0); (chunk1, 1); (chunk1, 2); (chunk1, 3);
    (chunk1, 4); (chunk1, 5); (chunk1, 6); (chunk1, 7);
    (chunk2, 0); (chunk2, 1); (chunk2, 2); (chunk2, 3);
    (chunk2, 4); (chunk2, 5); (chunk2, 6); (chunk2, 7) ].

(** The right-hand side of the tuple assignment, in the order of the source. *)
Definition shuffle_src : list (chunk * Z) :=
  [ (chunk2, 2); (chunk2, 6); (chunk2, 3); (chunk2, 7);
    (chunk2, 0); (chunk2, 1); (chunk2, 4); (chunk2, 5);
    (chunk0, 2); (chunk0, 5); (chunk0, 3); (chunk0, 4);
    (chunk0, 6); (chunk0, 7); (chunk0, 0); (chunk0, 1);
    (chunk1, 1); (chunk1, 5); (chunk1, 0); (chunk1, 4);
    (chunk1, 2); (chunk1, 3); (chunk1, 6); (chunk1, 7) ].

(** The assignments of a Go tuple assignment, once the operands on the right
    have been evaluated: carried out from left to right. *)
Fixpoint assign16 (sp : list Z) (addr : Z) (ws : list (chunk * Z * Z))
  : option (list Z) :=
  match ws with
  | [] => Some sp
  | (ch, k, v) :: ws' =>
      sp' ← store16 sp (chunk_base addr ch) k v;
      assign16 sp' addr ws'
  end.

(** The macro: the 24 operands on the right are read first, then the 24
    lanes on the left are written. *)
Definition VARIANT2_SHUFFLE (sp : list Z) (addr : Z) : option (list Z) :=
  vals ← mapM (λ s, load16 sp (chunk_base addr s.1) s.2) shuffle_src;
  assign16 sp addr (zip shuffle_dst vals).

(** ** Variant 1: the tweak of the cell just written (lines 191-193) *)

(** [((^t)&1)<<4 | (((^t)&1)<<4&t)<<1 | (t&32)>>1]: in Go [<<], [>>] and [&]
    share one precedence level and associate to the left, [|] binds weaker. *)
Definition tweak1_index (t : Z) : Z :=
  Z.lor
    (Z.lor (U64.shl (Z.land (U64.not t) 1) 4)
           (U64.shl (Z.land (U64.shl (Z.land (U64.not t) 1) 4) t) 1))
    (Z.shiftr (Z.land t 32) 1).

(** [t = cache.scratchpad[addr+1] >> 24; t = ...;
     cache.scratchpad[addr+1] ^= t << 24]. *)
Definition variant1_tweak (sp : list Z) (addr : Z) : option (list Z) :=
  w ← load sp (addr + 1);
  let t := Z.shiftr w 24 in
  let t := tweak1_index t in
  w ← load sp (addr + 1);
  store sp (addr + 1) (Z.lxor w (U64.shl t 24)).

(** ** Variant 2: division and square root (lines 201-205) *)

(** [float64(x)] for a [uint64] [x]: the nearest double, ties to even. *)
Definition float64_of_uint64 (x : Z) : float :=
  SF2Prim (binary_normalize prec emax x 0 false).

(** [uint64(f)] for a double [f]: the fraction is discarded.  The conversion
    is only specified by Go when the truncated value fits; the other cases,
    which a square root of a [uint64] never reaches, give [0] here. *)
Definition uint64_of_float64 (f : float) : Z :=
  match Prim2SF f with
  | S754_finite false m e =>
      U64.wrap (if decide (0 <= e) then Z.shiftl (Z.pos m) e
                else Z.shiftr (Z.pos m) (- e))
  | _ => 0
  end.

(** [math.Sqrt]: the IEEE-754 binary64 square root. *)
Definition math_Sqrt (f : float) : float := PrimFloat.sqrt f.

(** [divisor = b[0]&0xffffffff | 0x80000001]. *)
Definition divisor_of (b0 : Z) : Z := Z.lor (Z.land b0 0xffffffff) 0x80000001.

(** The block of lines 201-205; its result is the new [c[1]],
    [divisionResult] and [sqrtResult]. *)
Definition variant2_arith (b : Z * Z) (c1 divisionResult sqrtResult : Z)
  : option (Z * Z * Z) :=
  let c1 := Z.lxor c1 (Z.lxor divisionResult sqrtResult) in
  let dividend := b.2 in
  let divisor := divisor_of b.1 in
  q ← U64.div dividend divisor;
  r ← U64.rem dividend divisor;
  let divisionResult := Z.lor (Z.land q 0xffffffff) (U64.shl r 32) in
  let sqrtResult :=
    uint64_of_float64
      (math_Sqrt (float64_of_uint64
                    (Z.shiftr (U64.add b.1 divisionResult) 16))) in
  Some (c1, divisionResult, sqrtResult).

(** ** Go slices of bytes *)

(** A [[]byte]: the part of the backing array from the slice's first element
    on (its length is the capacity) and the slice's length. *)
Record slice := { backing : list Z; len : nat }.

Definition cap (s : slice) : nat := length (backing s).

Definition slice_ok (s : slice) : Prop := (len s <= cap s)%nat.

(** The elements [s[0] .. s[len(s)-1]]. *)
Definition elements (s : slice) : list Z := take (len s) (backing s).

(** [make([]byte, n, m)]. *)
Definition make_bytes (n m : nat) : slice :=
  {| backing := replicate m 0; len := n |}.

(** [[]byte(l)] for the elements [l], without spare capacity. *)
Definition slice_of (l : list Z) : slice :=
  {| backing := l; len := length l |}.

(** [s[i]]: panics unless [i < len(s)]. *)
Definition index (s : slice) (i : nat) : option Z :=
  if decide (i < len s)%nat then backing s !! i else None.

(** [s[lo:hi]]: for a slice operand the upper bound is checked against the
    capacity, not the length (Go specification, "Slice expressions"). *)
Definition reslice (s : slice) (lo hi : nat) : option slice :=
  if decide (lo <= hi <= cap s)%nat
  then Some {| backing := drop lo (backing s); len := hi - lo |}
  else None.

(** [binary.LittleEndian.Uint64(b)], which starts with the bounds check
    [_ = b[7]]. *)
Definition LittleEndian_Uint64 (b : slice) : option Z :=
  index b 7 ;;
  b0 ← index b 0; b1 ← index b 1; b2 ← index b 2; b3 ← index b 3;
  b4 ← index b 4; b5 ← index b 5; b6 ← index b 6; b7 ← index b 7;
  Some (Z.lor b0 (Z.lor (Z.shiftl b1 8) (Z.lor (Z.shiftl b2 16)
       (Z.lor (Z.shiftl b3 24) (Z.lor (Z.shiftl b4 32) (Z.lor (Z.shiftl b5 40)
       (Z.lor (Z.shiftl b6 48) (Z.shiftl b7 56)))))))).

(** ** The collaborators of [Cache.Sum] *)

(** Go's [hash.Hash], as far as [Cache.Sum] uses it: a fresh state, [Write]
    and [Sum], which appends the digest to its argument. *)
Record Hash := {
  hash_state : Type;
  hash_New : hash_state;
  hash_Write : hash_state → list Z → hash_state;
  hash_Sum : hash_state → list Z → list Z;
}.

(** A hash with a 256-bit digest. *)
Definition Hash256 (H : Hash) : Prop :=
  ∀ st b, length (hash_Sum H st b) = (length b + 32)%nat.

(** The functions [Cache.Sum] calls whose bodies are outside the two source
    files at hand: packages [sha3], [aes] (its unexported [cnExpandKey],
    [cnRounds] and [cnSingleRound]), [byteMul] and the four finalist hashes.
    They are parameters of the development, together with what their Go
    types promise: a Keccak state is a [[25]uint64], a finalist appends 32
    bytes.

    Modelled from the spec: [Keccak1600State] is the spec's
    [absorb(input) → state[25]] (section 4.1), so the state it leaves depends
    on the input only; [cnExpandKey] fills all 40 words of the round-key
    buffer from the key, [cnRounds] and [cnSingleRound] map one 128-bit block
    (and the keys) to one 128-bit block (section 4.2); [byteMul] yields the
    two words of the product (section 4.4, step 8). *)
Class Primitives := {
  Keccak1600State : list Z → list Z;
  Keccak1600Permute : list Z → list Z;
  cnExpandKey : list Z → list Z;
  cnRounds : Z * Z → list Z → Z * Z;
  cnSingleRound : Z * Z → Z * Z → Z * Z;
  byteMul : Z → Z → Z * Z;
  blake256_New : Hash;
  groestl_New256 : Hash;
  jh_New256 : Hash;
  skein_New256 : Hash;
  Keccak1600State_length : ∀ data, length (Keccak1600State data) = 25%nat;
  Keccak1600Permute_length :
    ∀ st, length st = 25%nat → length (Keccak1600Permute st) = 25%nat;
  blake256_size : Hash256 blake256_New;
  groestl_size : Hash256 groestl_New256;
  jh_size : Hash256 jh_New256;
  skein_size : Hash256 skein_New256;
}.

(** ** [Cache] *)

Record Cache := {
  finalState : list Z;  (* [25]uint64, state of keccak1600 *)
  scratchpad : list Z;  (* [2 * 1024 * 1024 / 8]uint64 *)
}.

Definition SCRATCHPAD_WORDS : Z := 2 * 1024 * 1024 / 8.

(** What the Go type of a [Cache] fixes: the sizes of its two arrays. *)
Definition Cache_ok (cache : Cache) : Prop :=
  length (finalState cache) = 25%nat ∧
  Z.of_nat (length (scratchpad cache)) = SCRATCHPAD_WORDS.

(** [new(Cache)]: the zero value. *)
Definition new_Cache : Cache :=
  {| finalState := replicate 25 0;
     scratchpad := replicate (Z.to_nat SCRATCHPAD_WORDS) 0 |}.

(** ** Loops with constant bounds *)

(** [for i := i0; ...; i += step { body }], run for [n] turns. *)
Fixpoint for_loop {St : Type} (n : nat) (i step : Z)
    (body : Z → St → option St) (s : St) : option St :=
  match n with
  | O => Some s
  | S n' => s' ← body i s; for_loop n' (i + step) step body s'
  end.

(** The number of turns of [for i := lo; i < hi; i += step]. *)
Definition turns (lo hi step : Z) : nat :=
  Z.to_nat ((hi - lo + step - 1) / step).

(** ** [Cache.Sum] *)

(** The variables of [Cache.Sum] that live across the turns of the
    memory-hard loop. *)
Record loop_state := {
  a : Z * Z;
  b : Z * Z;
  c : Z * Z;
  product : Z * Z;
  divisionResult : Z;
  sqrtResult : Z;
  words : list Z;  (* cache.scratchpad *)
}.

(** The slice [blocks] of the result calculation refers to memory of the
    cache: first to [cache.finalState[8:24]], then to
    [cache.scratchpad[i : i+16]]. *)
Inductive blocks_ref :=
  | blocks_finalState
  | blocks_scratchpad (i : Z).

(** [blocks[j]], read through the reference. *)
Definition blocks_index (fs sp : list Z) (r : blocks_ref) (j : Z) : option Z :=
  match r with
  | blocks_finalState => if decide (j < 16) then load fs (8 + j) else None
  | blocks_scratchpad i => if decide (j < 16) then load sp (i + j) else None
  end.

(** The bytes of one word, lowest first. *)
Definition word_bytes (w : Z) : list Z :=
  (λ k, Z.land (Z.shiftr w (8 * k)) 0xff) <$> [0; 1; 2; 3; 4; 5; 6; 7].

(** [U64_U8(a, begin, end)[:]]: the bytes of the words [a[begin .. end-1]]. *)
Definition U64_U8 (a : list Z) (begin end_ : nat) : list Z :=
  take (end_ - begin) (drop begin a) ≫= word_bytes.

Section Sum.

Context `{Primitives}.

(** [aes.CnRounds(x[j:], x[j:], rkeys)]: the block of the two words
    [x[j]], [x[j+1]] is replaced by its image. *)
Definition CnRounds_at (x : list Z) (j : Z) (rkeys : list Z)
  : option (list Z) :=
  x0 ← load x j;
  x1 ← load x (j + 1);
  let y := cnRounds (x0, x1) rkeys in
  x ← store x j y.1;
  store x (j + 1) y.2.

(** [copy(dst[i:], src)]: slicing panics when [i] exceeds the length, the
    copy stops at the end of the shorter slice. *)
Definition copy_at (dst : list Z) (i : Z) (src : list Z) : option (list Z) :=
  if decide (Z.to_nat i <= length dst)%nat
  then Some (list_inserts (Z.to_nat i) src dst)
  else None.

(** One turn of the scratchpad initialisation (lines 162-165). *)
Definition init_chunk (rkeys : list Z) (i : Z) (s : list Z * list Z)
  : option (list Z * list Z) :=
  let '(blocks, sp) := s in
  blocks ← for_loop (turns 0 16 2) 0 2
             (λ j blocks, CnRounds_at blocks j rkeys) blocks;
  sp ← copy_at sp i blocks;
  Some (blocks, sp).

(** One turn of the memory-hard loop (lines 179-225). *)
Definition iteration (variant tweak : Z) (s : loop_state)
  : option loop_state :=
  let sp := words s in
  let a := a s in
  let b := b s in
  let divisionResult := divisionResult s in
  let sqrtResult := sqrtResult s in
  let addr := TO_ADDR a in
  src0 ← load sp addr;
  src1 ← load sp (addr + 1);
  let c := cnSingleRound (src0, src1) a in
  sp ← (if decide (variant = 2) then VARIANT2_SHUFFLE sp addr else Some sp);
  sp ← store sp addr (Z.lxor b.1 c.1);
  sp ← store sp (addr + 1) (Z.lxor b.2 c.2);
  let b := c in
  sp ← (if decide (variant = 1) then variant1_tweak sp addr else Some sp);
  let addr := TO_ADDR b in
  c0 ← load sp addr;
  c1 ← load sp (addr + 1);
  '(c1, divisionResult, sqrtResult) ←
    (if decide (variant = 2)
     then variant2_arith b c1 divisionResult sqrtResult
     else Some (c1, divisionResult, sqrtResult));
  let c := (c0, c1) in
  let product := byteMul b.1 c.1 in
  sp ← (if decide (variant = 2) then VARIANT2_SHUFFLE sp addr else Some sp);
  let a := (U64.add a.1 product.1, U64.add a.2 product.2) in
  sp ← store sp addr a.1;
  sp ← store sp (addr + 1) a.2;
  let a := (Z.lxor a.1 c.1, Z.lxor a.2 c.2) in
  sp ← (if decide (variant = 1)
        then w ← load sp (addr + 1); store sp (addr + 1) (Z.lxor w tweak)
        else Some sp);
  Some {| a := a; b := b; c := c; product := product;
          divisionResult := divisionResult; sqrtResult := sqrtResult;
          words := sp |}.

(** The body of the inner loop of the result calculation (lines 235-237). *)
Definition final_block (fs rkeys : list Z) (blocks : blocks_ref) (i j : Z)
    (sp : list Z) : option (list Z) :=
  x ← load sp (i + j);
  y ← blocks_index fs sp blocks j;
  sp ← store sp (i + j) (Z.lxor x y);
  x ← load sp (i + j + 1);
  y ← blocks_index fs sp blocks (j + 1);
  sp ← store sp (i + j + 1) (Z.lxor x y);
  CnRounds_at sp (i + j) rkeys.

(** One turn of the outer loop of the result calculation (lines 234-239);
    [cache.scratchpad[i : i+16]] panics unless [i+16] is within the array. *)
Definition final_chunk (fs rkeys : list Z) (i : Z)
    (s : list Z * blocks_ref) : option (list Z * blocks_ref) :=
  let '(sp, blocks) := s in
  sp ← for_loop (turns 0 16 2) 0 2 (final_block fs rkeys blocks i) sp;
  if decide (i + 16 <= Z.of_nat (length sp))
  then Some (sp, blocks_scratchpad i)
  else None.

(** The finalist selected by [cache.finalState[0] & 0x03]. *)
Definition finalist (sel : Z) : Hash :=
  if decide (sel = 0x00) then blake256_New
  else if decide (sel = 0x01) then groestl_New256
  else if decide (sel = 0x02) then jh_New256
  else skein_New256.

(** [h.Write(p); return h.Sum(nil)] for a fresh [h]. *)
Definition hash_digest (h : Hash) (p : list Z) : list Z :=
  hash_Sum h (hash_Write h (hash_New h) p) [].

(** [var tweak uint64] and its initialisation (lines 141-145). *)
Definition tweak_init (finalState : list Z) (data : slice) (variant : Z)
  : option Z :=
  if decide (variant = 1)
  then d ← reslice data 35 43;
       x ← LittleEndian_Uint64 d;
       Some (Z.lxor (finalState !!! 24%nat) x)
  else Some 0.

(** [func (cache *Cache) Sum(data []byte, variant int) []byte]: the digest
    and the cache as the call leaves it. *)
Definition Cache_Sum (cache : Cache) (data : slice) (variant : Z)
  : option (list Z * Cache) :=
  let finalState := Keccak1600State (elements data) in
  tweak ← tweak_init finalState data variant;
  (* scratchpad init *)
  let key := take 4 finalState in
  let rkeys := cnExpandKey key in
  let blocks :=
    list_inserts 0 (take 16 (drop 8 finalState)) (replicate 16 0) in
  '(blocks, sp) ←
    for_loop (turns 0 SCRATCHPAD_WORDS 16) 0 16 (init_chunk rkeys)
             (blocks, scratchpad cache);
  (* memory-hard loop *)
  let s0 :=
    {| a := (Z.lxor (finalState !!! 0%nat) (finalState !!! 4%nat),
             Z.lxor (finalState !!! 1%nat) (finalState !!! 5%nat));
       b := (Z.lxor (finalState !!! 2%nat) (finalState !!! 6%nat),
             Z.lxor (finalState !!! 3%nat) (finalState !!! 7%nat));
       c := (0, 0); product := (0, 0);
       divisionResult := 0; sqrtResult := 0;
       words := sp |} in
  s ← for_loop (turns 0 524288 1) 0 1 (λ _, iteration variant tweak) s0;
  let sp := words s in
  (* result calculation *)
  let key := take 4 (drop 4 finalState) in
  let rkeys := cnExpandKey key in
  '(sp, blocks) ←
    for_loop (turns 0 SCRATCHPAD_WORDS 16) 0 16 (final_chunk finalState rkeys)
             (sp, blocks_finalState);
  vals ← mapM (blocks_index finalState sp blocks) (Z.of_nat <$> seq 0 16);
  let finalState := list_inserts 8 vals finalState in
  let finalState := Keccak1600Permute finalState in
  let h := finalist (Z.land (finalState !!! 0%nat) 0x03) in
  Some (hash_digest h (U64_U8 finalState 0 25),
        {| finalState := finalState; scratchpad := sp |}).

(** [func Sum(data []byte, variant int) []byte]. *)
Definition Sum (data : slice) (variant : Z) : option (list Z) :=
  fst <$> Cache_Sum new_Cache data variant.

End Sum.

(** * Specification-level definitions

    The notions the statements below are written with. *)

(** What the Go type of the scratchpad fixes: its number of words. *)
Definition sp_ok (sp : list Z) : Prop :=
  Z.of_nat (length sp) = SCRATCHPAD_WORDS.

(** The lane of a word at bit offset [sh], read and replaced. *)
Definition get_lane (w sh : Z) : Z := Z.land (Z.shiftr w sh) 0xffff.

Definition set_lane (w sh v : Z) : Z :=
  Z.lor (Z.ldiff w (Z.shiftl 0xffff sh)) (Z.shiftl v sh).

(** What a sequence of lane assignments leaves in the lane with index [h]
    (lane [k] of the cell at word [p] has index [4p + k]), given what the
    lane held before: the value of the last assignment to it. *)
Fixpoint final16 (pos : chunk → Z) (ws : list (chunk * Z * Z)) (h : Z)
    (before : option Z) : option Z :=
  match ws with
  | [] => before
  | (ch, k, v) :: ws' =>
      final16 pos ws' h
        (if decide (4 * pos ch + k = h) then Some v else before)
  end.

(** Lane [k] of chunk [ch] lies within the scratchpad. *)
Definition lane_ok (sp : list Z) (addr : Z) (ch : chunk) (k : Z) : Prop :=
  0 <= chunk_base addr ch ∧ chunk_base addr ch + 1 < Z.of_nat (length sp) ∧
  0 <= k < 8.

(** The chunks relative to the group of four cells that holds [addr]. *)
Definition chunk_mask (ch : chunk) : Z :=
  match ch with chunk0 => 0x02 | chunk1 => 0x04 | chunk2 => 0x06 end.

Definition chunk_off (r : Z) (ch : chunk) : Z := Z.lxor r (chunk_mask ch).

(** The chunks by byte address: [addr XOR 0x10], [0x20], [0x30]. *)
Definition chunk_byte_mask (ch : chunk) : Z :=
  match ch with chunk0 => 0x10 | chunk1 => 0x20 | chunk2 => 0x30 end.

(** The permutation of the 24 half-words of (chunk0 || chunk1 || chunk2), as
    the comment of the macro gives it: half-word [i] receives half-word
    [shuffle_table[i]]. *)
Definition shuffle_table : list Z :=
  [18; 22; 19; 23; 16; 17; 20; 21; 2; 5; 3; 4; 6; 7; 0; 1;
   9; 13; 8; 12; 10; 11; 14; 15].

(** Half-word [n] of (chunk0 || chunk1 || chunk2) lies in chunk [n / 8]. *)
Definition chunk_of (n : Z) : chunk :=
  if decide (n < 8) then chunk0 else if decide (n < 16) then chunk1 else chunk2.

(** Half-word [n] of the three chunks of [addr]. *)
Definition halfword (sp : list Z) (addr n : Z) : option Z :=
  load16 sp (chunk_base addr (chunk_of n)) (n mod 8).

(** The chunk a chunk is refilled from. *)
Definition drawn_from (ch : chunk) : chunk :=
  match ch with chunk0 => chunk2 | chunk1 => chunk0 | chunk2 => chunk1 end.

(** Two runs of the scratchpad initialisation after [k] turns: the same
    blocks, and scratchpads that agree on the [16k] words written so far. *)
Definition init_rel (k : nat) (s1 s2 : list Z * list Z) : Prop :=
  s1.1 = s2.1 ∧ length s1.1 = 16%nat ∧ sp_ok s1.2 ∧ sp_ok s2.2 ∧
  ∀ j, (j < 16 * k)%nat → s1.2 !! j = s2.2 !! j.

(** The slice [blocks] refers to sixteen words that exist. *)
Definition blocks_ok (r : blocks_ref) : Prop :=
  match r with
  | blocks_finalState => True
  | blocks_scratchpad i => 0 <= i ∧ i + 16 <= SCRATCHPAD_WORDS
  end.

(** A call the interface allows: a well-formed slice, a variant in
    {0, 1, 2}, and at least 43 bytes for variant 1. *)
Definition valid_call (data : slice) (variant : Z) : Prop :=
  slice_ok data ∧ (variant = 0 ∨ variant = 1 ∨ variant = 2) ∧
  (variant = 1 → (43 <= len data)%nat).

(** The scratchpad of [new(Cache)], and the loop state over it with zero
    accumulators. *)
Definition zero_scratchpad : list Z := replicate (Z.to_nat SCRATCHPAD_WORDS) 0.

Definition zero_state : loop_state :=
  {| a := (0, 0); b := (0, 0); c := (0, 0); product := (0, 0);
     divisionResult := 0; sqrtResult := 0; words := zero_scratchpad |}.

(** Stand-ins for the collaborators, to instantiate the statements at
    concrete inputs. *)
Definition stub_hash : Hash :=
  {| hash_state := list Z;
     hash_New := [];
     hash_Write := λ st p, st ++ p;
     hash_Sum := λ st b, b ++ replicate 32 0 |}.

Lemma stub_hash_size : Hash256 stub_hash.
Proof. intros st b. cbn [hash_Sum stub_hash]. by rewrite length_app. Qed.

Definition stub_primitives : Primitives :=
  {| Keccak1600State := λ _, replicate 25 0;
     Keccak1600Permute := λ st, st;
     cnExpandKey := λ _, replicate 40 0;
     cnRounds := λ x _, x;
     cnSingleRound := λ x _, x;
     byteMul := λ x y, (Z.shiftr (x * y) 64, U64.wrap (x * y));
     blake256_New := stub_hash;
     groestl_New256 := stub_hash;
     jh_New256 := stub_hash;
     skein_New256 := stub_hash;
     Keccak1600State_length := λ _, eq_refl;
     Keccak1600Permute_length := λ _ Hst, Hst;
     blake256_size := stub_hash_size;
     groestl_size := stub_hash_size;
     jh_size := stub_hash_size;
     skein_size := stub_hash_size |}.

(** ** The passes over the scratchpad, the reach of a turn, ranges *)

Section Passes.
Context `{Primitives}.

(** One pass of the inner loop of the scratchpad initialisation over
    [blocks]: every block of two words is replaced by its image under
    [cnRounds]. *)
Fixpoint rounds_pass (rkeys : list Z) (blocks : list Z) : list Z :=
  match blocks with
  | x0 :: x1 :: rest =>
      (cnRounds (x0, x1) rkeys).1 :: (cnRounds (x0, x1) rkeys).2
        :: rounds_pass rkeys rest
  | _ => blocks
  end.

(** What the result calculation leaves in the chunk [k] of the scratchpad
    [sp]: the pass of [cnRounds] over the chunk XORed with what it left in
    the chunk before, or with [prev] for the first chunk. *)
Fixpoint final_out (rkeys prev sp : list Z) (k : nat) : list Z :=
  rounds_pass rkeys
    (zip_with Z.lxor (take 16 (drop (16 * k) sp))
       (match k with
        | O => prev
        | S k' => final_out rkeys prev sp k'
        end)).
End Passes.

(** The slice [blocks] does not overlap the sixteen words from [i] on. *)
Definition blocks_before (r : blocks_ref) (i : Z) : Prop :=
  match r with
  | blocks_finalState => True
  | blocks_scratchpad i' => 0 <= i' ∧ i' + 16 <= i
  end.

(** The sixteen words [blocks] refers to. *)
Definition blocks_values (fs sp : list Z) (r : blocks_ref) : list Z :=
  match r with
  | blocks_finalState => take 16 (drop 8 fs)
  | blocks_scratchpad i => take 16 (drop (Z.to_nat i) sp)
  end.

(** The words a turn of the memory-hard loop may write for the cell at
    word index [addr]: in variant 2 the aligned group of eight words (four
    cells, 64 bytes) that holds it, otherwise the two words of the cell. *)
Definition touched (variant addr : Z) (n : nat) : Prop :=
  if decide (variant = 2) then Z.of_nat n / 8 = addr / 8
  else Z.of_nat n = addr ∨ Z.of_nat n = addr + 1.

(** Both words of a 128-bit value are [uint64]s. *)
Definition pair_in_range (p : Z * Z) : Prop :=
  U64.in_range p.1 ∧ U64.in_range p.2.

(** Every variable of the memory-hard loop and every word of the
    scratchpad is a [uint64]. *)
Definition state_in_range (s : loop_state) : Prop :=
  pair_in_range (a s) ∧ pair_in_range (b s) ∧ pair_in_range (c s) ∧
  pair_in_range (product s) ∧
  U64.in_range (divisionResult s) ∧ U64.in_range (sqrtResult s) ∧
  Forall U64.in_range (words s).

(** * Properties *)

Lemma land_addr_mask x : Z.land x 0x1ffff0 = 16 * ((x / 16) mod 131072).
Proof.
  change 0x1ffff0 with (Z.shiftl (Z.ones 17) 4).
  change 131072 with (2 ^ 17). rewrite <- Z.land_ones by lia.
  change 16 with (2 ^ 4). rewrite <- Z.shiftr_div_pow2, Z.mul_comm, <- Z.shiftl_mul_pow2 by lia.
  Z.bitblast.
Qed.

Lemma lxor_low3 x m : 0 <= m < 8 -> Z.lxor x m = 8 * (x / 8) + Z.lxor (x mod 8) m.
Proof.
  intros Hm.
  replace m with (Z.land m (Z.ones 3)) by (rewrite Z.land_ones by lia; apply Z.mod_small; lia).
  change 8 with (2 ^ 3). rewrite <- Z.land_ones, <- Z.shiftr_div_pow2, Z.mul_comm, <- Z.shiftl_mul_pow2 by lia.
  rewrite <- Z.or_to_plus; Z.bitblast.
Qed.

Lemma TO_ADDR_cell v : TO_ADDR v = 2 * ((v.1 / 16) mod 131072).
Proof.
  unfold TO_ADDR. rewrite land_addr_mask, Z.shiftr_div_pow2 by lia.
  generalize ((v.1 / 16) mod 131072). intros y. change (2 ^ 3) with 8. Z.div_mod_to_equations. lia.
Qed.

Lemma TO_ADDR_range v : 0 <= TO_ADDR v <= 262142 ∧ TO_ADDR v mod 2 = 0.
Proof.
  rewrite TO_ADDR_cell.
  pose proof (Z.mod_pos_bound (v.1 / 16) 131072 ltac:(lia)) as Hy.
  revert Hy. generalize ((v.1 / 16) mod 131072). intros y Hy.
  split; [lia|]. Z.div_mod_to_equations. lia.
Qed.

(** *** Word accesses *)

Lemma load_Some sp i : 0 <= i < Z.of_nat (length sp) → is_Some (load sp i).
Proof. intros Hi. apply lookup_lt_is_Some. lia. Qed.

Lemma load_bound sp i w : load sp i = Some w → (Z.to_nat i < length sp)%nat.
Proof. intros Hl. eapply lookup_lt_Some, Hl. Qed.

Lemma store_Some sp i v :
  0 <= i < Z.of_nat (length sp) → store sp i v = Some (<[Z.to_nat i := v]> sp).
Proof. intros Hi. unfold store. rewrite decide_True by lia. done. Qed.

Lemma store_length sp i v sp' : store sp i v = Some sp' → length sp' = length sp.
Proof.
  unfold store. case_decide; [|done]. intros [= <-]. apply length_insert.
Qed.

Lemma load_store sp i v sp' j :
  0 <= i → 0 <= j → store sp i v = Some sp' →
  load sp' j = if decide (i = j) then Some v else load sp j.
Proof.
  unfold store, load. intros Hi Hj. case_decide; [|done]. intros [= <-].
  case_decide as Hij.
  - subst j. by apply list_lookup_insert_eq.
  - apply list_lookup_insert_ne. lia.
Qed.

(** *** Lanes of a word *)

Lemma get_lane_range w sh : 0 <= get_lane w sh < 2 ^ 16.
Proof.
  unfold get_lane. change 0xffff with (Z.ones 16). rewrite Z.land_ones by lia.
  apply Z.mod_pos_bound. lia.
Qed.

Lemma get_set_lane_same w sh v :
  0 <= sh → 0 <= v < 2 ^ 16 → get_lane (set_lane w sh v) sh = v.
Proof.
  intros Hsh Hv. unfold get_lane, set_lane. change 0xffff with (Z.ones 16).
  rewrite <- (Z.mod_small v (2 ^ 16)) at 2 by lia.
  rewrite <- (Z.land_ones v 16) by lia.
  Z.bitblast.
Qed.

Lemma get_set_lane_other w sh sh' v :
  0 <= sh → 0 <= sh' → (sh + 16 <= sh' ∨ sh' + 16 <= sh) →
  0 <= v < 2 ^ 16 →
  get_lane (set_lane w sh v) sh' = get_lane w sh'.
Proof.
  intros Hsh Hsh' Hd Hv. unfold get_lane, set_lane. change 0xffff with (Z.ones 16).
  rewrite <- (Z.mod_small v (2 ^ 16)) by lia.
  rewrite <- (Z.land_ones v 16) by lia.
  Z.bitblast.
Qed.

Ltac zlia := Z.div_mod_to_equations; lia.

(** *** 16-bit lanes of the scratchpad *)

Lemma load16_Some sp p k :
  0 <= p → 0 <= k < 8 → p + 1 < Z.of_nat (length sp) →
  ∃ v, load16 sp p k = Some v ∧ 0 <= v < 2 ^ 16.
Proof.
  intros Hp Hk Hlen. unfold load16.
  destruct (load_Some sp (p + k / 4)) as [w Hw]; [zlia|].
  rewrite Hw. simpl. eexists; split; [done|]. apply get_lane_range.
Qed.

Lemma store16_Some sp p k v :
  0 <= p → 0 <= k < 8 → p + 1 < Z.of_nat (length sp) →
  ∃ sp', store16 sp p k v = Some sp' ∧ length sp' = length sp.
Proof.
  intros Hp Hk Hlen. unfold store16.
  destruct (load_Some sp (p + k / 4)) as [w Hw]; [zlia|].
  rewrite Hw. simpl. rewrite store_Some by zlia.
  eexists; split; [done|]. apply length_insert.
Qed.

Lemma load16_store16 sp p k v sp' p' k' :
  0 <= p → 0 <= k < 8 → 0 <= p' → 0 <= k' < 8 → 0 <= v < 2 ^ 16 →
  store16 sp p k v = Some sp' →
  load16 sp' p' k' =
    if decide (4 * p + k = 4 * p' + k') then Some v else load16 sp p' k'.
Proof.
  intros Hp Hk Hp' Hk' Hv. unfold store16, load16.
  destruct (load sp (p + k / 4)) as [w|] eqn:Hw; [simpl|done].
  intros Hst.
  assert (0 <= p + k / 4) as Hw0 by zlia.
  assert (0 <= p' + k' / 4) as Hw0' by zlia.
  rewrite (load_store _ _ _ _ (p' + k' / 4) Hw0 Hw0' Hst).
  case_decide as Hword.
  - simpl. rewrite <- Hword, Hw. simpl.
    case_decide as Hlane.
    + replace (k' `mod` 4) with (k `mod` 4) by zlia.
      f_equal. apply get_set_lane_same; [zlia|done].
    + f_equal. apply get_set_lane_other; [zlia|zlia| |done]. zlia.
  - rewrite decide_False by zlia. done.
Qed.

Lemma store16_words sp p k v sp' n :
  0 <= p → 0 <= k < 8 → store16 sp p k v = Some sp' →
  n ≠ Z.to_nat p → n ≠ Z.to_nat (p + 1) → sp' !! n = sp !! n.
Proof.
  intros Hp Hk. unfold store16, store.
  destruct (load sp (p + k / 4)) as [w|]; [simpl|done].
  case_decide; [|done]. intros [= <-] Hn0 Hn1.
  apply list_lookup_insert_ne.
  assert (k / 4 = 0 ∨ k / 4 = 1) as [-> | ->] by zlia; [rewrite Z.add_0_r|]; done.
Qed.

Lemma mapM_load16 sp addr (srcs : list (chunk * Z)) :
  Forall (λ s, lane_ok sp addr s.1 s.2) srcs →
  ∃ vals, mapM (λ s, load16 sp (chunk_base addr s.1) s.2) srcs = Some vals ∧
    Forall2 (λ s v, load16 sp (chunk_base addr s.1) s.2 = Some v ∧
                    0 <= v < 2 ^ 16) srcs vals.
Proof.
  induction 1 as [|s srcs (Hp & Hlen & Hk) _ (vals & Hvals & IH)].
  - exists []. split; [done|constructor].
  - destruct (load16_Some sp _ _ Hp Hk Hlen) as (v & Hv & Hrange).
    exists (v :: vals). split; [|by constructor].
    cbn. rewrite Hv. cbn. rewrite Hvals. done.
Qed.

Lemma assign16_spec addr ws : ∀ sp,
  Forall (λ w, lane_ok sp addr w.1.1 w.1.2 ∧ 0 <= w.2 < 2 ^ 16) ws →
  ∃ sp', assign16 sp addr ws = Some sp' ∧ length sp' = length sp ∧
    (∀ p k, 0 <= p → 0 <= k < 8 →
       load16 sp' p k = final16 (chunk_base addr) ws (4 * p + k) (load16 sp p k)) ∧
    (∀ n, Forall (λ w, n ≠ Z.to_nat (chunk_base addr w.1.1) ∧
                       n ≠ Z.to_nat (chunk_base addr w.1.1 + 1)) ws →
          sp' !! n = sp !! n).
Proof.
  induction ws as [|[[ch k] v] ws IH]; intros sp Hok.
  - exists sp. repeat split; done.
  - apply list.Forall_cons_1 in Hok as [[(Hp & Hlen & Hk) Hv] Hok]. simpl in *.
    destruct (store16_Some sp _ k v Hp Hk Hlen) as (sp1 & Hst & Hlen1).
    destruct (IH sp1) as (sp' & Hrun & Hlen' & Hlanes & Hwords).
    { eapply list.Forall_impl; [exact Hok|]. unfold lane_ok. rewrite Hlen1. done. }
    exists sp'. rewrite Hst. simpl. split; [done|]. split; [congruence|]. split.
    + intros p' k' Hp' Hk'. rewrite Hlanes by done.
      by rewrite (load16_store16 _ _ _ _ _ p' k' Hp Hk Hp' Hk' Hv Hst).
    + intros n Hn. apply list.Forall_cons_1 in Hn as [[Hn0 Hn1] Hn].
      rewrite Hwords by done. by eapply store16_words.
Qed.

Lemma final16_shift pos pos' base ws : ∀ h before,
  (∀ ch, pos ch = base + pos' ch) →
  final16 pos ws (4 * base + h) before = final16 pos' ws h before.
Proof.
  induction ws as [|[[ch k] v] ws IH]; intros h before Hpos; [done|].
  simpl. rewrite IH by done. f_equal. rewrite Hpos.
  repeat case_decide; try done; lia.
Qed.

(** *** The three chunks of a shuffle *)

Lemma chunk_base_off addr ch :
  chunk_base addr ch = 8 * (addr / 8) + chunk_off (addr mod 8) ch.
Proof.
  unfold chunk_off. rewrite <- lxor_low3 by (destruct ch; simpl; lia).
  by destruct ch.
Qed.

Lemma even_mod8 addr :
  addr mod 2 = 0 →
  addr mod 8 = 0 ∨ addr mod 8 = 2 ∨ addr mod 8 = 4 ∨ addr mod 8 = 6.
Proof. intros. zlia. Qed.

Lemma chunk_base_range addr ch :
  0 <= addr <= 262142 → addr mod 2 = 0 →
  0 <= chunk_base addr ch <= 262142 ∧ chunk_base addr ch mod 2 = 0.
Proof.
  intros Haddr Heven. rewrite chunk_base_off.
  destruct (even_mod8 addr Heven) as [-> | [-> | [-> | ->]]];
    destruct ch; vm_compute chunk_off; zlia.
Qed.

Lemma lane_ok_intro sp addr ch k :
  0 <= addr <= 262142 → addr mod 2 = 0 →
  Z.of_nat (length sp) = SCRATCHPAD_WORDS → 0 <= k < 8 →
  lane_ok sp addr ch k.
Proof.
  intros Haddr Heven Hlen Hk. unfold lane_ok. rewrite Hlen.
  destruct (chunk_base_range addr ch Haddr Heven) as [Hr _].
  change SCRATCHPAD_WORDS with 262144. lia.
Qed.

Ltac Forall_each tac :=
  repeat (apply List.Forall_cons; [tac|]); apply List.Forall_nil.

Lemma VARIANT2_SHUFFLE_spec sp addr :
  0 <= addr <= 262142 → addr mod 2 = 0 →
  Z.of_nat (length sp) = SCRATCHPAD_WORDS →
  ∃ sp', VARIANT2_SHUFFLE sp addr = Some sp' ∧ length sp' = length sp ∧
    Forall2 (λ d s, load16 sp' (chunk_base addr d.1) d.2 =
                    load16 sp (chunk_base addr s.1) s.2)
            shuffle_dst shuffle_src ∧
    (∀ n, (∀ ch, n ≠ Z.to_nat (chunk_base addr ch) ∧
                 n ≠ Z.to_nat (chunk_base addr ch + 1)) →
          sp' !! n = sp !! n).
Proof.
  intros Haddr Heven Hlen.
  assert (∀ ch k, 0 <= k < 8 → lane_ok sp addr ch k) as Hok
    by (intros; by apply lane_ok_intro).
  destruct (mapM_load16 sp addr shuffle_src) as (vals & Hvals & Hsrc).
  { unfold shuffle_src. Forall_each ltac:(apply Hok; simpl; lia). }
  unfold VARIANT2_SHUFFLE. rewrite Hvals. clear Hvals.
  unfold shuffle_src in Hsrc.
  repeat match type of Hsrc with
         | Forall2 _ (_ :: _) _ =>
             let v := fresh "v" in let Hv := fresh "Hv" in
             let Hr := fresh "Hr" in
             apply Forall2_cons_inv_l in Hsrc as (v & ? & [Hv Hr] & Hsrc & ->)
         end.
  apply Forall2_nil_inv_l in Hsrc as ->. cbn [fst snd] in * |-.
  set (ws := zip shuffle_dst
             [v; v0; v1; v2; v3; v4; v5; v6; v7; v8; v9; v10; v11; v12; v13;
              v14; v15; v16; v17; v18; v19; v20; v21; v22]).
  destruct (assign16_spec addr ws sp) as (sp' & Hrun & Hlen' & Hlanes & Hwords).
  { Forall_each ltac:(split; [apply Hok|]; simpl; lia). }
  exists sp'. split; [exact Hrun|].
  split; [done|]. split.
  - assert (∀ ch k, 0 <= k < 8 →
        load16 sp' (chunk_base addr ch) k =
        final16 (chunk_off (addr mod 8)) ws
          (4 * chunk_off (addr mod 8) ch + k)
          (load16 sp (chunk_base addr ch) k)) as Hfinal.
    { intros ch k Hk. destruct (Hok ch k Hk) as (Hp & _ & _).
      rewrite Hlanes by lia.
      rewrite <- (final16_shift (chunk_base addr) (chunk_off (addr mod 8))
                    (8 * (addr / 8)) ws) by apply chunk_base_off.
      f_equal. rewrite chunk_base_off. lia. }
    unfold shuffle_dst, shuffle_src.
    destruct (even_mod8 addr Heven) as [Hm | [Hm | [Hm | Hm]]];
      rewrite Hm in Hfinal; clear Hlanes Hwords Hrun;
      repeat (constructor; cbn [fst snd];
              [rewrite Hfinal by lia;
               match goal with |- _ = ?rhs =>
                 match goal with H : rhs = Some _ |- _ => rewrite H end
               end;
               match goal with |- final16 _ _ _ ?o = _ => generalize o end;
               intros ?; reflexivity|]);
      constructor.
  - intros n Hn. apply Hwords. subst ws. unfold shuffle_dst. cbn [zip_with].
    Forall_each ltac:(cbn [fst snd]; apply Hn).
Qed.

(** *** The variant 2 divisor *)

Lemma divisor_of_eq b0 :
  divisor_of b0 = 0x80000001 + 2 * ((b0 / 2) mod 2 ^ 30).
Proof.
  unfold divisor_of.
  replace (b0 / 2) with (Z.shiftr b0 1)
    by (rewrite Z.shiftr_div_pow2 by lia; reflexivity).
  rewrite <- Z.land_ones by lia.
  replace (2 * Z.land (Z.shiftr b0 1) (Z.ones 30))
    with (Z.shiftl (Z.land (Z.shiftr b0 1) (Z.ones 30)) 1)
    by (rewrite Z.shiftl_mul_pow2 by lia; lia).
  change 0xffffffff with (Z.ones 32).
  change 0x80000001 with (Z.lor (Z.shiftl (Z.ones 1) 31) (Z.ones 1)).
  rewrite <- Z.or_to_plus; Z.bitblast.
Qed.

Lemma divisor_of_range b0 : 0x80000001 <= divisor_of b0 < 2 ^ 32.
Proof.
  rewrite divisor_of_eq.
  pose proof (Z.mod_pos_bound (b0 / 2) (2 ^ 30) ltac:(lia)). lia.
Qed.

Lemma wrap_land x : U64.wrap x = Z.land x (Z.ones 64).
Proof. unfold U64.wrap, U64.modulus. by rewrite Z.land_ones by lia. Qed.

Lemma wrap_small x : 0 <= x < 2 ^ 64 → U64.wrap x = x.
Proof. intros. apply Z.mod_small. done. Qed.

Lemma variant2_arith_spec b c1 dr sr :
  let d := divisor_of b.1 in
  let dr' := (b.2 / d) mod 2 ^ 32 + (b.2 mod d) * 2 ^ 32 in
  variant2_arith b c1 dr sr =
    Some (Z.lxor c1 (Z.lxor dr sr), dr',
          uint64_of_float64
            (math_Sqrt (float64_of_uint64 (((b.1 + dr') mod 2 ^ 64) / 2 ^ 16)))).
Proof.
  intros d dr'. unfold variant2_arith, U64.div, U64.rem. fold d.
  pose proof (divisor_of_range b.1) as Hd. fold d in Hd.
  rewrite !decide_False by lia. simpl.
  assert (Z.lor (Z.land (b.2 / d) 0xffffffff) (U64.shl (b.2 mod d) 32) = dr')
    as ->.
  { unfold dr', U64.shl.
    pose proof (Z.mod_pos_bound b.2 d ltac:(lia)) as Hr.
    rewrite Z.shiftl_mul_pow2 by lia. rewrite wrap_small by lia.
    rewrite <- Z.shiftl_mul_pow2 by lia.
    change 0xffffffff with (Z.ones 32). rewrite <- Z.land_ones by lia.
    apply Z.or_to_plus. Z.bitblast.
    rewrite (Z.testbit_neg_r (b.2 mod d)) by lia. apply andb_false_r. }
  unfold U64.add, U64.wrap, U64.modulus.
  by rewrite Z.shiftr_div_pow2 by lia.
Qed.

(** *** The variant 1 tweak *)

Lemma land_not_1 t : Z.land (U64.not t) 1 = Z.land (Z.lnot t) 1.
Proof.
  unfold U64.not. rewrite wrap_land. change 1 with (Z.ones 1). Z.bitblast.
Qed.

Lemma land_1_cases x : Z.land x 1 = 0 ∨ Z.land x 1 = 1.
Proof.
  change 1 with (Z.ones 1) at 1 2. rewrite Z.land_ones by lia.
  change (2 ^ 1) with 2. zlia.
Qed.

Lemma land_16 t : Z.land 16 t = 16 * ((t / 16) mod 2).
Proof.
  change 16 with (2 ^ 4) at 2 3. change 2 with (2 ^ 1) at 3.
  rewrite <- Z.shiftr_div_pow2, <- Z.land_ones, Z.mul_comm,
    <- Z.shiftl_mul_pow2 by lia.
  change 16 with (Z.shiftl (Z.ones 1) 4). Z.bitblast.
Qed.

Lemma tweak1_index_eq t :
  tweak1_index t =
    Z.lor (Z.lor (Z.shiftl (Z.land (Z.lnot t) 1) 4)
                 (Z.shiftl (Z.land (Z.shiftl (Z.land (Z.lnot t) 1) 4) t) 1))
          (Z.shiftr (Z.land t 32) 1).
Proof.
  unfold tweak1_index. rewrite land_not_1.
  destruct (land_1_cases (Z.lnot t)) as [-> | ->]; [done|].
  change (U64.shl 1 4) with 16. change (Z.shiftl 1 4) with 16.
  unfold U64.shl. rewrite Z.shiftl_mul_pow2, land_16 by lia.
  rewrite wrap_small; [done|]. zlia.
Qed.

Lemma land_32 t : Z.land t 32 = 32 * ((t / 32) mod 2).
Proof.
  change 32 with (2 ^ 5) at 2 3. change 2 with (2 ^ 1) at 3.
  rewrite <- Z.shiftr_div_pow2, <- Z.land_ones, Z.mul_comm,
    <- Z.shiftl_mul_pow2 by lia.
  change 32 with (Z.shiftl (Z.ones 1) 5). Z.bitblast.
Qed.

(** The index in plain arithmetic: bit 0 of [t] clear gives
    [16 + 32 * bit4 + 16 * bit5] with [16 | 16 = 16], bit 0 set gives
    [16 * bit5]. *)
Lemma tweak1_index_bits t :
  tweak1_index t =
    if decide (t mod 2 = 0)
    then Z.lor (16 + 32 * ((t / 16) mod 2)) (16 * ((t / 32) mod 2))
    else 16 * ((t / 32) mod 2).
Proof.
  rewrite tweak1_index_eq, land_32.
  replace (Z.shiftr (32 * ((t / 32) mod 2)) 1) with (16 * ((t / 32) mod 2))
    by (rewrite Z.shiftr_div_pow2 by lia; change (2 ^ 1) with 2; zlia).
  assert (Z.land (Z.lnot t) 1 = if decide (t mod 2 = 0) then 1 else 0) as ->.
  { change 1 with (Z.ones 1) at 1. rewrite Z.land_ones by lia.
    change (2 ^ 1) with 2. unfold Z.lnot. case_decide; zlia. }
  case_decide; [|done].
  change (Z.shiftl 1 4) with 16. rewrite land_16, Z.shiftl_mul_pow2 by lia.
  f_equal. assert ((t / 16) mod 2 = 0 ∨ (t / 16) mod 2 = 1) as [-> | ->] by zlia; done.
Qed.

Lemma tweak1_index_range t : 0 <= tweak1_index t < 64.
Proof.
  rewrite tweak1_index_bits.
  assert ((t / 16) mod 2 = 0 ∨ (t / 16) mod 2 = 1) as [-> | ->] by zlia;
  assert ((t / 32) mod 2 = 0 ∨ (t / 32) mod 2 = 1) as [-> | ->] by zlia;
  case_decide; vm_compute; done.
Qed.

Lemma variant1_tweak_spec sp addr w :
  0 <= addr → load sp (addr + 1) = Some w →
  variant1_tweak sp addr =
    Some (<[Z.to_nat (addr + 1) :=
              Z.lxor w (tweak1_index (Z.shiftr w 24) * 2 ^ 24)]> sp).
Proof.
  intros Haddr Hw. unfold variant1_tweak. rewrite Hw. simpl.
  rewrite store_Some by (apply load_bound in Hw; lia).
  unfold U64.shl. rewrite Z.shiftl_mul_pow2 by lia.
  pose proof (tweak1_index_range (Z.shiftr w 24)).
  by rewrite wrap_small by lia.
Qed.

(** *** One turn of the memory-hard loop *)

Lemma load_addr sp v :
  sp_ok sp → ∃ w0 w1, load sp (TO_ADDR v) = Some w0 ∧
                      load sp (TO_ADDR v + 1) = Some w1.
Proof.
  intros Hlen. destruct (TO_ADDR_range v) as [Hr _].
  destruct (load_Some sp (TO_ADDR v)) as [w0 Hw0];
    [rewrite Hlen; change SCRATCHPAD_WORDS with 262144; lia|].
  destruct (load_Some sp (TO_ADDR v + 1)) as [w1 Hw1];
    [rewrite Hlen; change SCRATCHPAD_WORDS with 262144; lia|].
  eauto.
Qed.

Lemma store_addr sp v x y :
  sp_ok sp →
  ∃ sp', (sp1 ← store sp (TO_ADDR v) x; store sp1 (TO_ADDR v + 1) y) = Some sp' ∧
         sp_ok sp' ∧
         sp' = <[Z.to_nat (TO_ADDR v + 1) := y]> (<[Z.to_nat (TO_ADDR v) := x]> sp).
Proof.
  intros Hlen. destruct (TO_ADDR_range v) as [Hr _]. unfold sp_ok in *.
  rewrite store_Some by (rewrite Hlen; change SCRATCHPAD_WORDS with 262144; lia).
  simpl. rewrite store_Some
    by (rewrite length_insert, Hlen; change SCRATCHPAD_WORDS with 262144; lia).
  eexists. split; [done|]. split; [|done]. by rewrite !length_insert.
Qed.

Lemma shuffle_addr sp v :
  sp_ok sp → ∃ sp', VARIANT2_SHUFFLE sp (TO_ADDR v) = Some sp' ∧ sp_ok sp'.
Proof.
  intros Hlen. destruct (TO_ADDR_range v) as [Hr Heven].
  destruct (VARIANT2_SHUFFLE_spec sp (TO_ADDR v) Hr Heven Hlen)
    as (sp' & Hrun & Hlen' & _).
  exists sp'. split; [done|]. unfold sp_ok. by rewrite Hlen'.
Qed.

Lemma variant1_tweak_addr sp v :
  sp_ok sp → ∃ sp', variant1_tweak sp (TO_ADDR v) = Some sp' ∧ sp_ok sp'.
Proof.
  intros Hlen. destruct (load_addr sp v Hlen) as (w0 & w1 & _ & Hw1).
  destruct (TO_ADDR_range v) as [Hr _].
  rewrite (variant1_tweak_spec sp (TO_ADDR v) w1); [|lia|done].
  eexists. split; [done|]. unfold sp_ok. by rewrite length_insert.
Qed.

Lemma tweak_on_a_addr sp v tweak :
  sp_ok sp →
  ∃ sp', (w ← load sp (TO_ADDR v + 1);
          store sp (TO_ADDR v + 1) (Z.lxor w tweak)) = Some sp' ∧ sp_ok sp'.
Proof.
  intros Hlen. destruct (load_addr sp v Hlen) as (w0 & w1 & _ & Hw1).
  destruct (TO_ADDR_range v) as [Hr _].
  rewrite Hw1. simpl.
  rewrite store_Some by (apply load_bound in Hw1; lia).
  eexists. split; [done|]. unfold sp_ok. by rewrite length_insert.
Qed.

Lemma sp_ok_insert sp n x : sp_ok sp → sp_ok (<[n := x]> sp).
Proof. unfold sp_ok. by rewrite length_insert. Qed.

Lemma store_ok sp v x :
  sp_ok sp →
  store sp (TO_ADDR v) x = Some (<[Z.to_nat (TO_ADDR v) := x]> sp) ∧
  store sp (TO_ADDR v + 1) x = Some (<[Z.to_nat (TO_ADDR v + 1) := x]> sp).
Proof.
  intros Hlen. destruct (TO_ADDR_range v) as [Hr _]. unfold sp_ok in *.
  split; apply store_Some; rewrite Hlen;
    change SCRATCHPAD_WORDS with 262144; lia.
Qed.

Lemma cond_shuffle (variant : Z) sp v :
  sp_ok sp →
  ∃ sp', (if decide (variant = 2) then VARIANT2_SHUFFLE sp (TO_ADDR v)
          else Some sp) = Some sp' ∧ sp_ok sp'.
Proof. intros. case_decide; [by apply shuffle_addr|eauto]. Qed.

Lemma cond_tweak1 (variant : Z) sp v :
  sp_ok sp →
  ∃ sp', (if decide (variant = 1) then variant1_tweak sp (TO_ADDR v)
          else Some sp) = Some sp' ∧ sp_ok sp'.
Proof. intros. case_decide; [by apply variant1_tweak_addr|eauto]. Qed.

Lemma cond_tweak_a (variant : Z) sp v tweak :
  sp_ok sp →
  ∃ sp', (if decide (variant = 1)
          then w ← load sp (TO_ADDR v + 1);
               store sp (TO_ADDR v + 1) (Z.lxor w tweak)
          else Some sp) = Some sp' ∧ sp_ok sp'.
Proof. intros. case_decide; [by apply tweak_on_a_addr|eauto]. Qed.

Lemma cond_arith (variant : Z) b c1 dr sr :
  ∃ r, (if decide (variant = 2) then variant2_arith b c1 dr sr
        else Some (c1, dr, sr)) = Some r ∧
       if decide (variant = 2) then variant2_arith b c1 dr sr = Some r
       else r = (c1, dr, sr).
Proof.
  case_decide; [|eauto]. rewrite variant2_arith_spec. eauto.
Qed.

Section Loop.
Context `{Primitives}.

Lemma iteration_Some variant tweak s :
  sp_ok (words s) →
  ∃ s', iteration variant tweak s = Some s' ∧ sp_ok (words s') ∧
    (∃ w0 w1, load (words s) (TO_ADDR (a s)) = Some w0 ∧
              load (words s) (TO_ADDR (a s) + 1) = Some w1 ∧
              b s' = cnSingleRound (w0, w1) (a s)) ∧
    (if decide (variant = 2)
     then ∃ c1, variant2_arith (b s') c1 (divisionResult s) (sqrtResult s)
                = Some ((c s').2, divisionResult s', sqrtResult s')
     else divisionResult s' = divisionResult s ∧
          sqrtResult s' = sqrtResult s).
Proof.
  intros Hlen. unfold iteration. cbv zeta.
  destruct (load_addr _ (a s) Hlen) as (w0 & w1 & Hw0 & Hw1).
  rewrite Hw0, Hw1. cbn [mbind option_bind].
  set (c' := cnSingleRound (w0, w1) (a s)).
  destruct (cond_shuffle variant (words s) (a s) Hlen) as (sp1 & -> & Hlen1).
  cbn [mbind option_bind].
  rewrite (proj1 (store_ok sp1 (a s) _ Hlen1)). cbn [mbind option_bind].
  rewrite (proj2 (store_ok _ (a s) _ (sp_ok_insert _ _ _ Hlen1))).
  cbn [mbind option_bind].
  match goal with |- context [variant1_tweak ?sp _] =>
    destruct (cond_tweak1 variant sp (a s)) as (sp3 & -> & Hlen3);
      [by repeat apply sp_ok_insert|]
  end.
  cbn [mbind option_bind].
  destruct (load_addr _ c' Hlen3) as (c0 & c1 & -> & ->).
  cbn [mbind option_bind].
  destruct (cond_arith variant c' c1 (divisionResult s) (sqrtResult s))
    as ([[c1' dr'] sr'] & -> & Harith).
  cbn [mbind option_bind].
  destruct (cond_shuffle variant sp3 c' Hlen3) as (sp4 & -> & Hlen4).
  cbn [mbind option_bind].
  rewrite (proj1 (store_ok sp4 c' _ Hlen4)). cbn [mbind option_bind].
  rewrite (proj2 (store_ok _ c' _ (sp_ok_insert _ _ _ Hlen4))).
  cbn [mbind option_bind].
  match goal with |- context [if decide (variant = 1) then _ ≫= _ else Some ?sp] =>
    destruct (cond_tweak_a variant sp c' tweak) as (sp6 & -> & Hlen6);
      [by repeat apply sp_ok_insert|]
  end.
  cbn [mbind option_bind].
  eexists. split; [done|]. cbn. split; [done|]. split; [eauto|].
  case_decide; [|by inversion Harith]. eauto.
Qed.
End Loop.

(** *** Loops *)

Lemma for_loop_total {St} (P : nat → St → Prop) body n : ∀ i0 step (s : St),
  P 0%nat s →
  (∀ k s, (k < n)%nat → P k s →
     ∃ s', body (i0 + Z.of_nat k * step) s = Some s' ∧ P (S k) s') →
  ∃ s', for_loop n i0 step body s = Some s' ∧ P n s'.
Proof.
  revert P. induction n as [|n IH]; intros P i0 step s Hs Hbody; [by eauto|].
  destruct (Hbody 0%nat s ltac:(lia) Hs) as (s1 & Hs1 & HP1).
  rewrite Z.mul_0_l, Z.add_0_r in Hs1. cbn [for_loop]. rewrite Hs1.
  cbn [mbind option_bind].
  apply (IH (λ k, P (S k))); [done|].
  intros k s2 Hk HP2. destruct (Hbody (S k) s2 ltac:(lia) HP2) as (s3 & Hs3 & HP3).
  exists s3. split; [|done]. rewrite <- Hs3. f_equal. lia.
Qed.

Lemma for_loop_ext {St} (body body' : Z → St → option St) n : ∀ i0 step s,
  (∀ i s, body i s = body' i s) →
  for_loop n i0 step body s = for_loop n i0 step body' s.
Proof.
  induction n as [|n IH]; intros i0 step s Hext; [done|].
  cbn [for_loop]. rewrite Hext. destruct (body' i0 s); [|done].
  cbn [mbind option_bind]. by apply IH.
Qed.

Lemma for_loop_rel {St} (R : nat → St → St → Prop) body n : ∀ i0 step s1 s2,
  R 0%nat s1 s2 →
  (∀ k s1 s2, (k < n)%nat → R k s1 s2 →
     option_Forall2 (R (S k)) (body (i0 + Z.of_nat k * step) s1)
                              (body (i0 + Z.of_nat k * step) s2)) →
  option_Forall2 (R n) (for_loop n i0 step body s1) (for_loop n i0 step body s2).
Proof.
  revert R. induction n as [|n IH]; intros R i0 step s1 s2 Hs Hbody.
  { by constructor. }
  pose proof (Hbody 0%nat s1 s2 ltac:(lia) Hs) as Hstep.
  rewrite Z.mul_0_l, Z.add_0_r in Hstep. cbn [for_loop].
  destruct Hstep as [t1 t2 Ht|]; [|constructor].
  cbn [mbind option_bind].
  apply (IH (λ k, R (S k))); [done|].
  intros k u1 u2 Hk Hu. pose proof (Hbody (S k) u1 u2 ltac:(lia) Hu) as Hstep.
  replace (i0 + step + Z.of_nat k * step) with (i0 + Z.of_nat (S k) * step) by lia.
  done.
Qed.

Lemma turns_inner : turns 0 16 2 = 8%nat.
Proof. reflexivity. Qed.

Lemma turns_outer : Z.of_nat (turns 0 SCRATCHPAD_WORDS 16) = 16384.
Proof. unfold turns. rewrite Z2Nat.id by (vm_compute; discriminate). reflexivity. Qed.

Section Phases.
Context `{Primitives}.

Lemma CnRounds_at_Some x j rkeys :
  0 <= j → j + 1 < Z.of_nat (length x) →
  ∃ x', CnRounds_at x j rkeys = Some x' ∧ length x' = length x.
Proof.
  intros Hj Hlen. unfold CnRounds_at.
  destruct (load_Some x j) as [x0 ->]; [lia|].
  destruct (load_Some x (j + 1)) as [x1 ->]; [lia|].
  cbn [mbind option_bind].
  rewrite store_Some by lia. cbn [mbind option_bind].
  rewrite store_Some by (rewrite length_insert; lia).
  eexists. split; [done|]. by rewrite !length_insert.
Qed.

(** The eight blocks of one turn. *)
Lemma rounds_loop_Some x i rkeys :
  0 <= i → i + 16 <= Z.of_nat (length x) →
  ∃ x', for_loop (turns 0 16 2) 0 2
          (λ j x, CnRounds_at x (i + j) rkeys) x = Some x' ∧
        length x' = length x.
Proof.
  intros Hi Hlen. rewrite turns_inner.
  apply (for_loop_total (λ _ x', length x' = length x)); [done|].
  intros k x1 Hk Hx1.
  destruct (CnRounds_at_Some x1 (i + (0 + Z.of_nat k * 2)) rkeys)
    as (x2 & Hx2 & Hl2); [lia|lia|].
  exists x2. split; [done|]. congruence.
Qed.

Lemma init_chunk_Some rkeys i blocks sp :
  length blocks = 16%nat → 0 <= i → i + 16 <= Z.of_nat (length sp) →
  ∃ blocks', init_chunk rkeys i (blocks, sp) =
               Some (blocks', list_inserts (Z.to_nat i) blocks' sp) ∧
             length blocks' = 16%nat ∧
             (∀ sp', init_chunk rkeys i (blocks, sp') =
                if decide (Z.to_nat i <= length sp')%nat
                then Some (blocks', list_inserts (Z.to_nat i) blocks' sp')
                else None).
Proof.
  intros Hbl Hi Hlen. unfold init_chunk.
  destruct (rounds_loop_Some blocks 0 rkeys) as (blocks' & Hrun & Hlen');
    [lia|lia|].
  change (for_loop (turns 0 16 2) 0 2
            (λ j x, CnRounds_at x j rkeys) blocks = Some blocks') in Hrun.
  rewrite Hrun. cbn [mbind option_bind].
  exists blocks'. unfold copy_at. rewrite decide_True by lia.
  split; [done|]. split; [congruence|].
  intros sp'. by case_decide.
Qed.
End Phases.


Lemma sp_ok_words sp : sp_ok sp → Z.of_nat (length sp) = 262144.
Proof. done. Qed.

Section Phases2.
Context `{Primitives}.

Lemma init_chunk_rel rkeys k s1 s2 :
  (Z.of_nat k < 16384) → init_rel k s1 s2 →
  option_Forall2 (init_rel (S k))
    (init_chunk rkeys (0 + Z.of_nat k * 16) s1)
    (init_chunk rkeys (0 + Z.of_nat k * 16) s2).
Proof.
  intros Hk. destruct s1 as [bl sp1], s2 as [bl2 sp2].
  intros (Hbl & Hlen & Hsp1 & Hsp2 & Heq). cbn [fst snd] in *. subst bl2.
  apply sp_ok_words in Hsp1 as Hl1. apply sp_ok_words in Hsp2 as Hl2.
  destruct (init_chunk_Some rkeys (0 + Z.of_nat k * 16) bl sp1)
    as (bl' & Hrun & Hlen' & Hother); [done|lia|lia|].
  rewrite Hrun, (Hother sp2), decide_True by lia.
  constructor. split; [done|]. split; [done|]. simpl.
  split; [unfold sp_ok; by rewrite length_inserts|].
  split; [unfold sp_ok; by rewrite length_inserts|].
  intros j Hj.
  replace (Z.to_nat (0 + Z.of_nat k * 16)) with (16 * k)%nat by lia.
  destruct (decide (j < 16 * k)%nat) as [Hlt|Hge].
  - rewrite !list_lookup_inserts_lt by done. by apply Heq.
  - rewrite !list_lookup_inserts by lia. done.
Qed.

Lemma init_loop_Some n rkeys blocks sp :
  Z.of_nat n = 16384 → length blocks = 16%nat → sp_ok sp →
  ∃ r, for_loop n 0 16 (init_chunk rkeys)
         (blocks, sp) = Some r ∧ length r.1 = 16%nat ∧ sp_ok r.2.
Proof.
  intros Hn Hbl Hsp.
  apply (for_loop_total (λ _ s, length s.1 = 16%nat ∧ sp_ok s.2)); [done|].
  intros k [bl sp1] Hk [Hlen Hsp1]. cbn [fst snd] in *.
  apply sp_ok_words in Hsp1 as Hl1.
  destruct (init_chunk_Some rkeys (0 + Z.of_nat k * 16) bl sp1)
    as (bl' & Hrun & Hlen' & _); [done|lia|lia|].
  eexists. split; [done|]. split; [done|]. simpl.
  unfold sp_ok. by rewrite length_inserts.
Qed.

Lemma init_loop_independent n rkeys blocks sp1 sp2 :
  Z.of_nat n = 16384 → length blocks = 16%nat → sp_ok sp1 → sp_ok sp2 →
  for_loop n 0 16 (init_chunk rkeys) (blocks, sp1)
  = for_loop n 0 16 (init_chunk rkeys) (blocks, sp2).
Proof.
  intros Hn Hbl Hsp1 Hsp2.
  pose proof (for_loop_rel init_rel (init_chunk rkeys)
                n 0 16 (blocks, sp1) (blocks, sp2))
    as Hrel.
  destruct Hrel as [[bl1 r1] [bl2 r2] (Hbl' & _ & Hr1 & Hr2 & Heq)|].
  - repeat split; try done. intros j Hj. lia.
  - intros k s1 s2 Hk. apply init_chunk_rel. lia.
  - cbn [fst snd] in *. subst bl2. do 2 f_equal.
    apply sp_ok_words in Hr1, Hr2.
    apply list_eq. intros j. destruct (decide (j < 16 * n)%nat).
    + by apply Heq.
    + rewrite !lookup_ge_None_2 by lia. done.
  - done.
Qed.

Lemma memory_loop_Some n variant tweak s :
  sp_ok (words s) →
  ∃ s', for_loop n 0 1 (λ _, iteration variant tweak) s
          = Some s' ∧ sp_ok (words s').
Proof.
  intros Hs. apply (for_loop_total (λ _ s, sp_ok (words s))); [done|].
  intros k s1 _ Hs1.
  destruct (iteration_Some variant tweak s1 Hs1) as (s2 & Hrun & Hs2 & _).
  eauto.
Qed.
End Phases2.


Lemma blocks_index_Some fs sp r j :
  length fs = 25%nat → sp_ok sp → blocks_ok r → 0 <= j < 16 →
  is_Some (blocks_index fs sp r j).
Proof.
  intros Hfs Hsp Hr Hj. apply sp_ok_words in Hsp.
  destruct r as [|i]; simpl; rewrite decide_True by lia; apply load_Some.
  - lia.
  - destruct Hr. change SCRATCHPAD_WORDS with 262144 in *. lia.
Qed.

Section Phases3.
Context `{Primitives}.

Lemma final_block_Some fs rkeys r i j sp :
  length fs = 25%nat → sp_ok sp → blocks_ok r →
  0 <= i → i + 16 <= SCRATCHPAD_WORDS → 0 <= j <= 14 →
  ∃ sp', final_block fs rkeys r i j sp = Some sp' ∧ sp_ok sp'.
Proof.
  intros Hfs Hsp Hr Hi Hi' Hj. unfold final_block.
  change SCRATCHPAD_WORDS with 262144 in Hi'.
  apply sp_ok_words in Hsp as Hl.
  destruct (load_Some sp (i + j)) as [x ->]; [lia|].
  cbn [mbind option_bind].
  destruct (blocks_index_Some fs sp r j) as [y ->]; [done|done|done|lia|].
  cbn [mbind option_bind].
  rewrite store_Some by lia. cbn [mbind option_bind].
  set (sp1 := <[Z.to_nat (i + j) := Z.lxor x y]> sp).
  assert (sp_ok sp1) as Hsp1 by by apply sp_ok_insert.
  apply sp_ok_words in Hsp1 as Hl1.
  destruct (load_Some sp1 (i + j + 1)) as [x' ->]; [lia|].
  cbn [mbind option_bind].
  destruct (blocks_index_Some fs sp1 r (j + 1)) as [y' ->];
    [done|done|done|lia|].
  cbn [mbind option_bind].
  rewrite store_Some by lia. cbn [mbind option_bind].
  set (sp2 := <[Z.to_nat (i + j + 1) := Z.lxor x' y']> sp1).
  assert (sp_ok sp2) as Hsp2 by by apply sp_ok_insert.
  apply sp_ok_words in Hsp2 as Hl2.
  destruct (CnRounds_at_Some sp2 (i + j) rkeys) as (sp3 & -> & Hl3);
    [lia|lia|].
  exists sp3. split; [done|]. unfold sp_ok. by rewrite Hl3.
Qed.

Lemma final_chunk_Some fs rkeys r i sp :
  length fs = 25%nat → sp_ok sp → blocks_ok r →
  0 <= i → i + 16 <= SCRATCHPAD_WORDS →
  ∃ sp', final_chunk fs rkeys i (sp, r) = Some (sp', blocks_scratchpad i) ∧
         sp_ok sp'.
Proof.
  intros Hfs Hsp Hr Hi Hi'. unfold final_chunk. rewrite turns_inner.
  destruct (for_loop_total (λ _ sp', sp_ok sp')
              (final_block fs rkeys r i) 8 0 2 sp Hsp)
    as (sp' & -> & Hsp').
  { intros k sp1 Hk Hsp1. apply final_block_Some; try done. lia. }
  cbn [mbind option_bind]. apply sp_ok_words in Hsp' as Hl.
  change SCRATCHPAD_WORDS with 262144 in Hi'.
  rewrite decide_True by lia. eauto.
Qed.

Lemma final_loop_Some n fs rkeys sp :
  Z.of_nat n = 16384 → length fs = 25%nat → sp_ok sp →
  ∃ r, for_loop n 0 16 (final_chunk fs rkeys)
         (sp, blocks_finalState) = Some r ∧ sp_ok r.1 ∧ blocks_ok r.2.
Proof.
  intros Hn Hfs Hsp.
  apply (for_loop_total (λ _ r, sp_ok r.1 ∧ blocks_ok r.2)); [done|].
  intros k [sp1 r] Hk [Hsp1 Hr]. cbn [fst snd] in *.
  destruct (final_chunk_Some fs rkeys r (0 + Z.of_nat k * 16) sp1 Hfs Hsp1 Hr)
    as (sp2 & -> & Hsp2).
  { lia. } { change SCRATCHPAD_WORDS with 262144. lia. }
  eexists. split; [done|]. split; [done|]. simpl.
  change SCRATCHPAD_WORDS with 262144. lia.
Qed.

Lemma blocks_read_Some fs sp r :
  length fs = 25%nat → sp_ok sp → blocks_ok r →
  ∃ vals, mapM (blocks_index fs sp r) (Z.of_nat <$> seq 0 16) = Some vals ∧
          length vals = 16%nat.
Proof.
  intros Hfs Hsp Hr.
  destruct (mapM (blocks_index fs sp r) (Z.of_nat <$> seq 0 16))
    as [vals|] eqn:Hvals.
  - exists vals. split; [done|]. apply length_mapM in Hvals.
    by rewrite <- Hvals.
  - exfalso. assert (is_Some (mapM (blocks_index fs sp r)
                                (Z.of_nat <$> seq 0 16))) as [? ?];
      [|congruence].
    apply mapM_is_Some. Forall_each ltac:(by apply blocks_index_Some).
Qed.
End Phases3.


(** *** The tweak of variant 1 *)

Lemma index_Some (s : slice) (i : nat) :
  (i < len s)%nat → slice_ok s → index s i = Some (backing s !!! i).
Proof.
  intros Hi Hok. unfold index. rewrite decide_True by done.
  apply list_lookup_lookup_total_lt. unfold slice_ok, cap in Hok. lia.
Qed.

Lemma LittleEndian_Uint64_Some (d : slice) :
  (8 <= len d)%nat → slice_ok d →
  LittleEndian_Uint64 d =
    Some (Z.lor (backing d !!! 0%nat) (Z.lor (Z.shiftl (backing d !!! 1%nat) 8)
      (Z.lor (Z.shiftl (backing d !!! 2%nat) 16)
      (Z.lor (Z.shiftl (backing d !!! 3%nat) 24)
      (Z.lor (Z.shiftl (backing d !!! 4%nat) 32)
      (Z.lor (Z.shiftl (backing d !!! 5%nat) 40)
      (Z.lor (Z.shiftl (backing d !!! 6%nat) 48)
             (Z.shiftl (backing d !!! 7%nat) 56)))))))).
Proof.
  intros Hlen Hok. unfold LittleEndian_Uint64.
  rewrite !index_Some by (done || lia). done.
Qed.

Section Tweak.
Context `{Primitives}.

Lemma tweak_init_other fs data variant :
  variant ≠ 1 → tweak_init fs data variant = Some 0.
Proof. intros. unfold tweak_init. by rewrite decide_False. Qed.

Lemma tweak_init_1 fs data :
  (43 <= cap data)%nat →
  tweak_init fs data 1 =
    Some (Z.lxor (fs !!! 24%nat)
      (Z.lor (backing data !!! 35%nat)
      (Z.lor (Z.shiftl (backing data !!! 36%nat) 8)
      (Z.lor (Z.shiftl (backing data !!! 37%nat) 16)
      (Z.lor (Z.shiftl (backing data !!! 38%nat) 24)
      (Z.lor (Z.shiftl (backing data !!! 39%nat) 32)
      (Z.lor (Z.shiftl (backing data !!! 40%nat) 40)
      (Z.lor (Z.shiftl (backing data !!! 41%nat) 48)
             (Z.shiftl (backing data !!! 42%nat) 56))))))))).
Proof.
  intros Hcap. unfold tweak_init, reslice. rewrite decide_True by done.
  rewrite decide_True by lia. cbn [mbind option_bind].
  rewrite LittleEndian_Uint64_Some; cbn [len backing].
  - cbn [mbind option_bind]. unfold cap in Hcap.
    rewrite !lookup_total_drop. done.
  - lia.
  - unfold slice_ok, cap. cbn [len backing]. rewrite length_drop.
    unfold cap in Hcap. lia.
Qed.

Lemma tweak_init_panic fs data :
  (cap data < 43)%nat → tweak_init fs data 1 = None.
Proof.
  intros Hcap. unfold tweak_init, reslice. rewrite decide_True by done.
  by rewrite decide_False by lia.
Qed.

Lemma tweak_init_Some fs data variant :
  (variant = 1 → (43 <= cap data)%nat) →
  is_Some (tweak_init fs data variant).
Proof.
  intros Hv. destruct (decide (variant = 1)) as [->|].
  - rewrite tweak_init_1 by auto. eauto.
  - rewrite tweak_init_other by done. eauto.
Qed.
End Tweak.

(** *** The serialised state and the digest *)

Lemma length_word_bytes w : length (word_bytes w) = 8%nat.
Proof. done. Qed.

Lemma length_U64_U8 fs :
  length fs = 25%nat → length (U64_U8 fs 0 25) = 200%nat.
Proof.
  intros Hfs. unfold U64_U8. rewrite drop_0, take_ge by lia.
  do 26 (destruct fs as [|? fs]; try done).
Qed.

Section Digest.
Context `{Primitives}.

Lemma finalist_size sel : Hash256 (finalist sel).
Proof.
  unfold finalist. repeat case_decide;
    auto using blake256_size, groestl_size, jh_size, skein_size.
Qed.

Lemma length_hash_digest sel p : length (hash_digest (finalist sel) p) = 32%nat.
Proof. unfold hash_digest. by rewrite finalist_size. Qed.

Lemma Cache_Sum_total cache data variant :
  sp_ok (scratchpad cache) →
  (variant = 1 → (43 <= cap data)%nat) →
  ∃ digest cache',
    Cache_Sum cache data variant = Some (digest, cache') ∧
    Cache_ok cache' ∧
    digest = hash_digest (finalist (Z.land (finalState cache' !!! 0%nat) 0x03))
                         (U64_U8 (finalState cache') 0 25) ∧
    length digest = 32%nat.
Proof.
  intros Hsp Hv. unfold Cache_Sum. cbv zeta.
  pose proof turns_outer as Hn. revert Hn.
  generalize (turns 0 SCRATCHPAD_WORDS 16). intros n Hn.
  generalize (turns 0 524288 1). intros m.
  set (fs := Keccak1600State (elements data)).
  assert (length fs = 25%nat) as Hfs by apply Keccak1600State_length.
  destruct (tweak_init_Some fs data variant Hv) as [tweak ->].
  cbn [mbind option_bind].
  match goal with |- context [for_loop _ 0 16 (init_chunk ?rk) (?bl, _)] =>
    destruct (init_loop_Some n rk bl (scratchpad cache) Hn)
      as ([bl1 sp1] & -> & Hbl1 & Hsp1);
      [by rewrite length_inserts|done|]
  end.
  cbn [mbind option_bind fst snd] in *.
  match goal with |- context [for_loop _ 0 1 _ ?s0] =>
    destruct (memory_loop_Some m variant tweak s0 Hsp1) as (s & -> & Hs)
  end.
  cbn [mbind option_bind].
  match goal with |- context [for_loop _ 0 16 (final_chunk fs ?rk) _] =>
    destruct (final_loop_Some n fs rk (words s) Hn Hfs Hs)
      as ([sp2 r] & -> & Hsp2 & Hr)
  end.
  cbn [mbind option_bind fst snd] in *.
  destruct (blocks_read_Some fs sp2 r Hfs Hsp2 Hr) as (vals & -> & Hvals).
  cbn [mbind option_bind].
  eexists _, _. split; [done|]. cbn [finalState scratchpad].
  assert (length (Keccak1600Permute (list_inserts 8 vals fs)) = 25%nat)
    as Hfs' by (apply Keccak1600Permute_length; by rewrite length_inserts).
  split; [by split|]. split; [done|]. apply length_hash_digest.
Qed.

Lemma Cache_Sum_panic cache data :
  (cap data < 43)%nat → Cache_Sum cache data 1 = None.
Proof.
  intros Hcap. unfold Cache_Sum. cbv zeta.
  by rewrite tweak_init_panic.
Qed.
End Digest.


Section Steps.
Context `{Primitives}.

(** One turn, step by step: every access succeeds, and the turn is the
    composition of the steps of the source with their intermediate
    scratchpads. *)
Lemma iteration_steps variant tweak s :
  sp_ok (words s) →
  ∃ w0 w1 sp1 sp3 c0 c1 r sp4 sp6,
    let addr := TO_ADDR (a s) in
    let c' := cnSingleRound (w0, w1) (a s) in
    let sp2 := <[Z.to_nat (addr + 1) := Z.lxor (b s).2 c'.2]>
                 (<[Z.to_nat addr := Z.lxor (b s).1 c'.1]> sp1) in
    let addr2 := TO_ADDR c' in
    let product := byteMul c'.1 c0 in
    let a' := (U64.add (a s).1 product.1, U64.add (a s).2 product.2) in
    let sp5 := <[Z.to_nat (addr2 + 1) := a'.2]>
                 (<[Z.to_nat addr2 := a'.1]> sp4) in
    load (words s) addr = Some w0 ∧
    load (words s) (addr + 1) = Some w1 ∧
    (if decide (variant = 2) then VARIANT2_SHUFFLE (words s) addr
     else Some (words s)) = Some sp1 ∧
    (if decide (variant = 1) then variant1_tweak sp2 addr
     else Some sp2) = Some sp3 ∧
    load sp3 addr2 = Some c0 ∧
    load sp3 (addr2 + 1) = Some c1 ∧
    (if decide (variant = 2)
     then variant2_arith c' c1 (divisionResult s) (sqrtResult s)
     else Some (c1, divisionResult s, sqrtResult s)) = Some r ∧
    (if decide (variant = 2) then VARIANT2_SHUFFLE sp3 addr2
     else Some sp3) = Some sp4 ∧
    (if decide (variant = 1)
     then w ← load sp5 (addr2 + 1); store sp5 (addr2 + 1) (Z.lxor w tweak)
     else Some sp5) = Some sp6 ∧
    sp_ok sp1 ∧ sp_ok sp3 ∧ sp_ok sp4 ∧ sp_ok sp6 ∧
    iteration variant tweak s =
      Some {| a := (Z.lxor a'.1 c0, Z.lxor a'.2 r.1.1);
              b := c'; c := (c0, r.1.1); product := product;
              divisionResult := r.1.2; sqrtResult := r.2;
              words := sp6 |}.
Proof.
  intros Hlen. unfold iteration. cbv zeta.
  destruct (load_addr _ (a s) Hlen) as (w0 & w1 & Hw0 & Hw1).
  rewrite Hw0, Hw1. cbn [mbind option_bind].
  set (c' := cnSingleRound (w0, w1) (a s)).
  destruct (cond_shuffle variant (words s) (a s) Hlen) as (sp1 & Hsp1 & Hlen1).
  rewrite Hsp1. cbn [mbind option_bind].
  rewrite (proj1 (store_ok sp1 (a s) _ Hlen1)). cbn [mbind option_bind].
  rewrite (proj2 (store_ok _ (a s) _ (sp_ok_insert _ _ _ Hlen1))).
  cbn [mbind option_bind].
  match goal with |- context [variant1_tweak ?sp _] =>
    destruct (cond_tweak1 variant sp (a s)) as (sp3 & Hsp3 & Hlen3);
      [by repeat apply sp_ok_insert|]
  end.
  rewrite Hsp3. cbn [mbind option_bind].
  destruct (load_addr _ c' Hlen3) as (c0 & c1 & Hc0 & Hc1).
  rewrite Hc0, Hc1. cbn [mbind option_bind].
  destruct (cond_arith variant c' c1 (divisionResult s) (sqrtResult s))
    as ([[c1' dr'] sr'] & Hr & _).
  rewrite Hr. cbn [mbind option_bind].
  destruct (cond_shuffle variant sp3 c' Hlen3) as (sp4 & Hsp4 & Hlen4).
  rewrite Hsp4. cbn [mbind option_bind].
  rewrite (proj1 (store_ok sp4 c' _ Hlen4)). cbn [mbind option_bind].
  rewrite (proj2 (store_ok _ c' _ (sp_ok_insert _ _ _ Hlen4))).
  cbn [mbind option_bind].
  match goal with |- context [if decide (variant = 1) then _ ≫= _ else Some ?sp] =>
    destruct (cond_tweak_a variant sp c' tweak) as (sp6 & Hsp6 & Hlen6);
      [by repeat apply sp_ok_insert|]
  end.
  rewrite Hsp6. cbn [mbind option_bind].
  exists w0, w1, sp1, sp3, c0, c1, (c1', dr', sr'), sp4, sp6.
  repeat split; done.
Qed.
End Steps.

Section Whole.
Context `{Primitives}.

(** The call does not read what the cache held. *)
Lemma Cache_Sum_independent cache1 cache2 data variant :
  sp_ok (scratchpad cache1) → sp_ok (scratchpad cache2) →
  Cache_Sum cache1 data variant = Cache_Sum cache2 data variant.
Proof.
  intros Hsp1 Hsp2. unfold Cache_Sum. cbv zeta.
  pose proof turns_outer as Hn. revert Hn.
  generalize (turns 0 SCRATCHPAD_WORDS 16). intros n Hn.
  generalize (turns 0 524288 1). intros m.
  destruct (tweak_init _ data variant) as [tweak|]; [|done].
  cbn [mbind option_bind].
  match goal with |- context [for_loop n 0 16 (init_chunk ?rk) (?bl, _)] =>
    rewrite (init_loop_independent n rk bl (scratchpad cache1)
               (scratchpad cache2) Hn)
  end; [done| |done|done].
  rewrite length_inserts. apply length_replicate.
Qed.

(** A variant other than 1 and 2 takes no branch of the loop. *)
Lemma iteration_other variant tweak s :
  variant ≠ 1 → variant ≠ 2 →
  iteration variant tweak s = iteration 0 tweak s.
Proof.
  intros H1 H2. unfold iteration.
  destruct (decide (variant = 1)) as [|_]; [done|].
  destruct (decide (variant = 2)) as [|_]; [done|].
  destruct (decide (0 = 1)) as [|_]; [done|].
  destruct (decide (0 = 2)) as [|_]; [done|].
  done.
Qed.

Lemma Cache_Sum_other cache data variant :
  variant ≠ 1 → variant ≠ 2 →
  Cache_Sum cache data variant = Cache_Sum cache data 0.
Proof.
  intros H1 H2. unfold Cache_Sum. cbv zeta.
  generalize (turns 0 SCRATCHPAD_WORDS 16). intros n.
  generalize (turns 0 524288 1). intros m.
  rewrite !tweak_init_other by done. cbn [mbind option_bind].
  destruct (for_loop n 0 16 _ _) as [[blocks sp]|]; [|done].
  cbn [mbind option_bind].
  rewrite (for_loop_ext (λ _, iteration variant 0) (λ _, iteration 0 0));
    [done|].
  intros _ s. by apply iteration_other.
Qed.
End Whole.

Lemma new_Cache_ok : Cache_ok new_Cache.
Proof.
  split; [done|]. unfold new_Cache. cbn [scratchpad].
  rewrite length_replicate. apply Z2Nat.id. discriminate.
Qed.


Lemma shuffle_table_lanes i j :
  shuffle_table !! i = Some j →
  shuffle_dst !! i = Some (chunk_of (Z.of_nat i), Z.of_nat i mod 8) ∧
  shuffle_src !! i = Some (chunk_of j, j mod 8) ∧
  (i < 24)%nat ∧ 0 <= j < 24 ∧
  chunk_of j = drawn_from (chunk_of (Z.of_nat i)).
Proof.
  intros Hij.
  do 24 (destruct i as [|i];
         [injection Hij as <-; repeat split; (reflexivity || lia)|]).
  discriminate.
Qed.

Lemma chunk_base_bytes addr ch :
  8 * chunk_base addr ch = Z.lxor (8 * addr) (chunk_byte_mask ch).
Proof.
  rewrite !(Z.mul_comm 8). change 8 with (2 ^ 3).
  rewrite <- !Z.shiftl_mul_pow2 by lia.
  destruct ch; cbn [chunk_base chunk_byte_mask]; by rewrite Z.shiftl_lxor.
Qed.

(** C1. In variant 2 every shuffle step, at the word index [TO_ADDR v] of
    either address of a turn, succeeds and reassigns the 24 half-words of
    chunk0, chunk1, chunk2 (the cells at byte addresses [addr XOR 0x10],
    [0x20], [0x30]) simultaneously by the fixed table: the new half-word [i]
    is the old half-word [shuffle_table[i]], read before any write; the new
    chunk0 comes from the old chunk2 only, chunk1 from chunk0, chunk2 from
    chunk1; the table is a permutation of 0..23 and no other word of the
    scratchpad changes. *)
Theorem VARIANT2_SHUFFLE_permutes (sp : list Z) (v : Z * Z) :
  sp_ok sp →
  ∃ sp', VARIANT2_SHUFFLE sp (TO_ADDR v) = Some sp' ∧
    length sp' = length sp ∧
    (∀ i j, shuffle_table !! i = Some j →
       ∃ x, halfword sp (TO_ADDR v) j = Some x ∧
            halfword sp' (TO_ADDR v) (Z.of_nat i) = Some x ∧
            chunk_of j = drawn_from (chunk_of (Z.of_nat i))) ∧
    NoDup shuffle_table ∧ Forall (λ j, 0 <= j < 24) shuffle_table ∧
    length shuffle_table = 24%nat ∧
    (∀ ch, 8 * chunk_base (TO_ADDR v) ch =
           Z.lxor (8 * TO_ADDR v) (chunk_byte_mask ch)) ∧
    (∀ n, (∀ ch, n ≠ Z.to_nat (chunk_base (TO_ADDR v) ch) ∧
                 n ≠ Z.to_nat (chunk_base (TO_ADDR v) ch + 1)) →
          sp' !! n = sp !! n).
Proof.
  intros Hsp. destruct (TO_ADDR_range v) as [Hr Heven].
  destruct (VARIANT2_SHUFFLE_spec sp (TO_ADDR v) Hr Heven Hsp)
    as (sp' & Hrun & Hlen & Hlanes & Hwords).
  exists sp'. split; [done|]. split; [done|]. split; [|split; [|split; [|split]]].
  - intros i j Hij.
    destruct (shuffle_table_lanes i j Hij) as (Hd & Hs & Hi & Hj & Hch).
    pose proof (Forall2_lookup_lr _ _ _ _ _ _ Hlanes Hd Hs) as Heq.
    cbn [fst snd] in Heq. unfold halfword. rewrite Heq.
    destruct (load16_Some sp (chunk_base (TO_ADDR v) (chunk_of j)) (j mod 8))
      as (x & Hx & _).
    + destruct (chunk_base_range (TO_ADDR v) (chunk_of j) Hr Heven). lia.
    + zlia.
    + destruct (chunk_base_range (TO_ADDR v) (chunk_of j) Hr Heven).
      rewrite Hsp. change SCRATCHPAD_WORDS with 262144. lia.
    + eauto.
  - refine (bool_decide_unpack (NoDup shuffle_table) _). vm_compute. exact I.
  - Forall_each lia.
  - done.
  - split; [intros; apply chunk_base_bytes|done].
Qed.

Lemma VARIANT2_SHUFFLE_permutes_witness :
  sp_ok zero_scratchpad ∧
  ∃ sp', VARIANT2_SHUFFLE zero_scratchpad (TO_ADDR (0x12345670, 0)) = Some sp'.
Proof.
  assert (sp_ok zero_scratchpad) as Hok by (vm_compute; reflexivity).
  split; [exact Hok|].
  destruct (VARIANT2_SHUFFLE_permutes zero_scratchpad (0x12345670, 0) Hok)
    as (sp' & Hrun & _).
  exists sp'. exact Hrun.
Defined.


Lemma division_result_bits b1 d :
  0 < d < 2 ^ 32 →
  Z.lor (Z.land (b1 / d) 0xffffffff) (U64.shl (b1 mod d) 32) =
  Z.lor (Z.land (b1 / d) 0xffffffff) (Z.shiftl (b1 mod d) 32).
Proof.
  intros Hd. unfold U64.shl. f_equal. apply wrap_small.
  pose proof (Z.mod_pos_bound b1 d ltac:(lia)).
  rewrite Z.shiftl_mul_pow2 by lia. lia.
Qed.

Lemma sqrt_argument_range x : 0 <= Z.shiftr (U64.wrap x) 16 < 2 ^ 48.
Proof.
  unfold U64.wrap, U64.modulus.
  pose proof (Z.mod_pos_bound x (2 ^ 64) ltac:(lia)).
  rewrite Z.shiftr_div_pow2 by lia. zlia.
Qed.

(** *** The double-precision square root on integers below [2 ^ 48] *)

Lemma digits2_pos_size (p : positive) : digits2_pos p = Pos.size p.
Proof. induction p; simpl; congruence. Qed.

Lemma digits2_pos_unique (p : positive) (d : Z) :
  2 ^ (d - 1) <= Z.pos p < 2 ^ d -> Z.pos (digits2_pos p) = d.
Proof.
  intros [Hlo Hhi]. rewrite digits2_pos_size.
  pose proof (Pos.size_gt p) as Hgt. pose proof (Pos.size_le p) as Hle.
  apply Pos2Z.pos_lt_pos in Hgt. apply Pos2Z.pos_le_pos in Hle.
  rewrite Pos2Z.inj_pow in Hgt, Hle.
  change (Z.pos p~0) with (2 * Z.pos p) in Hle.
  set (s := Z.pos (Pos.size p)) in *.
  assert (Hs : 0 < s) by (unfold s; lia).
  assert (Hd : 0 < d).
  { destruct (Z_lt_le_dec 0 d) as [|Hn]; [assumption|].
    destruct (Z.eq_dec d 0) as [->|]; [simpl in Hhi; lia|].
    rewrite (Z.pow_neg_r 2 d) in Hhi by lia. lia. }
  assert (Hs2 : 2 ^ s = 2 * 2 ^ (s - 1)).
  { rewrite <- Z.pow_succ_r by lia. f_equal. lia. }
  destruct (Z_lt_le_dec s d) as [Hlt|Hge].
  - pose proof (Z.pow_le_mono_r 2 s (d - 1)). lia.
  - destruct (Z.eq_dec s d) as [|Hne]; [assumption|].
    pose proof (Z.pow_le_mono_r 2 d (s - 1)). lia.
Qed.

Lemma shr_fexp_normal (m e : Z) (l : location) :
  2 ^ 52 <= m < 2 ^ 53 -> -1074 <= e ->
  shr_fexp prec emax m e l = (shr_record_of_loc m l, e).
Proof.
  intros Hm He. unfold shr_fexp.
  destruct m as [|p|p]; try lia.
  cbn [Zdigits2]. rewrite (digits2_pos_unique p 53) by (change (53 - 1) with 52; lia).
  replace (fexp prec emax (53 + e) - e) with 0; [reflexivity|].
  unfold fexp, emin, prec, emax. lia.
Qed.

Lemma shr_fexp_carry (e : Z) :
  -1074 <= e ->
  shr_fexp prec emax (2 ^ 53) e loc_Exact
  = ({| shr_m := 2 ^ 52; shr_r := false; shr_s := false |}, e + 1).
Proof.
  intros He. unfold shr_fexp.
  change (Zdigits2 (2 ^ 53)) with 54.
  replace (fexp prec emax (54 + e) - e) with 1; [reflexivity|].
  unfold fexp, emin, prec, emax. lia.
Qed.

Lemma round_shr_record_of_loc (m : Z) (l : location) :
  l <> loc_Inexact Eq ->
  round_nearest_even (shr_m (shr_record_of_loc m l))
                     (loc_of_shr_record (shr_record_of_loc m l))
  = round_nearest_even m l.
Proof. destruct l as [|[]]; intros H; try reflexivity; congruence. Qed.

(** Rounding an integer significand of exactly 53 bits: the significand
    is kept or incremented, and renormalised when the increment carries. *)
Lemma binary_round_aux_normal (m e : Z) (l : location) :
  2 ^ 52 <= m < 2 ^ 53 -> -1074 <= e <= 970 -> l <> loc_Inexact Eq ->
  binary_round_aux prec emax false m e l
  = if Z.eq_dec (round_nearest_even m l) (2 ^ 53)
    then S754_finite false (Z.to_pos (2 ^ 52)) (e + 1)
    else S754_finite false (Z.to_pos (round_nearest_even m l)) e.
Proof.
  intros Hm He Hl. unfold binary_round_aux.
  rewrite shr_fexp_normal by lia.
  rewrite round_shr_record_of_loc by assumption.
  set (m1 := round_nearest_even m l).
  assert (Hm1 : m1 = m \/ m1 = m + 1).
  { unfold m1. destruct l as [|[]]; simpl; auto. congruence. }
  destruct (Z.eq_dec m1 (2 ^ 53)) as [Hc|Hc].
  - rewrite Hc, shr_fexp_carry by lia. cbn [shr_m].
    change (2 ^ 52) with (Z.pos (Z.to_pos (2 ^ 52))). cbv iota.
    replace (e + 1 <=? emax - prec) with true
      by (symmetry; apply Z.leb_le; unfold emax, prec; lia).
    reflexivity.
  - rewrite shr_fexp_normal by lia. cbn [shr_record_of_loc shr_m].
    destruct m1 as [|p1|p1] eqn:E; try lia.
    replace (e <=? emax - prec) with true
      by (symmetry; apply Z.leb_le; unfold emax, prec; lia).
    reflexivity.
Qed.

Lemma pos_iter_xO (p q : positive) :
  Z.pos (Pos.iter xO p q) = Z.pos p * 2 ^ Z.pos q.
Proof.
  rewrite (Pos.iter_swap_gen _ _ Z.pos xO (Z.mul 2)) by reflexivity.
  change (Pos.iter (Z.mul 2) (Z.pos p) q) with (Z.shiftl (Z.pos p) (Z.pos q)).
  apply Z.shiftl_mul_pow2. lia.
Qed.

Lemma pow2_split (a b : Z) : 0 <= a -> 0 <= b -> 2 ^ (a + b) = 2 ^ a * 2 ^ b.
Proof. intros. apply Z.pow_add_r; assumption. Qed.

(** [float64(x)] of an integer of [d <= 52] bits is exact: the significand
    is [x] shifted to 53 bits. *)
Lemma binary_normalize_exact (x d : Z) :
  1 <= d <= 52 -> 2 ^ (d - 1) <= x < 2 ^ d ->
  binary_normalize prec emax x 0 false
  = S754_finite false (Z.to_pos (x * 2 ^ (53 - d))) (d - 53).
Proof.
  intros Hd Hx.
  assert (H0 : 0 < 2 ^ (d - 1)) by (apply Z.pow_pos_nonneg; lia).
  destruct x as [|p|p]; try lia.
  unfold binary_normalize, binary_round.
  rewrite (digits2_pos_unique p d) by assumption.
  set (q := Z.to_pos (53 - d)).
  assert (Hq : Z.pos q = 53 - d) by (unfold q; lia).
  assert (Hn : Z.neg q = d - 53) by (rewrite <- Pos2Z.opp_pos; lia).
  replace (fexp prec emax (d + 0)) with (Z.neg q)
    by (unfold fexp, emin, prec, emax; lia).
  unfold shl_align. change (Z.neg q - 0) with (Z.neg q). cbv beta iota.
  assert (Hm : Z.pos (Pos.iter xO p q) = Z.pos p * 2 ^ (53 - d))
    by (rewrite pos_iter_xO, Hq; reflexivity).
  assert (Hb : 2 ^ 52 <= Z.pos (Pos.iter xO p q) < 2 ^ 53).
  { rewrite Hm.
    assert (E52 : 2 ^ 52 = 2 ^ (d - 1) * 2 ^ (53 - d))
      by (rewrite <- pow2_split; [f_equal; lia | lia | lia]).
    assert (E53 : 2 ^ 53 = 2 ^ d * 2 ^ (53 - d))
      by (rewrite <- pow2_split; [f_equal; lia | lia | lia]).
    assert (0 < 2 ^ (53 - d)) by (apply Z.pow_pos_nonneg; lia).
    rewrite E52, E53. split.
    - apply Z.mul_le_mono_nonneg_r; lia.
    - apply Z.mul_lt_mono_pos_r; lia. }
  rewrite Hn.
  rewrite binary_round_aux_normal; [| exact Hb | lia | discriminate].
  cbn [round_nearest_even].
  destruct (Z.eq_dec _ _) as [Hc|_]; [lia|].
  rewrite <- Hm, Pos2Z.id. reflexivity.
Qed.

(** The square root of a double with a 53-bit significand [m] and an
    exponent [e]: the integer square root of the significand, scaled to an
    even exponent, is rounded to nearest. *)
Lemma SFsqrt_normal (m : positive) (e : Z) :
  2 ^ 52 <= Z.pos m < 2 ^ 53 -> -1000 <= e <= 1000 ->
  let e' := e / 2 - 26 in
  let m' := Z.pos m * 2 ^ (e - 2 * e') in
  let q := Z.sqrt m' in
  let r := m' - q * q in
  SFsqrt prec emax (S754_finite false m e)
  = binary_round_aux prec emax false q e'
      (if r =? 0 then loc_Exact
       else loc_Inexact (if r <=? q then Lt else Gt)).
Proof.
  intros Hm He e' m' q r.
  unfold SFsqrt, SFsqrt_core_binary. cbn [Zdigits2].
  rewrite (digits2_pos_unique m 53) by (change (53 - 1) with 52; lia).
  rewrite !Z.div2_div.
  assert (He' : Z.min (fexp prec emax ((53 + e + 1) / 2)) (e / 2) = e')
    by (unfold e', fexp, emin, prec, emax; zlia).
  rewrite He'.
  assert (Hs : 52 <= e - 2 * e' <= 53) by (unfold e'; zlia).
  destruct (e - 2 * e') as [|s|s] eqn:Es; try lia.
  rewrite Z.shiftl_mul_pow2 by lia. fold m'.
  pose proof (Z.sqrtrem_spec m') as Hspec.
  pose proof (Z.sqrtrem_sqrt m') as Hfst.
  destruct (Z.sqrtrem m') as [q0 r0]. cbn [fst] in Hfst.
  assert (Hm' : 0 <= m') by (unfold m'; lia).
  destruct (Hspec Hm') as [Heq _].
  assert (r0 = r) as -> by (unfold r, q; lia).
  rewrite Hfst. reflexivity.
Qed.

(** The integer square root of [x] scaled by [P * P], for [P] larger than
    the root of [x]: dividing it, or its successor when the remainder is
    past the midpoint, by [P] gives the integer square root of [x]. *)
Lemma sqrt_scaled (x P q r : Z) :
  0 <= x < 2 ^ 48 -> 2 ^ 29 <= P ->
  x * (P * P) = q * q + r -> 0 <= q -> 0 <= r <= 2 * q ->
  Z.sqrt x * P <= q /\ q < (Z.sqrt x + 1) * P
  /\ (q < r -> q + 1 < (Z.sqrt x + 1) * P).
Proof.
  intros Hx HP Heq Hq Hr.
  pose proof (Z.sqrt_spec x ltac:(lia)) as Hn. cbv zeta in Hn.
  pose proof (Z.sqrt_nonneg x) as Hn0.
  set (n := Z.sqrt x) in *.
  assert (Hn24 : n < 2 ^ 24).
  { destruct (Z_lt_le_dec n (2 ^ 24)) as [|Hge]; [assumption|].
    assert (2 ^ 24 * 2 ^ 24 <= n * n) by (apply Z.mul_le_mono_nonneg; lia).
    change (2 ^ 24 * 2 ^ 24) with (2 ^ 48) in *. lia. }
  assert (HP0 : 0 < P) by lia.
  assert (HPP : 0 < P * P) by lia.
  assert (Hlo : n * P <= q).
  { destruct (Z_le_gt_dec (n * P) q) as [|Hgt]; [assumption|exfalso].
    assert ((q + 1) * (q + 1) <= (n * P) * (n * P))
      by (apply Z.mul_le_mono_nonneg; lia).
    assert ((n * n) * (P * P) <= x * (P * P))
      by (apply Z.mul_le_mono_nonneg_r; lia).
    lia. }
  assert (Hhi : q < (n + 1) * P).
  { destruct (Z_lt_le_dec q ((n + 1) * P)) as [|Hge]; [assumption|exfalso].
    assert (((n + 1) * P) * ((n + 1) * P) <= q * q)
      by (apply Z.mul_le_mono_nonneg; lia).
    assert ((x + 1) * (P * P) <= ((n + 1) * (n + 1)) * (P * P))
      by (apply Z.mul_le_mono_nonneg_r; lia).
    lia. }
  split; [assumption|]. split; [assumption|].
  intros Hqr.
  destruct (Z_lt_le_dec (q + 1) ((n + 1) * P)) as [|Hge]; [assumption|exfalso].
  assert (Hq1 : q + 1 = (n + 1) * P) by lia.
  assert (H1 : (x + 1) * (P * P) <= ((n + 1) * (n + 1)) * (P * P))
    by (apply Z.mul_le_mono_nonneg_r; lia).
  assert (H2 : (q + 1) * (q + 1) = ((n + 1) * (n + 1)) * (P * P))
    by (rewrite Hq1; ring).
  assert (H3 : P * P <= (n + 1) * P) by lia.
  assert (H4 : (n + 1) * P < 2 ^ 29 * P)
    by (apply Z.mul_lt_mono_pos_r; lia).
  assert (H5 : 2 ^ 29 * P <= P * P)
    by (apply Z.mul_le_mono_nonneg_r; lia).
  lia.
Qed.

Lemma div_between (a P n : Z) : 0 < P -> n * P <= a < (n + 1) * P -> a / P = n.
Proof. intros HP Ha. symmetry. apply (Z.div_unique a P n (a - n * P)); lia. Qed.

(** On a radicand below [2 ^ 48] the conversion to a double is exact and the
    rounded double square root, truncated, is the integer square root. *)
Lemma sqrt_float64_truncated (x : Z) :
  0 <= x < 2 ^ 48 ->
  uint64_of_float64 (math_Sqrt (float64_of_uint64 x)) = Z.sqrt x.
Proof.
  intros Hx. unfold uint64_of_float64, math_Sqrt, float64_of_uint64.
  rewrite sqrt_spec.
  destruct (Z.eq_dec x 0) as [->|Hx0].
  { cbn [binary_normalize].
    rewrite Prim2SF_SF2Prim by reflexivity. reflexivity. }
  set (d := Z.log2 x + 1).
  assert (Hlog : 2 ^ (d - 1) <= x < 2 ^ d).
  { unfold d. replace (Z.log2 x + 1 - 1) with (Z.log2 x) by lia.
    apply Z.log2_spec. lia. }
  assert (Hd : 1 <= d <= 48).
  { unfold d. pose proof (Z.log2_nonneg x).
    assert (Z.log2 x < 48) by (apply Z.log2_lt_pow2; lia). lia. }
  rewrite (binary_normalize_exact x d) by lia.
  set (M := x * 2 ^ (53 - d)).
  assert (H2d : 0 < 2 ^ (53 - d)) by (apply Z.pow_pos_nonneg; lia).
  assert (HM : 2 ^ 52 <= M < 2 ^ 53).
  { unfold M.
    assert (E52 : 2 ^ 52 = 2 ^ (d - 1) * 2 ^ (53 - d))
      by (rewrite <- pow2_split; [f_equal; lia | lia | lia]).
    assert (E53 : 2 ^ 53 = 2 ^ d * 2 ^ (53 - d))
      by (rewrite <- pow2_split; [f_equal; lia | lia | lia]).
    rewrite E52, E53. split.
    - apply Z.mul_le_mono_nonneg_r; lia.
    - apply Z.mul_lt_mono_pos_r; lia. }
  assert (HMp : Z.pos (Z.to_pos M) = M) by lia.
  rewrite Prim2SF_SF2Prim.
  2:{ unfold valid_binary, bounded, canonical_mantissa.
      rewrite (digits2_pos_unique (Z.to_pos M) 53)
        by (rewrite HMp; change (53 - 1) with 52; lia).
      apply andb_true_intro. split.
      - apply Z.eqb_eq. unfold fexp, emin, prec, emax. lia.
      - apply Z.leb_le. unfold prec, emax. lia. }
  rewrite SFsqrt_normal by (rewrite ?HMp; lia).
  rewrite HMp.
  set (e' := (d - 53) / 2 - 26).
  set (k := - e').
  assert (Hk : 29 <= k <= 52) by (unfold k, e'; zlia).
  set (P := 2 ^ k).
  assert (HP : 2 ^ 29 <= P) by (apply Z.pow_le_mono_r; lia).
  set (m' := M * 2 ^ (d - 53 - 2 * e')).
  assert (Hm' : m' = x * (P * P)).
  { unfold m', M, P. rewrite <- Z.mul_assoc, <- !pow2_split by lia.
    f_equal. f_equal. lia. }
  assert (Hs : 52 <= d - 53 - 2 * e' <= 53) by (unfold e'; zlia).
  assert (Hm'b : 2 ^ 104 <= m' < 2 ^ 106).
  { unfold m'.
    assert (2 ^ 52 <= 2 ^ (d - 53 - 2 * e')) by (apply Z.pow_le_mono_r; lia).
    assert (2 ^ (d - 53 - 2 * e') <= 2 ^ 53) by (apply Z.pow_le_mono_r; lia).
    change (2 ^ 104) with (2 ^ 52 * 2 ^ 52).
    change (2 ^ 106) with (2 ^ 53 * 2 ^ 53). split.
    - apply Z.mul_le_mono_nonneg; lia.
    - apply Z.lt_le_trans with (2 ^ 53 * 2 ^ (d - 53 - 2 * e')).
      + apply Z.mul_lt_mono_pos_r; lia.
      + apply Z.mul_le_mono_nonneg_l; lia. }
  set (q := Z.sqrt m').
  pose proof (Z.sqrt_spec m' ltac:(lia)) as Hq. cbv zeta in Hq. fold q in Hq.
  assert (Hqb : 2 ^ 52 <= q < 2 ^ 53).
  { split.
    - apply Z.sqrt_le_square; [lia | lia |].
      change (2 ^ 52 * 2 ^ 52) with (2 ^ 104). lia.
    - apply Z.sqrt_lt_square; [lia | lia |].
      change (2 ^ 53 * 2 ^ 53) with (2 ^ 106). lia. }
  set (r := m' - q * q).
  assert (Hr : 0 <= r <= 2 * q) by (unfold r; lia).
  destruct (sqrt_scaled x P q r Hx HP) as (Hlo & Hhi & Hup);
    [unfold r; lia | lia | lia |].
  set (l := if r =? 0 then loc_Exact
            else loc_Inexact (if r <=? q then Lt else Gt)).
  assert (Hl : l <> loc_Inexact Eq).
  { unfold l. destruct (r =? 0); [discriminate|].
    destruct (r <=? q); discriminate. }
  assert (Hround : Z.sqrt x * P <= round_nearest_even q l < (Z.sqrt x + 1) * P).
  { unfold l. destruct (Z.eqb_spec r 0); [cbn; lia|].
    destruct (Z.leb_spec r q); cbn [round_nearest_even]; lia. }
  assert (Hrange : q <= round_nearest_even q l <= q + 1).
  { unfold l. destruct (r =? 0); [cbn; lia|].
    destruct (r <=? q); cbn [round_nearest_even]; lia. }
  rewrite binary_round_aux_normal by (try assumption; unfold e'; zlia).
  pose proof (Z.sqrt_nonneg x) as Hn0.
  assert (Hn64 : Z.sqrt x < 2 ^ 64).
  { assert (Z.sqrt x * 2 ^ 29 <= Z.sqrt x * P)
      by (apply Z.mul_le_mono_nonneg_l; lia).
    lia. }
  assert (HP0 : 0 < P) by lia.
  destruct (Z.eq_dec _ _) as [Hc|Hc].
  - rewrite decide_False by (unfold e'; zlia).
    rewrite Z.shiftr_div_pow2 by (unfold e'; zlia).
    replace (- (e' + 1)) with (k - 1) by (unfold k; lia).
    assert (EP : P = 2 * 2 ^ (k - 1)).
    { unfold P. rewrite <- Z.pow_succ_r by lia. f_equal. lia. }
    change (Z.pos (Z.to_pos (2 ^ 52))) with (2 ^ 52).
    rewrite (div_between (2 ^ 52) (2 ^ (k - 1)) (Z.sqrt x)).
    + unfold U64.wrap, U64.modulus. apply Z.mod_small. lia.
    + apply Z.pow_pos_nonneg; lia.
    + rewrite Hc in Hround. change (2 ^ 53) with (2 * 2 ^ 52) in Hround. lia.
  - rewrite decide_False by (unfold e'; zlia).
    rewrite Z.shiftr_div_pow2 by (unfold e'; zlia).
    fold k. fold P.
    rewrite Z2Pos.id by lia.
    rewrite (div_between _ P (Z.sqrt x)) by lia.
    unfold U64.wrap, U64.modulus. apply Z.mod_small. lia.
Qed.

(** [float64(x)] is exact for an integer of at most 52 bits: the double
    holds [x] shifted to a significand of 53 bits, and converting it back
    gives [x]. *)
Lemma float64_of_uint64_exact (x : Z) :
  0 <= x < 2 ^ 52 → uint64_of_float64 (float64_of_uint64 x) = x.
Proof.
  intros Hx. unfold uint64_of_float64, float64_of_uint64.
  destruct (Z.eq_dec x 0) as [->|Hx0].
  { cbn [binary_normalize].
    rewrite Prim2SF_SF2Prim by reflexivity. reflexivity. }
  set (d := Z.log2 x + 1).
  assert (Hlog : 2 ^ (d - 1) <= x < 2 ^ d).
  { unfold d. replace (Z.log2 x + 1 - 1) with (Z.log2 x) by lia.
    apply Z.log2_spec. lia. }
  assert (Hd : 1 <= d <= 52).
  { unfold d. pose proof (Z.log2_nonneg x).
    assert (Z.log2 x < 52) by (apply Z.log2_lt_pow2; lia). lia. }
  rewrite (binary_normalize_exact x d) by lia.
  set (M := x * 2 ^ (53 - d)).
  assert (H2d : 0 < 2 ^ (53 - d)) by (apply Z.pow_pos_nonneg; lia).
  assert (HM : 2 ^ 52 <= M < 2 ^ 53).
  { unfold M.
    assert (E52 : 2 ^ 52 = 2 ^ (d - 1) * 2 ^ (53 - d))
      by (rewrite <- pow2_split; [f_equal; lia | lia | lia]).
    assert (E53 : 2 ^ 53 = 2 ^ d * 2 ^ (53 - d))
      by (rewrite <- pow2_split; [f_equal; lia | lia | lia]).
    rewrite E52, E53. split.
    - apply Z.mul_le_mono_nonneg_r; lia.
    - apply Z.mul_lt_mono_pos_r; lia. }
  assert (HMp : Z.pos (Z.to_pos M) = M) by lia.
  rewrite Prim2SF_SF2Prim.
  2:{ unfold valid_binary, bounded, canonical_mantissa.
      rewrite (digits2_pos_unique (Z.to_pos M) 53)
        by (rewrite HMp; change (53 - 1) with 52; lia).
      apply andb_true_intro. split.
      - apply Z.eqb_eq. unfold fexp, emin, prec, emax. lia.
      - apply Z.leb_le. unfold prec, emax. lia. }
  rewrite decide_False by lia. rewrite HMp.
  rewrite Z.shiftr_div_pow2 by lia.
  replace (- (d - 53)) with (53 - d) by lia.
  unfold M. rewrite Z.div_mul by lia.
  unfold U64.wrap, U64.modulus. apply Z.mod_small. lia.
Qed.

Section Claims_loop.
Context `{Primitives}.

(** C2. In variant 2, every turn of the memory-hard loop succeeds, and
    after the second cell [c2] has been read from the scratchpad of that
    moment (the shuffled scratchpad with [b XOR c] written at the first
    address): [c2.high64] is XORed with the old [divisionResult XOR
    sqrtResult]; with [dividend = b.high64] and
    [divisor = (b.low64 & 0xFFFFFFFF) | 0x80000001] (for the new [b]) the
    new [divisionResult] is
    [((dividend / divisor) & 0xFFFFFFFF) | ((dividend % divisor) << 32)],
    a shift that does not wrap; and the new [sqrtResult] is the wrapping
    sum [b.low64 + divisionResult] shifted right by 16, converted to a
    binary64 float, passed through the binary64 square root and truncated
    back to an integer.  The conversion of the radicand is exact, the
    square root is the correctly rounded one of IEEE 754, and the value
    stored is the floor of the square root of the radicand:
    [sqrtResult^2 <= radicand < (sqrtResult + 1)^2]. *)
Theorem variant2_division_sqrt (tweak : Z) (s : loop_state) :
  sp_ok (words s) →
  ∃ s' w0 w1 sp1 c2lo c2hi,
    iteration 2 tweak s = Some s' ∧
    load (words s) (TO_ADDR (a s)) = Some w0 ∧
    load (words s) (TO_ADDR (a s) + 1) = Some w1 ∧
    b s' = cnSingleRound (w0, w1) (a s) ∧
    VARIANT2_SHUFFLE (words s) (TO_ADDR (a s)) = Some sp1 ∧
    let sp2 := <[Z.to_nat (TO_ADDR (a s) + 1) := Z.lxor (b s).2 (b s').2]>
                 (<[Z.to_nat (TO_ADDR (a s)) := Z.lxor (b s).1 (b s').1]> sp1) in
    load sp2 (TO_ADDR (b s')) = Some c2lo ∧
    load sp2 (TO_ADDR (b s') + 1) = Some c2hi ∧
    c s' = (c2lo, Z.lxor c2hi (Z.lxor (divisionResult s) (sqrtResult s))) ∧
    let dividend := (b s').2 in
    let divisor := Z.lor (Z.land (b s').1 0xFFFFFFFF) 0x80000001 in
    divisionResult s' =
      Z.lor (Z.land (dividend / divisor) 0xFFFFFFFF)
            (Z.shiftl (dividend mod divisor) 32) ∧
    let radicand :=
      Z.shiftr (((b s').1 + divisionResult s') mod 2 ^ 64) 16 in
    0 <= radicand < 2 ^ 48 ∧
    sqrtResult s' =
      uint64_of_float64 (math_Sqrt (float64_of_uint64 radicand)) ∧
    uint64_of_float64 (float64_of_uint64 radicand) = radicand ∧
    Prim2SF (math_Sqrt (float64_of_uint64 radicand))
      = SF64sqrt (Prim2SF (float64_of_uint64 radicand)) ∧
    sqrtResult s' = Z.sqrt radicand ∧
    sqrtResult s' * sqrtResult s' <= radicand
      < (sqrtResult s' + 1) * (sqrtResult s' + 1).
Proof.
  intros Hs.
  destruct (iteration_steps 2 tweak s Hs)
    as (w0 & w1 & sp1 & sp3 & c0 & c1 & r & sp4 & sp6 & Hsteps).
  cbv zeta in Hsteps.
  destruct Hsteps as (Hw0 & Hw1 & Hsp1 & Hsp3 & Hc0 & Hc1 & Hr & _ & _ &
                      _ & _ & _ & _ & Hit).
  rewrite decide_True in Hsp1 by done. rewrite decide_True in Hr by done.
  rewrite decide_False in Hsp3 by done. injection Hsp3 as <-.
  unfold variant2_arith, U64.div, U64.rem in Hr.
  set (c' := cnSingleRound (w0, w1) (a s)) in *.
  pose proof (divisor_of_range c'.1) as Hd.
  rewrite !decide_False in Hr by lia. cbn [mbind option_bind] in Hr.
  rewrite division_result_bits in Hr by lia.
  injection Hr as <-.
  eexists _, w0, w1, sp1, c0, c1. split; [exact Hit|].
  cbn [b c divisionResult sqrtResult fst snd].
  repeat (split; [done|]).
  match goal with |- 0 <= ?x < _ ∧ _ => set (radicand := x) end.
  assert (Hrad : 0 <= radicand < 2 ^ 48) by apply sqrt_argument_range.
  pose proof (sqrt_float64_truncated radicand Hrad) as Hsq.
  pose proof (Z.sqrt_spec radicand ltac:(lia)) as Hfloor.
  cbv zeta in Hfloor. unfold Z.succ in Hfloor.
  split; [exact Hrad|]. split; [reflexivity|].
  split; [apply float64_of_uint64_exact; lia|].
  split; [apply sqrt_spec|].
  split; [exact Hsq|].
  replace (uint64_of_float64 _) with (Z.sqrt radicand) by (symmetry; exact Hsq).
  exact Hfloor.
Qed.

(** C3. In variant 1, every turn succeeds; after [b XOR c] is written to
    the cell at the first address, [t] is the high word of that cell
    shifted right by 24, [t'] is
    [(((~t) & 1) << 4) | ((((~t) & 1) << 4) & t) << 1 | (t & 32) >> 1]
    (no operation wraps, [t' < 64]), and [t' << 24] is XORed into the high
    word of the cell: the low word and every other word keep their
    value, and the turn goes on from that scratchpad. *)
Theorem variant1_tweak_written_cell (tweak : Z) (s : loop_state) :
  sp_ok (words s) →
  ∃ s' w0 w1 c0 c1,
    iteration 1 tweak s = Some s' ∧
    load (words s) (TO_ADDR (a s)) = Some w0 ∧
    load (words s) (TO_ADDR (a s) + 1) = Some w1 ∧
    b s' = cnSingleRound (w0, w1) (a s) ∧
    let addr := TO_ADDR (a s) in
    let lo := Z.lxor (b s).1 (b s').1 in
    let hi := Z.lxor (b s).2 (b s').2 in
    let sp2 := <[Z.to_nat (addr + 1) := hi]> (<[Z.to_nat addr := lo]> (words s)) in
    let t := Z.shiftr hi 24 in
    let t' :=
      Z.lor (Z.lor (Z.shiftl (Z.land (Z.lnot t) 1) 4)
                   (Z.shiftl (Z.land (Z.shiftl (Z.land (Z.lnot t) 1) 4) t) 1))
            (Z.shiftr (Z.land t 32) 1) in
    let sp3 := <[Z.to_nat (addr + 1) := Z.lxor hi (Z.shiftl t' 24)]> sp2 in
    variant1_tweak sp2 addr = Some sp3 ∧
    0 <= t' < 64 ∧
    load sp3 addr = Some lo ∧
    load sp3 (addr + 1) = Some (Z.lxor hi (Z.shiftl t' 24)) ∧
    (∀ n, n ≠ Z.to_nat (addr + 1) → sp3 !! n = sp2 !! n) ∧
    load sp3 (TO_ADDR (b s')) = Some c0 ∧
    load sp3 (TO_ADDR (b s') + 1) = Some c1 ∧
    c s' = (c0, c1).
Proof.
  intros Hs.
  destruct (iteration_steps 1 tweak s Hs)
    as (w0 & w1 & sp1 & sp3 & c0 & c1 & r & sp4 & sp6 & Hsteps).
  cbv zeta in Hsteps.
  destruct Hsteps as (Hw0 & Hw1 & Hsp1 & Hsp3 & Hc0 & Hc1 & Hr & _ & _ &
                      _ & _ & _ & _ & Hit).
  rewrite decide_False in Hsp1 by done. rewrite decide_False in Hr by done.
  rewrite decide_True in Hsp3 by done.
  injection Hsp1 as <-. injection Hr as <-.
  set (c' := cnSingleRound (w0, w1) (a s)) in *.
  destruct (TO_ADDR_range (a s)) as [Ha _]. apply sp_ok_words in Hs as Hl.
  set (addr := TO_ADDR (a s)) in *.
  set (lo := Z.lxor (b s).1 c'.1) in *. set (hi := Z.lxor (b s).2 c'.2) in *.
  set (sp2 := <[Z.to_nat (addr + 1) := hi]> (<[Z.to_nat addr := lo]> (words s))) in *.
  assert (load sp2 (addr + 1) = Some hi) as Hhi.
  { apply list_lookup_insert_eq. rewrite length_insert. lia. }
  rewrite (variant1_tweak_spec sp2 addr hi) in Hsp3 by (lia || done).
  rewrite <- Z.shiftl_mul_pow2, tweak1_index_eq in Hsp3 by lia.
  injection Hsp3 as <-.
  eexists _, w0, w1, c0, c1. split; [exact Hit|].
  cbn [b c fst snd]. fold c' addr lo hi sp2.
  split; [done|]. split; [done|]. split; [done|].
  split.
  { rewrite (variant1_tweak_spec sp2 addr hi) by (lia || done).
    by rewrite <- Z.shiftl_mul_pow2, tweak1_index_eq by lia. }
  split; [rewrite <- tweak1_index_eq; apply tweak1_index_range|].
  split.
  { unfold load. rewrite list_lookup_insert_ne by lia.
    unfold sp2. rewrite list_lookup_insert_ne by lia.
    apply list_lookup_insert_eq. lia. }
  split.
  { apply list_lookup_insert_eq. unfold sp2. rewrite !length_insert. lia. }
  split; [intros n Hn; by apply list_lookup_insert_ne|done].
Qed.

(** C4. For every 128-bit value [v] used for addressing, the cell index
    [(v[0] & 0x1FFFF0) >> 4] lies in [0, 131072), the word index
    [(v[0] & 0x1FFFF0) >> 3] is twice the cell index, so even and at most
    262142; both words of the addressed cell can be read and written in a
    scratchpad of 262,144 words, and no turn of the memory-hard loop, in
    any variant and for any number of turns, leaves the bounds of the
    scratchpad. *)
Theorem scratchpad_access_in_bounds (variant tweak : Z) (s : loop_state)
    (n : nat) :
  sp_ok (words s) →
  (∀ v : Z * Z,
     let cell := Z.shiftr (Z.land v.1 0x1FFFF0) 4 in
     0 <= cell < 131072 ∧ TO_ADDR v = 2 * cell ∧
     TO_ADDR v mod 2 = 0 ∧ 0 <= TO_ADDR v <= 262142 ∧
     TO_ADDR v + 1 < SCRATCHPAD_WORDS ∧
     is_Some (load (words s) (TO_ADDR v)) ∧
     is_Some (load (words s) (TO_ADDR v + 1)) ∧
     (∀ x, is_Some (store (words s) (TO_ADDR v) x)) ∧
     (∀ x, is_Some (store (words s) (TO_ADDR v + 1) x))) ∧
  (∃ s', iteration variant tweak s = Some s' ∧ sp_ok (words s')) ∧
  (∃ s', for_loop n 0 1 (λ _, iteration variant tweak) s = Some s' ∧
         sp_ok (words s')).
Proof.
  intros Hs. split; [|split].
  - intros v cell. destruct (TO_ADDR_range v) as [Hr Heven].
    assert (cell = (v.1 / 16) mod 131072) as Hcell.
    { unfold cell. rewrite land_addr_mask, Z.shiftr_div_pow2 by lia.
      change (2 ^ 4) with 16. generalize ((v.1 / 16) mod 131072).
      intros y. zlia. }
    pose proof (Z.mod_pos_bound (v.1 / 16) 131072 ltac:(lia)) as Hy.
    rewrite <- Hcell in Hy.
    destruct (load_addr (words s) v Hs) as (w0 & w1 & Hw0 & Hw1).
    split; [done|]. split; [rewrite TO_ADDR_cell; lia|].
    split; [done|]. split; [done|].
    split; [change SCRATCHPAD_WORDS with 262144; lia|].
    split; [eauto|]. split; [eauto|].
    split; intros x;
      [rewrite (proj1 (store_ok _ v x Hs))|rewrite (proj2 (store_ok _ v x Hs))];
      eauto.
  - destruct (iteration_Some variant tweak s Hs) as (s' & Hrun & Hs' & _).
    eauto.
  - by apply memory_loop_Some.
Qed.

End Claims_loop.

Lemma variant2_division_sqrt_witness :
  sp_ok (words zero_state) ∧ ∃ s', @iteration stub_primitives 2 0 zero_state = Some s'.
Proof.
  assert (sp_ok (words zero_state)) as Hok by (vm_compute; reflexivity).
  split; [exact Hok|].
  destruct (@variant2_division_sqrt stub_primitives 0 zero_state Hok) as (s' & _ & _ & _ & _ & _ & Hrun & _).
  exists s'. exact Hrun.
Defined.

Lemma variant1_tweak_written_cell_witness :
  sp_ok (words zero_state) ∧ ∃ s', @iteration stub_primitives 1 0 zero_state = Some s'.
Proof.
  assert (sp_ok (words zero_state)) as Hok by (vm_compute; reflexivity).
  split; [exact Hok|].
  destruct (@variant1_tweak_written_cell stub_primitives 0 zero_state Hok) as (s' & _ & _ & _ & _ & Hrun & _).
  exists s'. exact Hrun.
Defined.

Lemma scratchpad_access_in_bounds_witness :
  sp_ok (words zero_state) ∧
  ∃ s', for_loop 3 0 1 (λ _, @iteration stub_primitives 2 0) zero_state = Some s'.
Proof.
  assert (sp_ok (words zero_state)) as Hok by (vm_compute; reflexivity).
  split; [exact Hok|].
  destruct (@scratchpad_access_in_bounds stub_primitives 2 0 zero_state 3 Hok)
    as (_ & _ & s' & Hrun & _).
  exists s'. exact Hrun.
Defined.

(** C10. In variant 2 the divisor [(b[0] & 0xffffffff) | 0x80000001] is at
    least [0x80000001] (and below [2^32]) for every [b[0]], so it is not
    zero: the division and the remainder do not panic and the arithmetic
    step always yields a result. *)
Theorem divisor_never_zero (b0 : Z) :
  0x80000001 <= divisor_of b0 < 2 ^ 32 ∧ divisor_of b0 ≠ 0 ∧
  (∀ x, U64.div x (divisor_of b0) = Some (x / divisor_of b0)) ∧
  (∀ x, U64.rem x (divisor_of b0) = Some (x mod divisor_of b0)) ∧
  (∀ b1 c1 dr sr, is_Some (variant2_arith (b0, b1) c1 dr sr)).
Proof.
  pose proof (divisor_of_range b0) as Hd.
  split; [done|]. split; [lia|].
  split; [|split].
  - intros x. unfold U64.div. by rewrite decide_False by lia.
  - intros x. unfold U64.rem. by rewrite decide_False by lia.
  - intros b1 c1 dr sr. rewrite variant2_arith_spec. eauto.
Qed.


(** X1. In variant 2 the arithmetic step always yields a result; the new
    [divisionResult] is a [uint64], and the new [sqrtResult], computed by
    the source through [float64], [math.Sqrt] and the truncating conversion
    to [uint64], is the integer square root of the radicand
    [(b[0] + divisionResult) >> 16] and is below [2 ^ 24]: the radicand is
    below [2 ^ 48], so its conversion to a double is exact and rounding the
    root never reaches the next integer. *)
Theorem variant2_sqrtResult_integer_sqrt (b : Z * Z) (c1 dr sr : Z) :
  ∃ c1' dr',
    variant2_arith b c1 dr sr
      = Some (c1', dr', Z.sqrt (Z.shiftr (U64.add b.1 dr') 16)) ∧
    U64.in_range dr' ∧
    0 <= Z.sqrt (Z.shiftr (U64.add b.1 dr') 16) < 2 ^ 24.
Proof.
  pose proof (divisor_of_range b.1) as Hd.
  set (d := divisor_of b.1) in *.
  set (dr' := (b.2 / d) mod 2 ^ 32 + (b.2 mod d) * 2 ^ 32).
  pose proof (sqrt_argument_range (b.1 + dr')) as Hx.
  fold (U64.add b.1 dr') in Hx.
  exists (Z.lxor c1 (Z.lxor dr sr)), dr'. split; [|split].
  - rewrite variant2_arith_spec. fold d. fold dr'.
    do 2 f_equal.
    replace (((b.1 + dr') mod 2 ^ 64) / 2 ^ 16)
      with (Z.shiftr (U64.add b.1 dr') 16)
      by (unfold U64.add, U64.wrap, U64.modulus;
          apply Z.shiftr_div_pow2; lia).
    by apply sqrt_float64_truncated.
  - unfold U64.in_range, U64.modulus, dr'.
    pose proof (Z.mod_pos_bound (b.2 / d) (2 ^ 32) ltac:(lia)).
    pose proof (Z.mod_pos_bound b.2 d ltac:(lia)). lia.
  - split; [apply Z.sqrt_nonneg|].
    apply Z.sqrt_lt_square; [lia | lia |].
    change (2 ^ 24 * 2 ^ 24) with (2 ^ 48). lia.
Qed.

Lemma valid_call_cap data variant :
  valid_call data variant → variant = 1 → (43 <= cap data)%nat.
Proof. intros (Hok & _ & Hlen) Hv. specialize (Hlen Hv). unfold slice_ok in Hok. lia. Qed.

Lemma word_bytes_lookup w (k : nat) :
  (k < 8)%nat →
  word_bytes w !! k = Some (Z.land (Z.shiftr w (8 * Z.of_nat k)) 0xff).
Proof.
  intros Hk. do 8 (destruct k as [|k]; [reflexivity|]). lia.
Qed.

Lemma bind_word_bytes_lookup (l : list Z) : ∀ i k : nat,
  (k < 8)%nat →
  (l ≫= word_bytes) !! (8 * i + k)%nat = l !! i ≫= λ w, word_bytes w !! k.
Proof.
  induction l as [|x l IH]; intros i k Hk; [done|].
  rewrite bind_cons. destruct i as [|i].
  - rewrite lookup_app_l by (rewrite length_word_bytes; lia).
    by replace (8 * 0 + k)%nat with k by lia.
  - rewrite lookup_app_r by (rewrite length_word_bytes; lia).
    rewrite length_word_bytes.
    replace (8 * S i + k - 8)%nat with (8 * i + k)%nat by lia.
    by rewrite IH.
Qed.

Lemma U64_U8_lookup st (i k : nat) :
  length st = 25%nat → (i < 25)%nat → (k < 8)%nat →
  U64_U8 st 0 25 !! (8 * i + k)%nat =
    Some (Z.land (Z.shiftr (st !!! i) (8 * Z.of_nat k)) 0xff).
Proof.
  intros Hst Hi Hk. unfold U64_U8. rewrite drop_0, take_ge by lia.
  rewrite bind_word_bytes_lookup by done.
  rewrite (list_lookup_lookup_total_lt st i) by lia.
  cbn [mbind option_bind]. by apply word_bytes_lookup.
Qed.

Lemma land_3_range x : 0 <= Z.land x 0x03 <= 3.
Proof.
  change (Z.land x 0x03) with (Z.land x (Z.ones 2)). rewrite Z.land_ones by lia.
  change (2 ^ 2) with 4. pose proof (Z.mod_pos_bound x 4 ltac:(lia)). lia.
Qed.

Section Claims_Sum.
Context `{Primitives}.

Lemma Sum_eq cache data variant :
  Cache_ok cache →
  Sum data variant = fst <$> Cache_Sum cache data variant.
Proof.
  intros [_ Hsp]. unfold Sum.
  rewrite (Cache_Sum_independent new_Cache cache data variant
             (proj2 new_Cache_ok) Hsp).
  reflexivity.
Qed.

(** C5. For valid calls [(x1, v1)] and [(x2, v2)] and any cache:
    [Sum(x1, v1)] returns and leaves a cache on which [Sum(x2, v2)]
    returns the digest (and leaves the cache) that it returns on any other
    cache, in particular on a fresh zero-initialised one, which is a valid
    cache; so the digest depends on [(data, variant)] only. *)
Theorem Cache_Sum_reuse (cache : Cache) (x1 x2 : slice) (v1 v2 : Z) :
  Cache_ok cache → valid_call x1 v1 → valid_call x2 v2 →
  ∃ d1 cache1 d2 cache2,
    Cache_Sum cache x1 v1 = Some (d1, cache1) ∧
    Cache_ok cache1 ∧
    Cache_Sum cache1 x2 v2 = Some (d2, cache2) ∧
    Cache_ok new_Cache ∧
    Cache_Sum new_Cache x2 v2 = Some (d2, cache2) ∧
    Sum x2 v2 = Some d2 ∧
    (∀ cache', Cache_ok cache' →
               Cache_Sum cache' x2 v2 = Some (d2, cache2)).
Proof.
  intros [_ Hsp] Hv1 Hv2.
  destruct (Cache_Sum_total cache x1 v1 Hsp (valid_call_cap _ _ Hv1))
    as (d1 & cache1 & Hrun1 & Hok1 & _).
  destruct (Cache_Sum_total cache1 x2 v2 (proj2 Hok1) (valid_call_cap _ _ Hv2))
    as (d2 & cache2 & Hrun2 & _).
  assert (∀ cache', Cache_ok cache' →
                    Cache_Sum cache' x2 v2 = Some (d2, cache2)) as Hany.
  { intros cache' [_ Hsp']. rewrite <- Hrun2.
    by apply Cache_Sum_independent; [|apply Hok1]. }
  exists d1, cache1, d2, cache2.
  split; [done|]. split; [done|]. split; [done|].
  split; [apply new_Cache_ok|]. split; [apply Hany, new_Cache_ok|].
  split; [|done]. unfold Sum. by rewrite (Hany _ new_Cache_ok).
Qed.

(** C8. Every valid call returns; with [st] the Keccak state the call
    leaves in the cache, the digest is that of the finalist selected by
    [st[0] & 0x03] (0 BLAKE-256, 1 Groestl-256, 2 JH-256, 3 Skein-256)
    applied to the 200 bytes of the little-endian serialisation of the 25
    lanes of [st], and it is 32 bytes long. *)
Theorem Cache_Sum_dispatch (cache : Cache) (data : slice) (variant : Z) :
  Cache_ok cache → valid_call data variant →
  ∃ digest cache',
    Cache_Sum cache data variant = Some (digest, cache') ∧
    let st := finalState cache' in
    let sel := Z.land (st !!! 0%nat) 0x03 in
    length st = 25%nat ∧
    digest = hash_digest (finalist sel) (U64_U8 st 0 25) ∧
    digest = hash_Sum (finalist sel)
               (hash_Write (finalist sel) (hash_New (finalist sel))
                  (U64_U8 st 0 25)) [] ∧
    0 <= sel <= 3 ∧
    (sel = 0 → finalist sel = blake256_New) ∧
    (sel = 1 → finalist sel = groestl_New256) ∧
    (sel = 2 → finalist sel = jh_New256) ∧
    (sel = 3 → finalist sel = skein_New256) ∧
    length (U64_U8 st 0 25) = 200%nat ∧
    (∀ i k : nat, (i < 25)%nat → (k < 8)%nat →
       U64_U8 st 0 25 !! (8 * i + k)%nat =
         Some (Z.land (Z.shiftr (st !!! i) (8 * Z.of_nat k)) 0xff)) ∧
    length digest = 32%nat.
Proof.
  intros [_ Hsp] Hv.
  destruct (Cache_Sum_total cache data variant Hsp (valid_call_cap _ _ Hv))
    as (d & cache' & Hrun & [Hst Hsp'] & Hd & Hlen).
  exists d, cache'. split; [done|]. cbv zeta.
  split; [done|]. split; [done|]. split; [done|].
  split; [apply land_3_range|].
  split; [by intros ->|]. split; [by intros ->|].
  split; [by intros ->|]. split; [by intros ->|].
  split; [by apply length_U64_U8|].
  split; [intros; by apply U64_U8_lookup|done].
Qed.

(** C9. For every variant other than 1 and 2 (negative, 0, or above 2)
    nothing is validated and the call is the variant 0 call: the same
    result on every cache, a 32-byte digest, no failure. *)
Theorem Sum_other_variant_is_variant0 (cache : Cache) (data : slice)
    (variant : Z) :
  Cache_ok cache → variant ≠ 1 → variant ≠ 2 →
  Cache_Sum cache data variant = Cache_Sum cache data 0 ∧
  Sum data variant = Sum data 0 ∧
  ∃ digest cache',
    Cache_Sum cache data variant = Some (digest, cache') ∧
    Sum data variant = Some digest ∧
    length digest = 32%nat.
Proof.
  intros Hok H1 H2.
  split; [by apply Cache_Sum_other|].
  split; [unfold Sum; rewrite (Cache_Sum_other new_Cache data variant) by assumption; reflexivity|].
  destruct (Cache_Sum_total cache data variant (proj2 Hok))
    as (d & cache' & Hrun & _ & _ & Hlen); [done|].
  exists d, cache'. split; [done|]. split; [|done].
  by rewrite (Sum_eq cache), Hrun.
Qed.

(** C6, as the code has it. For every variant outside {0, 1, 2} and every
    input, [Sum] and [Cache.Sum] validate nothing and return a 32-byte
    digest, the one of variant 0. *)
Theorem Sum_invalid_variant_returns (cache : Cache) (data : slice)
    (variant : Z) :
  Cache_ok cache → variant ≠ 0 → variant ≠ 1 → variant ≠ 2 →
  ∃ digest cache',
    Cache_Sum cache data variant = Some (digest, cache') ∧
    Sum data variant = Some digest ∧
    Sum data 0 = Some digest ∧
    length digest = 32%nat.
Proof.
  intros Hok _ H1 H2.
  destruct (Cache_Sum_total cache data variant (proj2 Hok))
    as (d & cache' & Hrun & _ & _ & Hlen); [done|].
  exists d, cache'. split; [done|].
  assert (Sum data variant = Some d) as Hsum
    by by rewrite (Sum_eq cache), Hrun.
  split; [done|]. split; [|done].
  rewrite <- Hsum. unfold Sum. rewrite (Cache_Sum_other new_Cache data variant) by assumption.
  reflexivity.
Qed.

(** C7, the input on which the code leaves its documentation.  For a
    slice of 10 bytes with capacity 64 and variant 1, the slice expression
    [data[35:43]] is within the capacity, so [Sum] does not panic: it
    returns a 32-byte digest, whose tweak is made of [finalState[24]] and
    the eight bytes of the backing array behind the slice. *)
Theorem Sum_variant1_short_data_no_panic :
  (len (make_bytes 10 64) < 43)%nat ∧
  tweak_init (Keccak1600State (elements (make_bytes 10 64)))
             (make_bytes 10 64) 1
    = Some (Z.lxor (Keccak1600State (elements (make_bytes 10 64)) !!! 24%nat) 0) ∧
  ∃ digest, Sum (make_bytes 10 64) 1 = Some digest ∧ length digest = 32%nat.
Proof.
  split; [cbn; lia|]. split.
  - by rewrite tweak_init_1 by (vm_compute; lia).
  - destruct (Cache_Sum_total new_Cache (make_bytes 10 64) 1)
      as (d & cache' & Hrun & _ & _ & Hlen).
    + apply new_Cache_ok.
    + intros _. vm_compute. lia.
    + exists d. split; [|done]. unfold Sum. by rewrite Hrun.
Qed.
End Claims_Sum.

Lemma Cache_Sum_reuse_witness :
  Cache_ok new_Cache ∧ valid_call (slice_of [1; 2; 3]) 0 ∧
  valid_call (make_bytes 43 43) 1 ∧
  ∃ d2, @Sum stub_primitives (make_bytes 43 43) 1 = Some d2.
Proof.
  assert (Cache_ok new_Cache) as Hok
    by (split; [reflexivity|vm_compute; reflexivity]).
  assert (valid_call (slice_of [1; 2; 3]) 0) as Hv1.
  { split; [vm_compute; lia|]. split; [lia|intros; lia]. }
  assert (valid_call (make_bytes 43 43) 1) as Hv2.
  { split; [vm_compute; lia|]. split; [lia|intros; vm_compute; lia]. }
  split; [exact Hok|]. split; [exact Hv1|]. split; [exact Hv2|].
  destruct (@Cache_Sum_reuse stub_primitives new_Cache _ _ _ _ Hok Hv1 Hv2)
    as (_ & _ & d2 & _ & _ & _ & _ & _ & _ & Hsum & _).
  exists d2. exact Hsum.
Defined.

Lemma Cache_Sum_dispatch_witness :
  Cache_ok new_Cache ∧ valid_call (slice_of [1; 2; 3]) 2 ∧
  ∃ digest cache',
    @Cache_Sum stub_primitives new_Cache (slice_of [1; 2; 3]) 2
      = Some (digest, cache') ∧ length digest = 32%nat.
Proof.
  assert (Cache_ok new_Cache) as Hok
    by (split; [reflexivity|vm_compute; reflexivity]).
  assert (valid_call (slice_of [1; 2; 3]) 2) as Hv.
  { split; [vm_compute; lia|]. split; [lia|intros; lia]. }
  split; [exact Hok|]. split; [exact Hv|].
  destruct (@Cache_Sum_dispatch stub_primitives new_Cache _ _ Hok Hv)
    as (d & cache' & Hrun & Hrest).
  exists d, cache'. split; [exact Hrun|]. apply Hrest.
Defined.

Lemma Sum_other_variant_is_variant0_witness :
  Cache_ok new_Cache ∧ 7 ≠ 1 ∧ 7 ≠ 2 ∧
  @Sum stub_primitives (slice_of []) 7 = @Sum stub_primitives (slice_of []) 0.
Proof.
  assert (Cache_ok new_Cache) as Hok
    by (split; [reflexivity|vm_compute; reflexivity]).
  split; [exact Hok|]. split; [lia|]. split; [lia|].
  apply (@Sum_other_variant_is_variant0 stub_primitives new_Cache (slice_of []) 7 Hok);
    lia.
Defined.

Lemma Sum_invalid_variant_returns_witness :
  Cache_ok new_Cache ∧ (-1) ≠ 0 ∧ (-1) ≠ 1 ∧ (-1) ≠ 2 ∧
  ∃ digest, @Sum stub_primitives (slice_of []) (-1) = Some digest ∧
            length digest = 32%nat.
Proof.
  assert (Cache_ok new_Cache) as Hok
    by (split; [reflexivity|vm_compute; reflexivity]).
  split; [exact Hok|]. split; [lia|]. split; [lia|]. split; [lia|].
  destruct (@Sum_invalid_variant_returns stub_primitives new_Cache (slice_of [])
              (-1) Hok ltac:(lia) ltac:(lia) ltac:(lia))
    as (d & _ & _ & Hsum & _ & Hlen).
  exists d. split; [exact Hsum|exact Hlen].
Defined.

(** C6 as stated fails: with variant 3 and the empty input, [Sum] returns a
    32-byte digest instead of a failure. *)
Lemma Sum_invalid_variant_counterexample :
  ¬ (@Sum stub_primitives (slice_of []) 3 = None) ∧
  ∃ digest, @Sum stub_primitives (slice_of []) 3 = Some digest ∧
            length digest = 32%nat.
Proof.
  destruct (@Cache_Sum_total stub_primitives new_Cache (slice_of []) 3)
    as (d & cache' & Hrun & _ & _ & Hlen).
  - apply new_Cache_ok.
  - intros; lia.
  - unfold Sum. rewrite Hrun. split; [discriminate|].
    exists d. split; [reflexivity|exact Hlen].
Qed.

(** *** Variant 1 and the length of the input *)

Section Variant1_input.
Context `{Primitives}.

(** X2. With variant 1, [Cache.Sum] panics exactly when the capacity of [data]
    is below 43: the only check on the input is the bound of the slice
    expression [data[35:43]]. *)
Theorem Cache_Sum_variant1_panics_iff_cap (cache : Cache) (data : slice) :
  Cache_ok cache →
  Cache_Sum cache data 1 = None ↔ (cap data < 43)%nat.
Proof.
  intros [_ Hsp]. split.
  - intros Hnone.
    destruct (decide (cap data < 43)%nat) as [|Hcap]; [assumption|exfalso].
    destruct (Cache_Sum_total cache data 1 Hsp) as (d & cache' & Hrun & _);
      [intros _; lia|].
    rewrite Hrun in Hnone. discriminate.
  - apply Cache_Sum_panic.
Qed.

(** X3. With variant 1 and at least 43 bytes of input, the tweak is
    [finalState[24]] XOR the little-endian [uint64] made of the bytes
    [data[35] .. data[42]]. *)
Theorem tweak_init_variant1_data (fs : list Z) (data : slice) :
  slice_ok data → (43 <= len data)%nat →
  tweak_init fs data 1 =
    Some (Z.lxor (fs !!! 24%nat)
      (Z.lor (elements data !!! 35%nat)
      (Z.lor (Z.shiftl (elements data !!! 36%nat) 8)
      (Z.lor (Z.shiftl (elements data !!! 37%nat) 16)
      (Z.lor (Z.shiftl (elements data !!! 38%nat) 24)
      (Z.lor (Z.shiftl (elements data !!! 39%nat) 32)
      (Z.lor (Z.shiftl (elements data !!! 40%nat) 40)
      (Z.lor (Z.shiftl (elements data !!! 41%nat) 48)
             (Z.shiftl (elements data !!! 42%nat) 56))))))))).
Proof.
  intros Hok Hlen. unfold slice_ok in Hok.
  rewrite tweak_init_1 by lia.
  unfold elements. rewrite !lookup_total_take_lt by lia. reflexivity.
Qed.
End Variant1_input.

Lemma Cache_Sum_variant1_panics_iff_cap_witness :
  Cache_ok new_Cache ∧
  (@Cache_Sum stub_primitives new_Cache (make_bytes 10 20) 1 = None
   ↔ (cap (make_bytes 10 20) < 43)%nat).
Proof.
  assert (Cache_ok new_Cache) as Hok
    by (split; [reflexivity|vm_compute; reflexivity]).
  split; [exact Hok|].
  exact (@Cache_Sum_variant1_panics_iff_cap stub_primitives new_Cache
           (make_bytes 10 20) Hok).
Defined.

Lemma tweak_init_variant1_data_witness :
  slice_ok (make_bytes 43 43) ∧ (43 <= len (make_bytes 43 43))%nat ∧
  tweak_init (replicate 25 0) (make_bytes 43 43) 1 = Some 0.
Proof.
  assert (slice_ok (make_bytes 43 43)) as Hok by (vm_compute; lia).
  assert (43 <= len (make_bytes 43 43))%nat as Hlen by (vm_compute; lia).
  split; [exact Hok|]. split; [exact Hlen|].
  rewrite (tweak_init_variant1_data (replicate 25 0) (make_bytes 43 43) Hok Hlen).
  reflexivity.
Defined.

(** *** The scratchpad initialisation, pass by pass *)

Section Init.
Context `{Primitives}.

Lemma length_rounds_pass rkeys : ∀ blocks,
  length (rounds_pass rkeys blocks) = length blocks.
Proof.
  fix IH 1. intros [|x0 [|x1 rest]]; [done|done|].
  cbn [rounds_pass length]. by rewrite IH.
Qed.

Lemma rounds_loop_pass rkeys blocks :
  length blocks = 16%nat →
  for_loop (turns 0 16 2) 0 2 (λ j x, CnRounds_at x j rkeys) blocks
  = Some (rounds_pass rkeys blocks).
Proof.
  intros Hlen. do 17 (destruct blocks as [|? blocks]; try done).
Qed.

Lemma init_chunk_pass rkeys i blocks sp :
  length blocks = 16%nat → 0 <= i → i + 16 <= Z.of_nat (length sp) →
  init_chunk rkeys i (blocks, sp)
  = Some (rounds_pass rkeys blocks,
          list_inserts (Z.to_nat i) (rounds_pass rkeys blocks) sp).
Proof.
  intros Hbl Hi Hlen. unfold init_chunk.
  rewrite rounds_loop_pass by done. cbn [mbind option_bind].
  unfold copy_at. by rewrite decide_True by lia.
Qed.

Lemma init_loop_pass n rkeys blocks sp :
  Z.of_nat n <= 16384 → length blocks = 16%nat → sp_ok sp →
  ∃ sp', for_loop n 0 16 (init_chunk rkeys) (blocks, sp)
           = Some (Nat.iter n (rounds_pass rkeys) blocks, sp') ∧
    sp_ok sp' ∧
    (∀ k j : nat, (k < n)%nat → (j < 16)%nat →
       sp' !! (16 * k + j)%nat
       = Nat.iter (S k) (rounds_pass rkeys) blocks !! j) ∧
    (∀ m : nat, (16 * n <= m)%nat → sp' !! m = sp !! m).
Proof.
  intros Hn Hbl Hsp.
  destruct (for_loop_total
    (λ k (s : list Z * list Z),
       s.1 = Nat.iter k (rounds_pass rkeys) blocks ∧ length s.1 = 16%nat ∧
       sp_ok s.2 ∧
       (∀ k' j : nat, (k' < k)%nat → (j < 16)%nat →
          s.2 !! (16 * k' + j)%nat
          = Nat.iter (S k') (rounds_pass rkeys) blocks !! j) ∧
       (∀ m : nat, (16 * k <= m)%nat → s.2 !! m = sp !! m))
    (init_chunk rkeys) n 0 16 (blocks, sp))
    as ([bl' sp'] & Hrun & Hbl' & _ & Hsp' & Hchunks & Hrest).
  - cbn [fst snd]. repeat split; try done. intros; lia.
  - intros k [bl sp1] Hk (Hbl1 & Hlen1 & Hsp1 & Hchunks & Hrest).
    cbn [fst snd] in *. apply sp_ok_words in Hsp1 as Hl1.
    rewrite init_chunk_pass by (done || lia).
    eexists. split; [done|]. cbn [fst snd].
    replace (Z.to_nat (0 + Z.of_nat k * 16)) with (16 * k)%nat by lia.
    split; [by rewrite Hbl1|].
    split; [by rewrite length_rounds_pass|].
    split; [unfold sp_ok; by rewrite length_inserts|].
    split.
    + intros k' j Hk' Hj. destruct (decide (k' = k)) as [->|Hne].
      * rewrite list_lookup_inserts
          by (rewrite ?length_rounds_pass; lia).
        replace (16 * k + j - 16 * k)%nat with j by lia.
        cbn [Nat.iter]. by rewrite Hbl1.
      * rewrite list_lookup_inserts_lt by lia. apply Hchunks; lia.
    + intros m Hm. rewrite list_lookup_inserts_ge
        by (rewrite length_rounds_pass; lia).
      apply Hrest. lia.
  - cbn [fst snd] in *. subst bl'. eauto.
Qed.
End Init.

(** *** The result calculation, chunk by chunk *)

Lemma blocks_index_values fs sp r (j : nat) :
  length fs = 25%nat → sp_ok sp → blocks_ok r → (j < 16)%nat →
  blocks_index fs sp r (Z.of_nat j) = Some (blocks_values fs sp r !!! j).
Proof.
  intros Hfs Hsp Hr Hj. apply sp_ok_words in Hsp.
  unfold blocks_index, blocks_values, load.
  destruct r as [|i]; rewrite decide_True by lia.
  - rewrite lookup_total_take_lt, lookup_total_drop by lia.
    replace (Z.to_nat (8 + Z.of_nat j)) with (8 + j)%nat by lia.
    apply list_lookup_lookup_total_lt. lia.
  - destruct Hr as [Hi Hi']. change SCRATCHPAD_WORDS with 262144 in Hi'.
    rewrite lookup_total_take_lt, lookup_total_drop by lia.
    replace (Z.to_nat (i + Z.of_nat j)) with (Z.to_nat i + j)%nat by lia.
    apply list_lookup_lookup_total_lt. lia.
Qed.

Lemma blocks_index_total fs sp r (n : nat) j :
  j = Z.of_nat n →
  length fs = 25%nat → sp_ok sp → blocks_ok r → (n < 16)%nat →
  blocks_index fs sp r j = Some (blocks_values fs sp r !!! n).
Proof. intros ->. apply blocks_index_values. Qed.

Lemma length_blocks_values fs sp r :
  length fs = 25%nat → sp_ok sp → blocks_ok r →
  length (blocks_values fs sp r) = 16%nat.
Proof.
  intros Hfs Hsp Hr. apply sp_ok_words in Hsp. unfold blocks_values.
  destruct r as [|i]; rewrite length_take, length_drop; [lia|].
  destruct Hr as [Hi Hi']. change SCRATCHPAD_WORDS with 262144 in Hi'. lia.
Qed.

(** Writes outside the words [blocks] refers to do not change them. *)
Lemma blocks_values_insert fs sp r i (n : nat) x :
  blocks_before r i → (Z.to_nat i <= n)%nat →
  blocks_values fs (<[n := x]> sp) r = blocks_values fs sp r.
Proof.
  intros Hr Hn. destruct r as [|i']; [done|]. destruct Hr as [Hi Hi'].
  unfold blocks_values. apply list_eq. intros j.
  destruct (decide (j < 16)%nat).
  - rewrite !lookup_take_lt, !lookup_drop by done.
    apply list_lookup_insert_ne. lia.
  - by rewrite !lookup_take_ge by lia.
Qed.

Section Final.
Context `{Primitives}.

Lemma rounds_pass_lookup rkeys : ∀ (m : nat) (l : list Z),
  (2 * m + 1 < length l)%nat →
  rounds_pass rkeys l !! (2 * m)%nat
    = Some (cnRounds (l !!! (2 * m)%nat, l !!! (2 * m + 1)%nat) rkeys).1 ∧
  rounds_pass rkeys l !! (2 * m + 1)%nat
    = Some (cnRounds (l !!! (2 * m)%nat, l !!! (2 * m + 1)%nat) rkeys).2.
Proof.
  induction m as [|m IH]; intros [|x0 [|x1 l]] Hlen; cbn [length] in Hlen;
    try lia.
  - done.
  - replace (2 * S m)%nat with (S (S (2 * m))) by lia.
    replace (S (S (2 * m)) + 1)%nat with (S (S (2 * m + 1))) by lia.
    cbn [rounds_pass]. apply (IH l). lia.
Qed.

Lemma load_total sp (n : nat) i :
  Z.to_nat i = n → (n < length sp)%nat → load sp i = Some (sp !!! n).
Proof.
  intros <- Hn. unfold load. by apply list_lookup_lookup_total_lt.
Qed.

Lemma store_nat sp (n : nat) i v :
  Z.to_nat i = n → (n < length sp)%nat → store sp i v = Some (<[n := v]> sp).
Proof. intros <- Hn. unfold store. by rewrite decide_True. Qed.

Lemma CnRounds_at_pass x (n : nat) j rkeys :
  Z.to_nat j = n → Z.to_nat (j + 1) = S n → (S n < length x)%nat →
  CnRounds_at x j rkeys
  = Some (<[S n := (cnRounds (x !!! n, x !!! S n) rkeys).2]>
            (<[n := (cnRounds (x !!! n, x !!! S n) rkeys).1]> x)).
Proof.
  intros Hn Hn1 Hlen. unfold CnRounds_at.
  rewrite (load_total x n j) by (done || lia). cbn [mbind option_bind].
  rewrite (load_total x (S n) (j + 1)) by (done || lia).
  cbn [mbind option_bind].
  rewrite (store_nat x n j) by (done || lia). cbn [mbind option_bind].
  by rewrite (store_nat _ (S n) (j + 1))
    by (rewrite ?length_insert; done || lia).
Qed.

(** One block of the result calculation. *)
Lemma final_block_pass fs rkeys r i (m : nat) sp :
  length fs = 25%nat → sp_ok sp → blocks_ok r → blocks_before r i →
  0 <= i → i + 16 <= SCRATCHPAD_WORDS → (m < 8)%nat →
  let p := blocks_values fs sp r in
  let n := (Z.to_nat i + 2 * m)%nat in
  let y := cnRounds (Z.lxor (sp !!! n) (p !!! (2 * m)%nat),
                     Z.lxor (sp !!! S n) (p !!! (2 * m + 1)%nat)) rkeys in
  final_block fs rkeys r i (0 + Z.of_nat m * 2) sp
  = Some (<[S n := y.2]> (<[n := y.1]> sp)).
Proof.
  intros Hfs Hsp Hr Hb Hi Hi' Hm p n y. unfold final_block.
  change SCRATCHPAD_WORDS with 262144 in Hi'.
  apply sp_ok_words in Hsp as Hl.
  set (j := 0 + Z.of_nat m * 2).
  assert (Hj : j = Z.of_nat (2 * m)) by (unfold j; lia).
  assert (Hj1 : j + 1 = Z.of_nat (2 * m + 1)) by (unfold j; lia).
  assert (Hn0 : Z.to_nat (i + j) = n) by (unfold n, j; lia).
  assert (Hn1 : Z.to_nat (i + j + 1) = S n) by (unfold n, j; lia).
  assert (Hlt : (S n < length sp)%nat) by (unfold n; lia).
  rewrite (load_total sp n (i + j)) by (done || lia). cbn [mbind option_bind].
  rewrite (blocks_index_total fs sp r (2 * m) j) by (done || lia).
  cbn [mbind option_bind]. fold p.
  rewrite (store_nat sp n (i + j)) by (done || lia). cbn [mbind option_bind].
  set (sp1 := <[n := Z.lxor (sp !!! n) (p !!! (2 * m)%nat)]> sp).
  assert (sp_ok sp1) as Hsp1 by by apply sp_ok_insert.
  assert (Hl1 : length sp1 = length sp) by apply length_insert.
  rewrite (load_total sp1 (S n) (i + j + 1)) by (done || lia). cbn [mbind option_bind].
  rewrite (blocks_index_total fs sp1 r (2 * m + 1) (j + 1)) by (done || lia).
  cbn [mbind option_bind].
  assert (Hp : blocks_values fs sp1 r = p)
    by (apply (blocks_values_insert fs sp r i); [done|unfold n; lia]).
  rewrite Hp.
  rewrite (store_nat sp1 (S n) (i + j + 1)) by (done || lia). cbn [mbind option_bind].
  rewrite (CnRounds_at_pass _ n (i + j)) by (rewrite ?length_insert; done || lia).
  f_equal.
  rewrite list_lookup_total_insert_eq by (rewrite ?length_insert; lia).
  rewrite (list_lookup_total_insert_ne _ (S n) n) by lia.
  unfold sp1 at 1 2 3.
  rewrite list_lookup_total_insert_eq by lia.
  rewrite (list_lookup_total_insert_ne sp n (S n)) by lia.
  fold y.
  rewrite (list_insert_insert_ne _ n (S n)) by lia.
  rewrite list_insert_insert_eq.
  unfold sp1. rewrite list_insert_insert_eq.
  by rewrite (list_lookup_total_insert_ne sp n (S n)) by lia.
Qed.
End Final.

Lemma zip_with_lookup_total (f : Z → Z → Z) (l k : list Z) (j : nat) :
  (j < length l)%nat → (j < length k)%nat →
  zip_with f l k !!! j = f (l !!! j) (k !!! j).
Proof.
  intros Hl Hk. apply list_lookup_total_correct.
  rewrite lookup_zip_with.
  rewrite (list_lookup_lookup_total_lt l j), (list_lookup_lookup_total_lt k j)
    by done.
  done.
Qed.

Lemma even_or_odd (j : nat) : ∃ m, j = (2 * m)%nat ∨ j = (2 * m + 1)%nat.
Proof.
  exists (j / 2)%nat. pose proof (Nat.div_mod_eq j 2).
  pose proof (Nat.mod_upper_bound j 2). lia.
Qed.

Section Final2.
Context `{Primitives}.

(** The inner loop of one turn of the result calculation: the chunk at
    [i] becomes the pass of [cnRounds] over the chunk XORed with the
    sixteen words [blocks] refers to, which lie before the chunk. *)
Lemma final_chunk_pass fs rkeys r i sp :
  length fs = 25%nat → sp_ok sp → blocks_ok r → blocks_before r i →
  0 <= i → i + 16 <= SCRATCHPAD_WORDS →
  final_chunk fs rkeys i (sp, r)
  = Some (list_inserts (Z.to_nat i)
            (rounds_pass rkeys
               (zip_with Z.lxor (take 16 (drop (Z.to_nat i) sp))
                                (blocks_values fs sp r))) sp,
          blocks_scratchpad i).
Proof.
  intros Hfs Hsp Hr Hb Hi Hi'. unfold final_chunk. rewrite turns_inner.
  apply sp_ok_words in Hsp as Hl.
  change SCRATCHPAD_WORDS with 262144 in Hi'.
  set (p := blocks_values fs sp r).
  set (n := Z.to_nat i).
  set (chunk := take 16 (drop n sp)).
  assert (Hchunk : length chunk = 16%nat)
    by (unfold chunk, n; rewrite length_take, length_drop; lia).
  assert (Hp : length p = 16%nat) by by apply length_blocks_values.
  set (x := zip_with Z.lxor chunk p).
  assert (Hx : length x = 16%nat)
    by (unfold x; rewrite length_zip_with; lia).
  destruct (for_loop_total
    (λ m s, sp_ok s ∧ blocks_values fs s r = p ∧
       (∀ k, (k < 2 * m)%nat →
             s !! (n + k)%nat = rounds_pass rkeys x !! k) ∧
       (∀ k, (k < n ∨ n + 2 * m <= k)%nat → s !! k = sp !! k))
    (final_block fs rkeys r i) 8 0 2 sp)
    as (sp' & -> & Hsp' & _ & Hin & Hout).
  - repeat split; try done. intros; lia.
  - intros m s Hm (Hs & Hps & Hin & Hout).
    rewrite final_block_pass by done. fold n. rewrite Hps.
    eexists. split; [done|].
    apply sp_ok_words in Hs as Hls.
    split; [by do 2 apply sp_ok_insert|].
    split.
    { rewrite (blocks_values_insert fs _ r i) by (done || lia).
      rewrite (blocks_values_insert fs _ r i) by (done || lia). done. }
    assert (Hs0 : s !!! (n + 2 * m)%nat = chunk !!! (2 * m)%nat).
    { unfold chunk. rewrite lookup_total_take_lt, lookup_total_drop by lia.
      rewrite !list_lookup_total_alt. f_equal. apply Hout. lia. }
    assert (Hs1 : s !!! S (n + 2 * m)%nat = chunk !!! (2 * m + 1)%nat).
    { unfold chunk. rewrite lookup_total_take_lt, lookup_total_drop by lia.
      rewrite !list_lookup_total_alt. f_equal.
      replace (n + (2 * m + 1))%nat with (S (n + 2 * m)) by lia.
      apply Hout. lia. }
    rewrite Hs0, Hs1.
    rewrite <- !(zip_with_lookup_total Z.lxor chunk p) by lia. fold x.
    destruct (rounds_pass_lookup rkeys m x ltac:(lia)) as [Hy1 Hy2].
    split.
    + intros k Hk.
      destruct (decide (k = 2 * m)%nat) as [->|Hk0];
        [|destruct (decide (k = 2 * m + 1)%nat) as [->|Hk1]].
      * rewrite list_lookup_insert_ne by lia.
        rewrite list_lookup_insert_eq by lia. by rewrite Hy1.
      * replace (n + (2 * m + 1))%nat with (S (n + 2 * m)) by lia.
        rewrite list_lookup_insert_eq by (rewrite length_insert; lia).
        by rewrite Hy2.
      * rewrite !list_lookup_insert_ne by lia. apply Hin. lia.
    + intros k Hk. rewrite !list_lookup_insert_ne by lia. apply Hout. lia.
  - cbn [mbind option_bind]. apply sp_ok_words in Hsp' as Hl'.
    rewrite decide_True by lia. do 2 f_equal.
    apply list_eq. intros k.
    destruct (decide (k < n)%nat);
      [|destruct (decide (k < n + 16)%nat)].
    + rewrite list_lookup_inserts_lt by lia. apply Hout. lia.
    + rewrite list_lookup_inserts by (rewrite ?length_rounds_pass, ?Hx; lia).
      replace k with (n + (k - n))%nat at 1 by lia. apply Hin. lia.
    + rewrite list_lookup_inserts_ge by (rewrite ?length_rounds_pass, ?Hx; lia).
      apply Hout. lia.
Qed.

Lemma final_out_eq rkeys prev sp k :
  final_out rkeys prev sp k
  = rounds_pass rkeys
      (zip_with Z.lxor (take 16 (drop (16 * k) sp))
         (match k with
          | O => prev
          | S k' => final_out rkeys prev sp k'
          end)).
Proof. by destruct k. Qed.

Lemma length_final_out rkeys prev sp : ∀ k,
  length prev = 16%nat → (16 * k + 16 <= length sp)%nat →
  length (final_out rkeys prev sp k) = 16%nat.
Proof.
  induction k as [|k IH]; intros Hprev Hlen;
    rewrite final_out_eq, length_rounds_pass, length_zip_with, length_take,
      length_drop.
  - lia.
  - rewrite IH by (done || lia). lia.
Qed.

(** The outer loop of the result calculation, for [n] turns. *)
Lemma final_loop_pass n fs rkeys sp :
  (0 < n)%nat → Z.of_nat n <= 16384 → length fs = 25%nat → sp_ok sp →
  ∃ sp', for_loop n 0 16 (final_chunk fs rkeys) (sp, blocks_finalState)
           = Some (sp', blocks_scratchpad (16 * (Z.of_nat n - 1))) ∧
    sp_ok sp' ∧
    (∀ k j : nat, (k < n)%nat → (j < 16)%nat →
       sp' !! (16 * k + j)%nat
       = final_out rkeys (take 16 (drop 8 fs)) sp k !! j) ∧
    (∀ m : nat, (16 * n <= m)%nat → sp' !! m = sp !! m).
Proof.
  intros Hn0 Hn Hfs Hsp. pose proof (sp_ok_words sp Hsp) as Hlsp.
  destruct (for_loop_total
    (λ k (s : list Z * blocks_ref),
       sp_ok s.1 ∧
       s.2 = match k with
             | O => blocks_finalState
             | S k' => blocks_scratchpad (16 * Z.of_nat k')
             end ∧
       (∀ k' j : nat, (k' < k)%nat → (j < 16)%nat →
          s.1 !! (16 * k' + j)%nat
          = final_out rkeys (take 16 (drop 8 fs)) sp k' !! j) ∧
       (∀ m : nat, (16 * k <= m)%nat → s.1 !! m = sp !! m))
    (final_chunk fs rkeys) n 0 16 (sp, blocks_finalState))
    as ([sp' r'] & Hrun & Hsp' & Hr' & Hchunks & Hrest).
  - cbn [fst snd]. repeat split; try done. intros; lia.
  - intros k [s r] Hk (Hs & Hr & Hchunks & Hrest). cbn [fst snd] in *.
    apply sp_ok_words in Hs as Hls.
    assert (Hrok : blocks_ok r ∧ blocks_before r (0 + Z.of_nat k * 16)).
    { subst r. destruct k as [|k']; [done|]. cbn [blocks_ok blocks_before].
      change SCRATCHPAD_WORDS with 262144. lia. }
    destruct Hrok as [Hrok Hrb].
    rewrite final_chunk_pass
      by (done || (change SCRATCHPAD_WORDS with 262144; lia)).
    eexists. split; [done|]. cbn [fst snd].
    replace (Z.to_nat (0 + Z.of_nat k * 16)) with (16 * k)%nat by lia.
    split; [unfold sp_ok; by rewrite length_inserts|].
    split; [f_equal; lia|].
    assert (Hprev : blocks_values fs s r
                    = match k with
                      | O => take 16 (drop 8 fs)
                      | S k' => final_out rkeys (take 16 (drop 8 fs)) sp k'
                      end).
    { subst r. destruct k as [|k']; [done|]. cbn [blocks_values].
      replace (Z.to_nat (16 * Z.of_nat k')) with (16 * k')%nat by lia.
      apply list_eq. intros j. destruct (decide (j < 16)%nat).
      - rewrite lookup_take_lt, lookup_drop by done. apply Hchunks; lia.
      - rewrite lookup_take_ge by lia. symmetry. apply lookup_ge_None_2.
        rewrite length_final_out; [lia| |lia].
        rewrite length_take, length_drop. lia. }
    assert (Hcur : take 16 (drop (16 * k) s) = take 16 (drop (16 * k) sp)).
    { apply list_eq. intros j. destruct (decide (j < 16)%nat).
      - rewrite !lookup_take_lt, !lookup_drop by done. apply Hrest. lia.
      - by rewrite !lookup_take_ge by lia. }
    rewrite Hprev, Hcur.
    assert (Hout : rounds_pass rkeys
               (zip_with Z.lxor (take 16 (drop (16 * k) sp))
                  match k with
                  | O => take 16 (drop 8 fs)
                  | S k' => final_out rkeys (take 16 (drop 8 fs)) sp k'
                  end)
             = final_out rkeys (take 16 (drop 8 fs)) sp k)
      by (by rewrite (final_out_eq _ _ _ k)).
    rewrite Hout.
    assert (Hlen : length (final_out rkeys (take 16 (drop 8 fs)) sp k)
                   = 16%nat).
    { apply length_final_out; [|lia]. rewrite length_take, length_drop. lia. }
    split.
    + intros k' j Hk' Hj. destruct (decide (k' = k)) as [->|Hne].
      * rewrite list_lookup_inserts by lia. f_equal. lia.
      * rewrite list_lookup_inserts_lt by lia. apply Hchunks; lia.
    + intros m Hm. rewrite list_lookup_inserts_ge by lia. apply Hrest. lia.
  - cbn [fst snd] in *. subst r'. exists sp'.
    destruct n as [|n']; [lia|].
    split; [rewrite Hrun; do 3 f_equal; lia|]. done.
Qed.
End Final2.

Lemma blocks_read_values fs sp r :
  length fs = 25%nat → sp_ok sp → blocks_ok r →
  mapM (blocks_index fs sp r) (Z.of_nat <$> seq 0 16)
  = Some (blocks_values fs sp r).
Proof.
  intros Hfs Hsp Hr. apply mapM_Some, Forall2_fmap_l.
  apply Forall2_same_length_lookup_2.
  - rewrite length_seq. symmetry. by apply length_blocks_values.
  - intros j x y Hx Hy. apply lookup_seq in Hx as [-> Hj]. cbn.
    rewrite blocks_index_values by done. f_equal.
    apply list_lookup_total_correct. done.
Qed.

Section Extra_phases.
Context `{Primitives}.

(** X4. The scratchpad initialisation returns and overwrites the whole
    scratchpad: its word [m] is word [m mod 16] of the blocks after
    [m / 16 + 1] passes of [cnRounds] over [blocks], and [blocks] is left as
    it is after the last pass. *)
Theorem scratchpad_init_contents (rkeys blocks sp : list Z) :
  length blocks = 16%nat → sp_ok sp →
  ∃ sp',
    for_loop (turns 0 SCRATCHPAD_WORDS 16) 0 16 (init_chunk rkeys)
             (blocks, sp)
    = Some (Nat.iter (turns 0 SCRATCHPAD_WORDS 16) (rounds_pass rkeys) blocks,
            sp') ∧
    sp_ok sp' ∧
    ∀ m : nat, (m < length sp')%nat →
      sp' !! m
      = Nat.iter (S (m / 16)) (rounds_pass rkeys) blocks !! (m mod 16)%nat.
Proof.
  intros Hbl Hsp. pose proof turns_outer as Hn. revert Hn.
  generalize (turns 0 SCRATCHPAD_WORDS 16). intros n Hn.
  destruct (init_loop_pass n rkeys blocks sp) as (sp' & Hrun & Hsp' & Hin & _);
    [lia|done|done|].
  exists sp'. split; [done|]. split; [done|].
  intros m Hm. apply sp_ok_words in Hsp'.
  pose proof (Nat.div_mod_eq m 16) as Hdm.
  pose proof (Nat.mod_upper_bound m 16 ltac:(lia)) as Hmod.
  rewrite Hdm at 1. apply Hin; lia.
Qed.

(** X5. The result calculation returns and is a chain over the chunks of
    sixteen words: chunk [k] becomes the pass of [cnRounds] over the chunk
    XORed with the new chunk [k - 1] (with [finalState[8:24]] for the first
    chunk), read through [blocks], which refers to the scratchpad itself;
    at the end [blocks] is the last chunk of the scratchpad. *)
Theorem result_calculation_chain (fs rkeys sp : list Z) :
  length fs = 25%nat → sp_ok sp →
  ∃ sp',
    for_loop (turns 0 SCRATCHPAD_WORDS 16) 0 16 (final_chunk fs rkeys)
             (sp, blocks_finalState)
    = Some (sp', blocks_scratchpad (SCRATCHPAD_WORDS - 16)) ∧
    sp_ok sp' ∧
    (∀ m : nat, (m < length sp')%nat →
       sp' !! m
       = final_out rkeys (take 16 (drop 8 fs)) sp (m / 16) !! (m mod 16)%nat) ∧
    mapM (blocks_index fs sp' (blocks_scratchpad (SCRATCHPAD_WORDS - 16)))
         (Z.of_nat <$> seq 0 16)
    = Some (drop (Z.to_nat (SCRATCHPAD_WORDS - 16)) sp').
Proof.
  intros Hfs Hsp. pose proof turns_outer as Hn. revert Hn.
  generalize (turns 0 SCRATCHPAD_WORDS 16). intros n Hn.
  destruct (final_loop_pass n fs rkeys sp) as (sp' & Hrun & Hsp' & Hin & _);
    [lia|lia|done|done|].
  replace (16 * (Z.of_nat n - 1)) with (SCRATCHPAD_WORDS - 16) in Hrun
    by (change SCRATCHPAD_WORDS with 262144; lia).
  exists sp'. split; [done|]. split; [done|].
  pose proof (sp_ok_words sp' Hsp') as Hl. split.
  - intros m Hm.
    pose proof (Nat.div_mod_eq m 16) as Hdm.
    pose proof (Nat.mod_upper_bound m 16 ltac:(lia)) as Hmod.
    rewrite Hdm at 1. apply Hin; lia.
  - rewrite blocks_read_values; [|done|done|].
    + cbn [blocks_values]. f_equal. apply take_ge.
      rewrite length_drop. change SCRATCHPAD_WORDS with 262144. lia.
    + cbn [blocks_ok]. change SCRATCHPAD_WORDS with 262144. lia.
Qed.

(** X6. [Cache.Sum] leaves the two arrays of the cache related: the state it
    permutes at the end is the Keccak state of the input with the words
    8..23 replaced by the last sixteen words of the scratchpad as the call
    leaves it; the words 0..7 and 24 are those of the absorbed input. *)
Theorem Cache_Sum_final_state (cache : Cache) (data : slice) (variant : Z) :
  Cache_ok cache → (variant = 1 → (43 <= cap data)%nat) →
  ∃ digest cache',
    Cache_Sum cache data variant = Some (digest, cache') ∧
    finalState cache'
    = Keccak1600Permute
        (list_inserts 8
           (drop (Z.to_nat (SCRATCHPAD_WORDS - 16)) (scratchpad cache'))
           (Keccak1600State (elements data))).
Proof.
  intros [_ Hsp] Hv. unfold Cache_Sum. cbv zeta.
  pose proof turns_outer as Hn. revert Hn.
  generalize (turns 0 SCRATCHPAD_WORDS 16). intros n Hn.
  generalize (turns 0 524288 1). intros m.
  set (fs := Keccak1600State (elements data)).
  assert (length fs = 25%nat) as Hfs by apply Keccak1600State_length.
  destruct (tweak_init_Some fs data variant Hv) as [tweak ->].
  cbn [mbind option_bind].
  match goal with |- context [for_loop _ 0 16 (init_chunk ?rk) (?bl, _)] =>
    destruct (init_loop_Some n rk bl (scratchpad cache) Hn)
      as ([bl1 sp1] & -> & Hbl1 & Hsp1);
      [by rewrite length_inserts|done|]
  end.
  cbn [mbind option_bind fst snd] in *.
  match goal with |- context [for_loop _ 0 1 _ ?s0] =>
    destruct (memory_loop_Some m variant tweak s0 Hsp1) as (s & -> & Hs)
  end.
  cbn [mbind option_bind].
  match goal with |- context [for_loop _ 0 16 (final_chunk fs ?rk) _] =>
    destruct (final_loop_pass n fs rk (words s))
      as (sp2 & -> & Hsp2 & _); [lia|lia|done|done|]
  end.
  cbn [mbind option_bind fst snd].
  pose proof (sp_ok_words sp2 Hsp2) as Hl2.
  rewrite blocks_read_values;
    [|done|done|cbn [blocks_ok]; change SCRATCHPAD_WORDS with 262144; lia].
  cbn [mbind option_bind].
  eexists _, _. split; [reflexivity|]. cbn [finalState scratchpad].
  do 2 f_equal. cbn [blocks_values].
  replace (16 * (Z.of_nat n - 1)) with (SCRATCHPAD_WORDS - 16)
    by (change SCRATCHPAD_WORDS with 262144; lia).
  apply take_ge. rewrite length_drop.
  change SCRATCHPAD_WORDS with 262144. lia.
Qed.
End Extra_phases.

Lemma scratchpad_init_contents_witness :
  length (replicate 16 0) = 16%nat ∧ sp_ok zero_scratchpad ∧
  ∃ r, for_loop (turns 0 SCRATCHPAD_WORDS 16) 0 16
         (@init_chunk stub_primitives (replicate 40 0))
         (replicate 16 0, zero_scratchpad) = Some r.
Proof.
  assert (length (replicate 16 0) = 16%nat) as Hbl by reflexivity.
  assert (sp_ok zero_scratchpad) as Hok by (vm_compute; reflexivity).
  split; [exact Hbl|]. split; [exact Hok|].
  destruct (@scratchpad_init_contents stub_primitives (replicate 40 0)
              (replicate 16 0) zero_scratchpad Hbl Hok) as (sp' & Hrun & _).
  eexists. exact Hrun.
Defined.

Lemma result_calculation_chain_witness :
  length (replicate 25 0) = 25%nat ∧ sp_ok zero_scratchpad ∧
  ∃ sp', for_loop (turns 0 SCRATCHPAD_WORDS 16) 0 16
           (@final_chunk stub_primitives (replicate 25 0) (replicate 40 0))
           (zero_scratchpad, blocks_finalState)
         = Some (sp', blocks_scratchpad (SCRATCHPAD_WORDS - 16)).
Proof.
  assert (length (replicate 25 0) = 25%nat) as Hfs by reflexivity.
  assert (sp_ok zero_scratchpad) as Hok by (vm_compute; reflexivity).
  split; [exact Hfs|]. split; [exact Hok|].
  destruct (@result_calculation_chain stub_primitives (replicate 25 0)
              (replicate 40 0) zero_scratchpad Hfs Hok) as (sp' & Hrun & _).
  exists sp'. exact Hrun.
Defined.

Lemma Cache_Sum_final_state_witness :
  Cache_ok new_Cache ∧ (2 = 1 → (43 <= cap (make_bytes 3 3))%nat) ∧
  ∃ digest cache',
    @Cache_Sum stub_primitives new_Cache (make_bytes 3 3) 2
    = Some (digest, cache').
Proof.
  assert (Cache_ok new_Cache) as Hok
    by (split; [reflexivity|vm_compute; reflexivity]).
  assert (2 = 1 → (43 <= cap (make_bytes 3 3))%nat) as Hv
    by (intros; lia).
  split; [exact Hok|]. split; [exact Hv|].
  destruct (@Cache_Sum_final_state stub_primitives new_Cache
              (make_bytes 3 3) 2 Hok Hv) as (d & cache' & Hrun & _).
  exists d, cache'. exact Hrun.
Defined.

(** *** The reach of a shuffle and of a turn *)

Lemma chunk_base_line addr ch :
  0 <= addr → addr mod 2 = 0 →
  0 <= chunk_base addr ch ∧ chunk_base addr ch / 8 = addr / 8 ∧
  (chunk_base addr ch + 1) / 8 = addr / 8 ∧
  chunk_base addr ch mod 2 = 0 ∧ chunk_base addr ch ≠ addr.
Proof.
  intros Haddr Heven. rewrite chunk_base_off.
  destruct (even_mod8 addr Heven) as [Hm | [Hm | [Hm | Hm]]]; rewrite Hm;
    destruct ch; vm_compute chunk_off; zlia.
Qed.

Lemma chunk_base_inj addr ch ch' :
  0 <= addr → addr mod 2 = 0 →
  chunk_base addr ch = chunk_base addr ch' → ch = ch'.
Proof.
  intros Haddr Heven. rewrite !chunk_base_off.
  destruct (even_mod8 addr Heven) as [Hm | [Hm | [Hm | Hm]]]; rewrite Hm;
    destruct ch, ch'; vm_compute chunk_off; intros; (done || lia).
Qed.

(** X7. In variant 2 the three chunks of a shuffle are the three other cells of
    the aligned 64-byte group of the addressed cell: the shuffle succeeds,
    leaves the addressed cell as it is and changes no word outside the
    group. *)
Theorem VARIANT2_SHUFFLE_line (sp : list Z) (v : Z * Z) :
  sp_ok sp →
  ∃ sp', VARIANT2_SHUFFLE sp (TO_ADDR v) = Some sp' ∧
    (∀ ch, chunk_base (TO_ADDR v) ch / 8 = TO_ADDR v / 8 ∧
           chunk_base (TO_ADDR v) ch mod 2 = 0 ∧
           chunk_base (TO_ADDR v) ch ≠ TO_ADDR v) ∧
    (∀ ch ch', chunk_base (TO_ADDR v) ch = chunk_base (TO_ADDR v) ch' →
               ch = ch') ∧
    load sp' (TO_ADDR v) = load sp (TO_ADDR v) ∧
    load sp' (TO_ADDR v + 1) = load sp (TO_ADDR v + 1) ∧
    (∀ n : nat, Z.of_nat n / 8 ≠ TO_ADDR v / 8 → sp' !! n = sp !! n).
Proof.
  intros Hsp. destruct (TO_ADDR_range v) as [Hr Heven].
  destruct (VARIANT2_SHUFFLE_spec sp (TO_ADDR v) Hr Heven Hsp)
    as (sp' & Hrun & _ & _ & Hwords).
  assert (Hline : ∀ ch, _) by
    (intros ch; exact (chunk_base_line (TO_ADDR v) ch (proj1 Hr) Heven)).
  exists sp'. split; [done|]. split; [|split; [|split; [|split]]].
  - intros ch. destruct (Hline ch) as (_ & ? & _ & ? & ?). done.
  - intros ch ch'. apply chunk_base_inj; [lia|done].
  - unfold load. apply Hwords. intros ch.
    destruct (Hline ch) as (? & _ & _ & ? & ?). zlia.
  - unfold load. apply Hwords. intros ch.
    destruct (Hline ch) as (? & _ & _ & ? & ?). zlia.
  - intros n Hn. apply Hwords. intros ch.
    destruct (Hline ch) as (? & ? & ? & _ & _).
    split; intros ->; apply Hn; rewrite Z2Nat.id by lia; done.
Qed.

Lemma cond_shuffle_untouched (variant : Z) sp v sp' (n : nat) :
  sp_ok sp →
  (if decide (variant = 2) then VARIANT2_SHUFFLE sp (TO_ADDR v)
   else Some sp) = Some sp' →
  ¬ touched variant (TO_ADDR v) n → sp' !! n = sp !! n.
Proof.
  intros Hsp Hrun Hn. unfold touched in Hn.
  destruct (decide (variant = 2)) as [_|_]; [|congruence].
  destruct (TO_ADDR_range v) as [Hr Heven].
  destruct (VARIANT2_SHUFFLE_spec sp (TO_ADDR v) Hr Heven Hsp)
    as (sp'' & Hrun' & _ & _ & Hwords).
  assert (sp'' = sp') as <- by congruence.
  apply Hwords. intros ch.
  destruct (chunk_base_line (TO_ADDR v) ch (proj1 Hr) Heven)
    as (? & ? & ? & _ & _).
  split; intros ->; apply Hn; rewrite Z2Nat.id by lia; done.
Qed.

Lemma touched_cell variant addr (n : nat) :
  0 <= addr → addr mod 2 = 0 →
  ¬ touched variant addr n → n ≠ Z.to_nat addr ∧ n ≠ Z.to_nat (addr + 1).
Proof.
  intros Haddr Heven Hn. unfold touched in Hn.
  destruct (decide (variant = 2)); split; intros ->; apply Hn;
    rewrite Z2Nat.id by lia; (zlia || auto).
Qed.

Lemma store_lookup_ne sp i v sp' (n : nat) :
  store sp i v = Some sp' → n ≠ Z.to_nat i → sp' !! n = sp !! n.
Proof.
  unfold store. case_decide; [|done]. intros [= <-] Hn.
  by apply list_lookup_insert_ne.
Qed.

Lemma variant1_tweak_untouched sp addr sp' (n : nat) :
  variant1_tweak sp addr = Some sp' → n ≠ Z.to_nat (addr + 1) →
  sp' !! n = sp !! n.
Proof.
  unfold variant1_tweak. destruct (load sp (addr + 1)) as [w|]; [|done].
  cbn [mbind option_bind]. apply store_lookup_ne.
Qed.

Lemma tweak_store_untouched sp addr tweak sp' (n : nat) :
  (w ← load sp (addr + 1); store sp (addr + 1) (Z.lxor w tweak)) = Some sp' →
  n ≠ Z.to_nat (addr + 1) → sp' !! n = sp !! n.
Proof.
  destruct (load sp (addr + 1)) as [w|]; [|done].
  cbn [mbind option_bind]. apply store_lookup_ne.
Qed.

Section Footprint.
Context `{Primitives}.

(** X8. A turn of the memory-hard loop changes only words of the cell it reads
    (at [TO_ADDR(a)]) and of the cell addressed by the new [b]; in variant 2
    only words of the two aligned 64-byte groups of these cells. *)
Theorem iteration_footprint (variant tweak : Z) (s : loop_state) :
  sp_ok (words s) →
  ∃ s', iteration variant tweak s = Some s' ∧
    ∀ n : nat,
      ¬ touched variant (TO_ADDR (a s)) n →
      ¬ touched variant (TO_ADDR (b s')) n →
      words s' !! n = words s !! n.
Proof.
  intros Hsp.
  destruct (iteration_steps variant tweak s Hsp)
    as (w0 & w1 & sp1 & sp3 & c0 & c1 & r & sp4 & sp6 & Hsteps).
  cbv zeta in Hsteps.
  destruct Hsteps as (_ & _ & H1 & H3 & _ & _ & _ & H4 & H6 &
                      Hsp1 & Hsp3 & Hsp4 & Hsp6 & Hrun).
  eexists. split; [exact Hrun|]. cbn [words b].
  set (c' := cnSingleRound (w0, w1) (a s)) in *.
  intros n Hna Hnb.
  destruct (TO_ADDR_range (a s)) as [Hra Hea].
  destruct (TO_ADDR_range c') as [Hrb Heb].
  destruct (touched_cell variant _ n (proj1 Hra) Hea Hna) as [Ha0 Ha1].
  destruct (touched_cell variant _ n (proj1 Hrb) Heb Hnb) as [Hb0 Hb1].
  assert (sp6 !! n = sp4 !! n) as ->.
  { destruct (decide (variant = 1)) as [_|_].
    - rewrite (tweak_store_untouched _ _ _ _ n H6) by done.
      by rewrite !list_lookup_insert_ne by done.
    - injection H6 as <-. by rewrite !list_lookup_insert_ne by done. }
  rewrite (cond_shuffle_untouched variant sp3 c' sp4 n Hsp3 H4 Hnb).
  assert (sp3 !! n = sp1 !! n) as ->.
  { destruct (decide (variant = 1)) as [_|_].
    - rewrite (variant1_tweak_untouched _ _ _ n H3) by done.
      by rewrite !list_lookup_insert_ne by done.
    - injection H3 as <-. by rewrite !list_lookup_insert_ne by done. }
  exact (cond_shuffle_untouched variant (words s) (a s) sp1 n Hsp H1 Hna).
Qed.
End Footprint.

Lemma VARIANT2_SHUFFLE_line_witness :
  sp_ok zero_scratchpad ∧
  ∃ sp', VARIANT2_SHUFFLE zero_scratchpad (TO_ADDR (0x7654320, 0)) = Some sp'.
Proof.
  assert (sp_ok zero_scratchpad) as Hok by (vm_compute; reflexivity).
  split; [exact Hok|].
  destruct (VARIANT2_SHUFFLE_line zero_scratchpad (0x7654320, 0) Hok)
    as (sp' & Hrun & _).
  exists sp'. exact Hrun.
Defined.

Lemma iteration_footprint_witness :
  sp_ok (words zero_state) ∧
  ∃ s', @iteration stub_primitives 2 0 zero_state = Some s'.
Proof.
  assert (sp_ok (words zero_state)) as Hok by (vm_compute; reflexivity).
  split; [exact Hok|].
  destruct (@iteration_footprint stub_primitives 2 0 zero_state Hok)
    as (s' & Hrun & _).
  exists s'. exact Hrun.
Defined.

(** *** The input as the call sees it *)

Lemma length_elements (s : slice) : slice_ok s → length (elements s) = len s.
Proof. unfold slice_ok, cap, elements. intros. rewrite length_take. lia. Qed.

Lemma tweak_init_elements fs d1 d2 variant :
  slice_ok d1 → slice_ok d2 → elements d1 = elements d2 →
  (variant = 1 → (43 <= len d1)%nat) →
  tweak_init fs d1 variant = tweak_init fs d2 variant.
Proof.
  intros Hok1 Hok2 Hel Hv.
  destruct (decide (variant = 1)) as [->|Hne].
  - specialize (Hv eq_refl).
    assert (len d2 = len d1) as Hlen
      by (rewrite <- !length_elements by done; by rewrite Hel).
    unfold slice_ok in Hok1, Hok2.
    rewrite !tweak_init_1 by lia.
    rewrite <- !(lookup_total_take_lt (backing d1) (len d1)) by lia.
    rewrite <- !(lookup_total_take_lt (backing d2) (len d2)) by lia.
    fold (elements d1). fold (elements d2). by rewrite Hel.
  - by rewrite !tweak_init_other.
Qed.

Section Visible.
Context `{Primitives}.

(** X9. On a call that meets the documented precondition the result depends on
    the bytes [data[0] .. data[len(data)-1]] only: the capacity of the slice
    and the bytes of its backing array beyond the length play no part. *)
Theorem Cache_Sum_visible_bytes (cache : Cache) (d1 d2 : slice) (variant : Z) :
  slice_ok d1 → slice_ok d2 → elements d1 = elements d2 →
  (variant = 1 → (43 <= len d1)%nat) →
  Cache_Sum cache d1 variant = Cache_Sum cache d2 variant.
Proof.
  intros Hok1 Hok2 Hel Hv. unfold Cache_Sum. cbv zeta.
  generalize (turns 0 SCRATCHPAD_WORDS 16). intros n.
  generalize (turns 0 524288 1). intros m.
  rewrite Hel.
  rewrite (tweak_init_elements _ d1 d2 variant Hok1 Hok2 Hel Hv).
  reflexivity.
Qed.
End Visible.

Lemma Cache_Sum_visible_bytes_witness :
  slice_ok (make_bytes 43 43) ∧ slice_ok (make_bytes 43 64) ∧
  elements (make_bytes 43 43) = elements (make_bytes 43 64) ∧
  (1 = 1 → (43 <= len (make_bytes 43 43))%nat) ∧
  @Cache_Sum stub_primitives new_Cache (make_bytes 43 43) 1
  = @Cache_Sum stub_primitives new_Cache (make_bytes 43 64) 1.
Proof.
  assert (slice_ok (make_bytes 43 43)) as Hok1 by (vm_compute; lia).
  assert (slice_ok (make_bytes 43 64)) as Hok2 by (vm_compute; lia).
  assert (elements (make_bytes 43 43) = elements (make_bytes 43 64)) as Hel
    by reflexivity.
  assert (1 = 1 → (43 <= len (make_bytes 43 43))%nat) as Hv
    by (intros _; vm_compute; lia).
  split; [exact Hok1|]. split; [exact Hok2|]. split; [exact Hel|].
  split; [exact Hv|].
  exact (@Cache_Sum_visible_bytes stub_primitives new_Cache _ _ 1
           Hok1 Hok2 Hel Hv).
Defined.

(** *** The serialised state, read back *)

Lemma split_byte x :
  Z.lor (Z.land x (Z.ones 8)) (Z.shiftl (Z.shiftr x 8) 8) = x.
Proof. Z.bitblast. Qed.

Lemma join_byte x n m :
  0 <= n → m = n + 8 →
  Z.lor (Z.shiftl (Z.land (Z.shiftr x n) (Z.ones 8)) n)
        (Z.shiftl (Z.shiftr x m) m)
  = Z.shiftl (Z.shiftr x n) n.
Proof. intros Hn ->. Z.bitblast. Qed.

Lemma top_byte w :
  U64.in_range w → Z.land (Z.shiftr w 56) (Z.ones 8) = Z.shiftr w 56.
Proof.
  intros Hw. unfold U64.in_range, U64.modulus in Hw.
  rewrite Z.land_ones, Z.shiftr_div_pow2 by lia.
  apply Z.mod_small. zlia.
Qed.

Lemma bytes_to_word w :
  U64.in_range w →
  Z.lor (Z.land (Z.shiftr w (8 * Z.of_nat 0)) 0xff)
    (Z.lor (Z.shiftl (Z.land (Z.shiftr w (8 * Z.of_nat 1)) 0xff) 8)
    (Z.lor (Z.shiftl (Z.land (Z.shiftr w (8 * Z.of_nat 2)) 0xff) 16)
    (Z.lor (Z.shiftl (Z.land (Z.shiftr w (8 * Z.of_nat 3)) 0xff) 24)
    (Z.lor (Z.shiftl (Z.land (Z.shiftr w (8 * Z.of_nat 4)) 0xff) 32)
    (Z.lor (Z.shiftl (Z.land (Z.shiftr w (8 * Z.of_nat 5)) 0xff) 40)
    (Z.lor (Z.shiftl (Z.land (Z.shiftr w (8 * Z.of_nat 6)) 0xff) 48)
           (Z.shiftl (Z.land (Z.shiftr w (8 * Z.of_nat 7)) 0xff) 56)))))))
  = w.
Proof.
  intros Hw. change 0xff with (Z.ones 8).
  change (8 * Z.of_nat 0) with 0. change (8 * Z.of_nat 1) with 8.
  change (8 * Z.of_nat 2) with 16. change (8 * Z.of_nat 3) with 24.
  change (8 * Z.of_nat 4) with 32. change (8 * Z.of_nat 5) with 40.
  change (8 * Z.of_nat 6) with 48. change (8 * Z.of_nat 7) with 56.
  rewrite (top_byte w Hw).
  rewrite (join_byte w 48 56), (join_byte w 40 48), (join_byte w 32 40),
    (join_byte w 24 32), (join_byte w 16 24), (join_byte w 8 16) by lia.
  rewrite Z.shiftr_0_r. apply split_byte.
Qed.

(** X10. The bytes [U64_U8(cache.finalState, 0, 25)] hands to the finalist are
    the little-endian encoding of the 25 words: the eight bytes from offset
    [8 i] on, read back with [binary.LittleEndian.Uint64], give word [i]. *)
Theorem U64_U8_LittleEndian_round_trip (st : list Z) (i : nat) :
  length st = 25%nat → (i < 25)%nat → U64.in_range (st !!! i) →
  ∃ d, reslice (slice_of (U64_U8 st 0 25)) (8 * i) (8 * i + 8) = Some d ∧
       len d = 8%nat ∧
       LittleEndian_Uint64 d = Some (st !!! i).
Proof.
  intros Hst Hi Hw. unfold reslice, cap, slice_of. cbn [backing len].
  pose proof (length_U64_U8 st Hst) as Hlen.
  rewrite decide_True by lia. eexists. split; [done|]. cbn [len].
  split; [lia|].
  rewrite LittleEndian_Uint64_Some; cbn [len backing].
  - rewrite !lookup_total_drop.
    assert (Hb : ∀ k : nat, (k < 8)%nat →
              U64_U8 st 0 25 !!! (8 * i + k)%nat
              = Z.land (Z.shiftr (st !!! i) (8 * Z.of_nat k)) 0xff).
    { intros k Hk. apply list_lookup_total_correct.
      by apply U64_U8_lookup. }
    rewrite !Hb by lia. f_equal. by apply bytes_to_word.
  - lia.
  - unfold slice_ok, cap. cbn [len backing]. rewrite length_drop. lia.
Qed.

Lemma U64_U8_LittleEndian_round_trip_witness :
  length (replicate 25 0x0102030405060708) = 25%nat ∧ (3 < 25)%nat ∧
  U64.in_range (replicate 25 0x0102030405060708 !!! 3%nat) ∧
  ∃ d, reslice (slice_of (U64_U8 (replicate 25 0x0102030405060708) 0 25))
               (8 * 3) (8 * 3 + 8) = Some d ∧
       LittleEndian_Uint64 d = Some 0x0102030405060708.
Proof.
  assert (length (replicate 25 0x0102030405060708) = 25%nat) as Hst
    by reflexivity.
  assert (3 < 25)%nat as Hi by lia.
  assert (U64.in_range (replicate 25 0x0102030405060708 !!! 3%nat)) as Hw
    by (vm_compute; split; [discriminate|reflexivity]).
  split; [exact Hst|]. split; [exact Hi|]. split; [exact Hw|].
  destruct (U64_U8_LittleEndian_round_trip _ 3 Hst Hi Hw)
    as (d & Hd & _ & Hle).
  exists d. split; [exact Hd|exact Hle].
Defined.

(** *** The tweaks of variant 1 and the second cell of a turn *)

(** X11. The expression of the write-side tweak of variant 1 takes three values
    and reads three bits of [t]: with bit 0 of [t] clear it is 16 or, when
    bit 4 is set, 48; with bit 0 set it is 0 or, when bit 5 is set, 16.
    Shifted left by 24 it does not wrap, so the tweak flips at most the bits
    28 and 29 of the high word of the cell. *)
Theorem tweak1_index_table (t : Z) :
  tweak1_index t
  = (if decide (t mod 2 = 0)
     then if decide ((t / 16) mod 2 = 0) then 16 else 48
     else if decide ((t / 32) mod 2 = 0) then 0 else 16) ∧
  tweak1_index t = tweak1_index (t mod 64) ∧
  (U64.shl (tweak1_index t) 24 = 0 ∨
   U64.shl (tweak1_index t) 24 = 0x10000000 ∨
   U64.shl (tweak1_index t) 24 = 0x30000000).
Proof.
  assert (Htab : ∀ t, tweak1_index t
    = (if decide (t mod 2 = 0)
       then if decide ((t / 16) mod 2 = 0) then 16 else 48
       else if decide ((t / 32) mod 2 = 0) then 0 else 16)).
  { clear t. intros t. rewrite tweak1_index_bits.
    assert ((t / 16) mod 2 = 0 ∨ (t / 16) mod 2 = 1) as [-> | ->] by zlia;
    assert ((t / 32) mod 2 = 0 ∨ (t / 32) mod 2 = 1) as [-> | ->] by zlia;
    repeat case_decide; try done. }
  split; [apply Htab|]. split.
  - rewrite (Htab t), (Htab (t mod 64)).
    replace ((t mod 64) mod 2) with (t mod 2) by zlia.
    replace ((t mod 64 / 16) mod 2) with ((t / 16) mod 2) by zlia.
    replace ((t mod 64 / 32) mod 2) with ((t / 32) mod 2) by zlia.
    done.
  - rewrite Htab. repeat case_decide; vm_compute; auto.
Qed.

Section Second_cell.
Context `{Primitives}.

(** X12. What a turn of the memory-hard loop leaves at the second address
    [TO_ADDR(b)] (for the new [b]), in every variant: the cell holds the sum
    of the old [a] and the product of [byteMul], word by word with
    wrap-around; in variant 1 the stored high word, and only the stored
    one, is XORed with [tweak]; the new [a] is the sum XORed with [c]. *)
Theorem iteration_second_cell (variant tweak : Z) (s : loop_state) :
  sp_ok (words s) →
  ∃ s', iteration variant tweak s = Some s' ∧
    product s' = byteMul (b s').1 (c s').1 ∧
    load (words s') (TO_ADDR (b s'))
      = Some (U64.add (a s).1 (product s').1) ∧
    load (words s') (TO_ADDR (b s') + 1)
      = Some (if decide (variant = 1)
              then Z.lxor (U64.add (a s).2 (product s').2) tweak
              else U64.add (a s).2 (product s').2) ∧
    a s' = (Z.lxor (U64.add (a s).1 (product s').1) (c s').1,
            Z.lxor (U64.add (a s).2 (product s').2) (c s').2).
Proof.
  intros Hsp.
  destruct (iteration_steps variant tweak s Hsp)
    as (w0 & w1 & sp1 & sp3 & c0 & c1 & r & sp4 & sp6 & Hsteps).
  cbv zeta in Hsteps.
  destruct Hsteps as (_ & _ & _ & _ & _ & _ & _ & _ & H6 &
                      _ & _ & Hsp4 & _ & Hrun).
  eexists. split; [exact Hrun|]. cbn [words a b c product fst snd].
  set (c' := cnSingleRound (w0, w1) (a s)) in *.
  set (p := byteMul c'.1 c0) in *.
  destruct (TO_ADDR_range c') as [Hr _].
  apply sp_ok_words in Hsp4 as Hl4.
  set (n := Z.to_nat (TO_ADDR c')) in *.
  replace (Z.to_nat (TO_ADDR c' + 1)) with (S n) in * by (unfold n; lia).
  assert (Hlt : (S n < length sp4)%nat) by (unfold n; lia).
  split; [done|].
  unfold load. fold n.
  replace (Z.to_nat (TO_ADDR c' + 1)) with (S n) by (unfold n; lia).
  destruct (decide (variant = 1)) as [_|_].
  - unfold load in H6.
    replace (Z.to_nat (TO_ADDR c' + 1)) with (S n) in H6 by (unfold n; lia).
    rewrite list_lookup_insert_eq in H6 by (rewrite length_insert; lia).
    cbn [mbind option_bind] in H6. unfold store in H6.
    rewrite decide_True in H6
      by (rewrite !length_insert; unfold n; lia).
    replace (Z.to_nat (TO_ADDR c' + 1)) with (S n) in H6 by (unfold n; lia).
    injection H6 as <-.
    split.
    + rewrite !list_lookup_insert_ne by lia.
      by rewrite list_lookup_insert_eq by lia.
    + split; [|done].
      by rewrite list_lookup_insert_eq by (rewrite !length_insert; lia).
  - injection H6 as <-. split.
    + rewrite list_lookup_insert_ne by lia.
      by rewrite list_lookup_insert_eq by lia.
    + split; [|done].
      by rewrite list_lookup_insert_eq by (rewrite length_insert; lia).
Qed.
End Second_cell.

Lemma iteration_second_cell_witness :
  sp_ok (words zero_state) ∧
  ∃ s', @iteration stub_primitives 1 5 zero_state = Some s'.
Proof.
  assert (sp_ok (words zero_state)) as Hok by (vm_compute; reflexivity).
  split; [exact Hok|].
  destruct (@iteration_second_cell stub_primitives 1 5 zero_state Hok)
    as (s' & Hrun & _).
  exists s'. exact Hrun.
Defined.

(** *** Ranges *)

Lemma in_range_land x : U64.in_range x ↔ Z.land x (Z.ones 64) = x.
Proof.
  unfold U64.in_range, U64.modulus. rewrite Z.land_ones by lia. split.
  - intros. by apply Z.mod_small.
  - intros <-. apply Z.mod_pos_bound. lia.
Qed.

Lemma wrap_in_range x : U64.in_range (U64.wrap x).
Proof. apply Z.mod_pos_bound. done. Qed.

Lemma lxor_in_range x y :
  U64.in_range x → U64.in_range y → U64.in_range (Z.lxor x y).
Proof.
  rewrite !in_range_land. intros Hx Hy.
  assert (Z.land (Z.lxor (Z.land x (Z.ones 64)) (Z.land y (Z.ones 64)))
                 (Z.ones 64)
          = Z.lxor (Z.land x (Z.ones 64)) (Z.land y (Z.ones 64))) as Hb
    by Z.bitblast.
  by rewrite Hx, Hy in Hb.
Qed.

Lemma lane_in_range w sh v :
  U64.in_range w → 0 <= v < 2 ^ 16 →
  sh = 0 ∨ sh = 16 ∨ sh = 32 ∨ sh = 48 →
  U64.in_range (Z.lor (Z.ldiff w (Z.shiftl 0xffff sh)) (Z.shiftl v sh)).
Proof.
  rewrite !in_range_land. intros Hw Hv Hsh.
  assert (Z.land v (Z.ones 16) = v) as Hv'
    by (rewrite Z.land_ones by lia; by apply Z.mod_small).
  change 0xffff with (Z.ones 16).
  assert (Z.land
            (Z.lor (Z.ldiff (Z.land w (Z.ones 64)) (Z.shiftl (Z.ones 16) sh))
                   (Z.shiftl (Z.land v (Z.ones 16)) sh)) (Z.ones 64)
          = Z.lor (Z.ldiff (Z.land w (Z.ones 64)) (Z.shiftl (Z.ones 16) sh))
                  (Z.shiftl (Z.land v (Z.ones 16)) sh)) as Hb
    by (destruct Hsh as [-> | [-> | [-> | ->]]]; Z.bitblast).
  by rewrite Hw, Hv' in Hb.
Qed.

Lemma load_in_range sp i w :
  Forall U64.in_range sp → load sp i = Some w → U64.in_range w.
Proof. intros Hsp Hw. by eapply Forall_lookup_1. Qed.

Lemma store_in_range sp i v sp' :
  Forall U64.in_range sp → U64.in_range v → store sp i v = Some sp' →
  Forall U64.in_range sp'.
Proof.
  unfold store. intros Hsp Hv. case_decide; [|done]. intros [= <-].
  by apply Forall_insert.
Qed.

Lemma load16_range sp p k v : load16 sp p k = Some v → 0 <= v < 2 ^ 16.
Proof.
  unfold load16. destruct (load sp (p + k / 4)) as [w|]; [|done].
  cbn [mbind option_bind]. intros [= <-]. apply get_lane_range.
Qed.

Lemma store16_in_range sp p k v sp' :
  Forall U64.in_range sp → 0 <= k < 8 → 0 <= v < 2 ^ 16 →
  store16 sp p k v = Some sp' → Forall U64.in_range sp'.
Proof.
  intros Hsp Hk Hv. unfold store16.
  destruct (load sp (p + k / 4)) as [w|] eqn:Hw; [|done].
  cbn [mbind option_bind]. apply store_in_range; [done|].
  apply lane_in_range; [by eapply load_in_range|done|zlia].
Qed.

Lemma assign16_in_range addr ws : ∀ sp sp',
  Forall U64.in_range sp →
  Forall (λ w : chunk * Z * Z, 0 <= w.1.2 < 8 ∧ 0 <= w.2 < 2 ^ 16) ws →
  assign16 sp addr ws = Some sp' → Forall U64.in_range sp'.
Proof.
  induction ws as [|[[ch k] v] ws IH]; intros sp sp' Hsp Hws.
  - by intros [= <-].
  - apply list.Forall_cons_1 in Hws as [[Hk Hv] Hws]. cbn [assign16].
    destruct (store16 sp (chunk_base addr ch) k v) as [sp1|] eqn:Hst;
      [|done].
    cbn [mbind option_bind]. apply IH; [|done].
    by eapply store16_in_range.
Qed.

Lemma VARIANT2_SHUFFLE_in_range sp addr sp' :
  Forall U64.in_range sp → VARIANT2_SHUFFLE sp addr = Some sp' →
  Forall U64.in_range sp'.
Proof.
  intros Hsp. unfold VARIANT2_SHUFFLE.
  destruct (mapM _ shuffle_src) as [vals|] eqn:Hvals; [|done].
  cbn [mbind option_bind]. apply assign16_in_range; [done|].
  apply mapM_Some in Hvals.
  assert (Forall (λ v, 0 <= v < 2 ^ 16) vals) as Hr.
  { clear -Hvals. induction Hvals as [|s v ss vs Hs _ IH]; constructor;
      [by eapply load16_range|done]. }
  apply Forall2_length in Hvals.
  unfold shuffle_src in Hvals. cbn [length] in Hvals.
  do 25 (destruct vals as [|? vals]; try done).
  unfold shuffle_dst. cbn [zip_with].
  repeat (apply list.Forall_cons_1 in Hr as [? Hr]).
  Forall_each ltac:(cbn [fst snd]; split; [lia|assumption]).
Qed.

Lemma uint64_of_float64_in_range f : U64.in_range (uint64_of_float64 f).
Proof.
  unfold uint64_of_float64.
  assert (U64.in_range 0) as H0 by (split; [done|reflexivity]).
  destruct (Prim2SF f) as [| | |[] m e]; try exact H0.
  apply wrap_in_range.
Qed.

Lemma variant2_arith_in_range b c1 dr sr r :
  U64.in_range c1 → U64.in_range dr → U64.in_range sr →
  variant2_arith b c1 dr sr = Some r →
  U64.in_range r.1.1 ∧ U64.in_range r.1.2 ∧ U64.in_range r.2.
Proof.
  intros Hc1 Hdr Hsr. rewrite variant2_arith_spec. intros [= <-].
  cbn [fst snd]. split; [by repeat apply lxor_in_range|].
  split; [|apply uint64_of_float64_in_range].
  pose proof (divisor_of_range b.1) as Hd.
  unfold U64.in_range, U64.modulus.
  pose proof (Z.mod_pos_bound (b.2 / divisor_of b.1) (2 ^ 32) ltac:(lia)).
  pose proof (Z.mod_pos_bound b.2 (divisor_of b.1) ltac:(lia)). lia.
Qed.

Lemma variant1_tweak_in_range sp addr sp' :
  Forall U64.in_range sp → variant1_tweak sp addr = Some sp' →
  Forall U64.in_range sp'.
Proof.
  intros Hsp. unfold variant1_tweak.
  destruct (load sp (addr + 1)) as [w|] eqn:Hw; [|done].
  cbn [mbind option_bind]. apply store_in_range; [done|].
  apply lxor_in_range; [by eapply load_in_range|apply wrap_in_range].
Qed.

Lemma tweak_store_in_range sp addr tweak sp' :
  Forall U64.in_range sp → U64.in_range tweak →
  (w ← load sp (addr + 1); store sp (addr + 1) (Z.lxor w tweak)) = Some sp' →
  Forall U64.in_range sp'.
Proof.
  intros Hsp Ht.
  destruct (load sp (addr + 1)) as [w|] eqn:Hw; [|done].
  cbn [mbind option_bind]. apply store_in_range; [done|].
  apply lxor_in_range; [by eapply load_in_range|done].
Qed.

Section Range.
Context `{Primitives}.

(** X13. The memory-hard loop keeps every value a [uint64]: when [cnSingleRound]
    and [byteMul] return [uint64]s, as their Go types say, a turn that
    starts with [uint64]s in its variables and in every word of the
    scratchpad ends with [uint64]s, and so does any number of turns; no
    operation of the loop leaves the range without its wrap-around. *)
Theorem memory_loop_in_range (variant tweak : Z) (s : loop_state) (n : nat) :
  (∀ x k, pair_in_range x → pair_in_range k →
          pair_in_range (cnSingleRound x k)) →
  (∀ x y, U64.in_range x → U64.in_range y → pair_in_range (byteMul x y)) →
  U64.in_range tweak → sp_ok (words s) → state_in_range s →
  ∃ s', for_loop n 0 1 (λ _, iteration variant tweak) s = Some s' ∧
        sp_ok (words s') ∧ state_in_range s'.
Proof.
  intros Hround Hmul Htweak Hsp Hs.
  apply (for_loop_total (λ _ s, sp_ok (words s) ∧ state_in_range s));
    [done|].
  clear s Hsp Hs. intros _ s _ [Hsp (Ha & Hb & _ & _ & Hdr & Hsr & Hw)].
  destruct (iteration_steps variant tweak s Hsp)
    as (w0 & w1 & sp1 & sp3 & c0 & c1 & r & sp4 & sp6 & Hsteps).
  cbv zeta in Hsteps.
  destruct Hsteps as (Hw0 & Hw1 & H1 & H3 & Hc0 & Hc1 & Hr & H4 & H6 &
                      _ & _ & _ & Hsp6 & Hrun).
  eexists. split; [exact Hrun|]. cbn [words]. split; [done|].
  set (c' := cnSingleRound (w0, w1) (a s)) in *.
  pose proof (Hround (w0, w1) (a s)
                (conj (load_in_range _ _ _ Hw Hw0) (load_in_range _ _ _ Hw Hw1))
                Ha) as [Hc'1 Hc'2].
  fold c' in Hc'1, Hc'2.
  destruct Ha as [Ha1 Ha2], Hb as [Hb1 Hb2].
  assert (Forall U64.in_range sp1) as Hr1.
  { destruct (decide (variant = 2)); [|congruence].
    exact (VARIANT2_SHUFFLE_in_range _ _ _ Hw H1). }
  assert (Forall U64.in_range sp3) as Hr3.
  { destruct (decide (variant = 1)).
    - eapply variant1_tweak_in_range; [|exact H3].
      by repeat (apply Forall_insert; [|by apply lxor_in_range]).
    - injection H3 as <-.
      by repeat (apply Forall_insert; [|by apply lxor_in_range]). }
  pose proof (load_in_range _ _ _ Hr3 Hc0) as Hc0r.
  pose proof (load_in_range _ _ _ Hr3 Hc1) as Hc1r.
  pose proof (Hmul c'.1 c0 Hc'1 Hc0r) as [Hp1 Hp2].
  assert (U64.in_range r.1.1 ∧ U64.in_range r.1.2 ∧ U64.in_range r.2)
    as (Hr11 & Hr12 & Hr2).
  { destruct (decide (variant = 2)).
    - exact (variant2_arith_in_range _ _ _ _ _ Hc1r Hdr Hsr Hr).
    - injection Hr as <-. done. }
  assert (Forall U64.in_range sp4) as Hr4.
  { destruct (decide (variant = 2)); [|congruence].
    exact (VARIANT2_SHUFFLE_in_range _ _ _ Hr3 H4). }
  assert (Forall U64.in_range sp6) as Hr6.
  { destruct (decide (variant = 1)).
    - eapply tweak_store_in_range; [|exact Htweak|exact H6].
      by repeat (apply Forall_insert; [|apply wrap_in_range]).
    - injection H6 as <-.
      by repeat (apply Forall_insert; [|apply wrap_in_range]). }
  unfold state_in_range, pair_in_range.
  cbn [a b c product divisionResult sqrtResult words fst snd].
  refine (conj (conj _ _) (conj (conj Hc'1 Hc'2) (conj (conj Hc0r Hr11)
            (conj (conj Hp1 Hp2) (conj Hr12 (conj Hr2 Hr6))))));
    apply lxor_in_range; (done || apply wrap_in_range).
Qed.
End Range.

Lemma memory_loop_in_range_witness :
  (∀ x k, pair_in_range x → pair_in_range k →
          pair_in_range (@cnSingleRound stub_primitives x k)) ∧
  (∀ x y, U64.in_range x → U64.in_range y →
          pair_in_range (@byteMul stub_primitives x y)) ∧
  U64.in_range 5 ∧ sp_ok (words zero_state) ∧ state_in_range zero_state ∧
  ∃ s', for_loop 3 0 1 (λ _, @iteration stub_primitives 1 5) zero_state
        = Some s'.
Proof.
  assert (∀ x k, pair_in_range x → pair_in_range k →
            pair_in_range (@cnSingleRound stub_primitives x k)) as Hround
    by (intros x k Hx _; exact Hx).
  assert (∀ x y, U64.in_range x → U64.in_range y →
            pair_in_range (@byteMul stub_primitives x y)) as Hmul.
  { intros x y Hx Hy. split; cbn [byteMul stub_primitives fst snd].
    - unfold U64.in_range, U64.modulus in *.
      rewrite Z.shiftr_div_pow2 by lia.
      assert (0 <= x * y) by lia.
      assert (x * y < 2 ^ 64 * 2 ^ 64) by (apply Z.mul_lt_mono_nonneg; lia).
      split; [apply Z.div_pos; lia|].
      apply Z.div_lt_upper_bound; lia.
    - apply wrap_in_range. }
  assert (U64.in_range 0) as H0 by (split; [done|reflexivity]).
  assert (U64.in_range 5) as H5 by (split; [done|reflexivity]).
  assert (sp_ok (words zero_state)) as Hok by (vm_compute; reflexivity).
  assert (state_in_range zero_state) as Hs.
  { unfold state_in_range, pair_in_range, zero_state.
    cbn [a b c product divisionResult sqrtResult words fst snd].
    refine (conj (conj H0 H0) (conj (conj H0 H0) (conj (conj H0 H0)
              (conj (conj H0 H0) (conj H0 (conj H0 _)))))).
    apply Forall_replicate. exact H0. }
  split; [exact Hround|]. split; [exact Hmul|]. split; [exact H5|].
  split; [exact Hok|]. split; [exact Hs|].
  destruct (@memory_loop_in_range stub_primitives 1 5 zero_state 3
              Hround Hmul H5 Hok Hs) as (s' & Hrun & _).
  exists s'. exact Hrun.
Defined.

(** *** Failure *)

Section Failure.
Context `{Primitives}.

(** X14. The only failure of [Cache.Sum] and of [Sum]: on a well-formed cache
    the call panics exactly when the variant is 1 and the capacity of
    [data] is below 43; every other call, whatever the variant and the
    input, returns a digest of 32 bytes and leaves a well-formed cache. *)
Theorem Cache_Sum_panics_iff (cache : Cache) (data : slice) (variant : Z) :
  Cache_ok cache →
  (Cache_Sum cache data variant = None
   ↔ variant = 1 ∧ (cap data < 43)%nat) ∧
  (Sum data variant = None ↔ variant = 1 ∧ (cap data < 43)%nat) ∧
  (¬ (variant = 1 ∧ (cap data < 43)%nat) →
   ∃ digest cache', Cache_Sum cache data variant = Some (digest, cache') ∧
                    length digest = 32%nat ∧ Cache_ok cache').
Proof.
  intros Hok0. pose proof Hok0 as [_ Hsp].
  assert (Hret : ¬ (variant = 1 ∧ (cap data < 43)%nat) →
    ∃ digest cache', Cache_Sum cache data variant = Some (digest, cache') ∧
                     length digest = 32%nat ∧ Cache_ok cache').
  { intros Hno.
    destruct (Cache_Sum_total cache data variant Hsp)
      as (d & cache' & Hrun & Hok & _ & Hlen); [lia|].
    by exists d, cache'. }
  assert (Hiff : Cache_Sum cache data variant = None
                 ↔ variant = 1 ∧ (cap data < 43)%nat).
  { split.
    - intros Hnone.
      destruct (decide (variant = 1 ∧ (cap data < 43)%nat)) as [|Hno];
        [assumption|exfalso].
      destruct (Hret Hno) as (d & cache' & Hrun & _). congruence.
    - intros [-> Hcap]. by apply Cache_Sum_panic. }
  split; [exact Hiff|]. split; [|exact Hret].
  rewrite (Sum_eq cache data variant Hok0), <- Hiff.
  destruct (Cache_Sum cache data variant); cbn; split; congruence.
Qed.
End Failure.

Lemma Cache_Sum_panics_iff_witness :
  Cache_ok new_Cache ∧
  (@Cache_Sum stub_primitives new_Cache (make_bytes 50 50) 1 = None
   ↔ 1 = 1 ∧ (cap (make_bytes 50 50) < 43)%nat).
Proof.
  assert (Cache_ok new_Cache) as Hok
    by (split; [reflexivity|vm_compute; reflexivity]).
  split; [exact Hok|].
  exact (proj1 (@Cache_Sum_panics_iff stub_primitives new_Cache
                  (make_bytes 50 50) 1 Hok)).
Defined.
